(** * Verification of the location-enrichment scripts

    Shallow embedding of [geocode_postprocess.py], [lisp.py] and
    [huggingface_retrieval_sourcer_excel.py]: the location normalizer, the
    cached geocode providers, the provider dispatch, the enrichment pipeline
    and the resilient GET. *)

From stdpp Require Import base numbers option list strings gmap pretty sorting.

Set Warnings "-register-all".

(** ** Python [str]: sequences of Unicode code points *)

Module PyStr.

Abbreviation str := (list N).

(** String literals of this file are written as Rocq strings (UTF-8 bytes)
    and decoded to code points. *)
Fixpoint utf8_decode (bs : list N) : str :=
  match bs with
  | [] => []
  | b0 :: r0 =>
    if (b0 <? 0x80)%N then b0 :: utf8_decode r0
    else match r0 with
    | [] => [b0]
    | b1 :: r1 =>
      if (b0 <? 0xE0)%N then ((b0 - 0xC0) * 0x40 + (b1 - 0x80))%N :: utf8_decode r1
      else match r1 with
      | [] => [b0; b1]
      | b2 :: r2 =>
        if (b0 <? 0xF0)%N
        then ((b0 - 0xE0) * 0x1000 + (b1 - 0x80) * 0x40 + (b2 - 0x80))%N :: utf8_decode r2
        else match r2 with
        | [] => [b0; b1; b2]
        | b3 :: r3 =>
          ((b0 - 0xF0) * 0x40000 + (b1 - 0x80) * 0x1000
           + (b2 - 0x80) * 0x40 + (b3 - 0x80))%N :: utf8_decode r3
        end
      end
    end
  end.

Definition py (s : string) : str :=
  utf8_decode (map Ascii.N_of_ascii (String.list_ascii_of_string s)).

(** [str.isspace()] of one code point; also the class [\s] of [re] on [str]
    patterns. *)
Definition isspace (c : N) : bool :=
  ((0x09 <=? c) && (c <=? 0x0D) || (0x1C <=? c) && (c <=? 0x20)
   || (c =? 0x85) || (c =? 0xA0) || (c =? 0x1680)
   || (0x2000 <=? c) && (c <=? 0x200A)
   || (c =? 0x2028) || (c =? 0x2029) || (c =? 0x202F) || (c =? 0x205F)
   || (c =? 0x3000))%N.

(** Case and word-class tables: written out for Latin-1 (every literal of the
    scripts lies there), taken from the Unicode database above it. *)
Class Unicode := {
  (** full lower-casing of a code point [>= 256] between its left and right
      context (Python special-cases the final sigma) *)
  uni_lower : str → N → str → str;
  (** full upper-casing of a code point [>= 256] *)
  uni_upper : N → str;
  (** [str.isalnum()] of a code point [>= 256] *)
  uni_isalnum : N → bool;
}.

(** What the proofs need from the database: lower-casing a character that is
    not white space gives at least one character and no white space. *)
Class UnicodeLaws (U : Unicode) : Prop := {
  uni_lower_visible : ∀ before c after,
    (256 ≤ c)%N → isspace c = false →
    uni_lower before c after ≠ []
    ∧ ∀ d, d ∈ uni_lower before c after → isspace d = false;
}.

Definition lower_latin1 (c : N) : N :=
  if ((0x41 <=? c) && (c <=? 0x5A)
      || (0xC0 <=? c) && (c <=? 0xDE) && negb (c =? 0xD7))%N
  then (c + 0x20)%N else c.

Definition upper_latin1 (c : N) : str :=
  if ((0x61 <=? c) && (c <=? 0x7A)
      || (0xE0 <=? c) && (c <=? 0xFE) && negb (c =? 0xF7))%N
  then [(c - 0x20)%N]
  else if (c =? 0xB5)%N then [0x39C%N]
  else if (c =? 0xDF)%N then [0x53%N; 0x53%N]
  else if (c =? 0xFF)%N then [0x178%N]
  else [c].

Definition isalnum_latin1 (c : N) : bool :=
  ((0x30 <=? c) && (c <=? 0x39) || (0x41 <=? c) && (c <=? 0x5A)
   || (0x61 <=? c) && (c <=? 0x7A)
   || (c =? 0xAA) || (c =? 0xB2) || (c =? 0xB3) || (c =? 0xB5) || (c =? 0xB9)
   || (c =? 0xBA) || (0xBC <=? c) && (c <=? 0xBE)
   || (0xC0 <=? c) && (c <=? 0xFF) && negb (c =? 0xD7) && negb (c =? 0xF7))%N.

Section with_unicode.
Context {U : Unicode}.

Definition lower_char (before : str) (c : N) (after : str) : str :=
  if (c <? 256)%N then [lower_latin1 c] else uni_lower before c after.

Fixpoint lower_from (before s : str) : str :=
  match s with
  | [] => []
  | c :: s' => lower_char before c s' ++ lower_from (before ++ [c]) s'
  end.

(** [s.lower()] *)
Definition py_lower (s : str) : str := lower_from [] s.

(** [s.upper()] *)
Definition py_upper (s : str) : str :=
  s ≫= λ c, if (c <? 256)%N then upper_latin1 c else uni_upper c.

(** the word class [\w] of [re] on [str] patterns *)
Definition isword (c : N) : bool :=
  (c =? 0x5F)%N || (if (c <? 256)%N then isalnum_latin1 c else uni_isalnum c).
End with_unicode.

Fixpoint lstrip_by (p : N → bool) (s : str) : str :=
  match s with
  | c :: s' => if p c then lstrip_by p s' else s
  | [] => []
  end.

Definition rstrip_by (p : N → bool) (s : str) : str :=
  reverse (lstrip_by p (reverse s)).

Definition strip_by (p : N → bool) (s : str) : str :=
  rstrip_by p (lstrip_by p s).

(** [s.strip()] *)
Definition py_strip (s : str) : str := strip_by isspace s.

(** [s.strip(chars)] *)
Definition py_strip_chars (chars s : str) : str :=
  strip_by (λ c, bool_decide (c ∈ chars)) s.

(** truth value of a string: [if s] *)
Definition nonempty (s : str) : bool :=
  match s with [] => false | _ => true end.

End PyStr.
Import PyStr.

(** ** The fragment of [re] the scripts use *)

Module Re.

(** Character classes: [\s] and an explicit set [[...]]. *)
Inductive cls := CSpace | CSet (l : str).

Definition in_cls (cl : cls) (c : N) : bool :=
  match cl with
  | CSpace => isspace c
  | CSet l => bool_decide (c ∈ l)
  end.

(** Patterns.  Repetition is only ever applied to a character class. *)
Inductive re :=
  | Eps
  | Lit (c : N)
  | OneOf (cl : cls)
  | Star (cl : cls)
  | Plus (cl : cls)
  | WordB
  | Eos
  | Seq (r1 r2 : re)
  | Alt (r1 r2 : re).

(** A compiled pattern with its [re.IGNORECASE] flag. *)
Record pattern := Pattern { pat_re : re; ignorecase : bool }.

(** Literal text. *)
Definition text (s : string) : re :=
  foldr (λ c r, Seq (Lit c) r) Eps (py s).

(** Case-insensitive comparison of a pattern literal (an ASCII character in
    every pattern of the scripts) with a subject character: the two ASCII
    cases, and the non-ASCII characters [re] equates with [i], [s] and [k]. *)
Definition ci_eq (p c : N) : bool :=
  (lower_latin1 c =? lower_latin1 p)%N && (c <? 0x80)%N
  || (lower_latin1 p =? 0x69)%N && ((c =? 0x130) || (c =? 0x131))%N
  || (lower_latin1 p =? 0x73)%N && (c =? 0x17F)%N
  || (lower_latin1 p =? 0x6B)%N && (c =? 0x212A)%N.

Section matcher.
Context {U : Unicode}.
Variable ic : bool.

Definition lit_eq (p c : N) : bool := if ic then ci_eq p c else (p =? c)%N.

Definition isword_opt (c : option N) : bool :=
  match c with Some c => isword c | None => false end.

(** Greedy repetition of a class, giving back one character at a time. *)
Fixpoint star (p : N → bool) (prev : option N) (s : str)
    (k : option N → str → option str) : option str :=
  match s with
  | c :: s' =>
    if p c then
      match star p (Some c) s' k with
      | Some r => Some r
      | None => k prev s
      end
    else k prev s
  | [] => k prev s
  end.

(** Backtracking matcher: [prev] is the character before the current
    position, [s] the rest of the subject, [k] what must match after. *)
Fixpoint matches (r : re) (prev : option N) (s : str)
    (k : option N → str → option str) : option str :=
  match r with
  | Eps => k prev s
  | Lit p =>
    match s with
    | c :: s' => if lit_eq p c then k (Some c) s' else None
    | [] => None
    end
  | OneOf cl =>
    match s with
    | c :: s' => if in_cls cl c then k (Some c) s' else None
    | [] => None
    end
  | Star cl => star (in_cls cl) prev s k
  | Plus cl =>
    match s with
    | c :: s' => if in_cls cl c then star (in_cls cl) (Some c) s' k else None
    | [] => None
    end
  | WordB =>
    if xorb (isword_opt prev) (isword_opt (head s)) then k prev s else None
  | Eos =>
    match s with
    | [] | [0x0A%N] => k prev s
    | _ => None
    end
  | Seq r1 r2 => matches r1 prev s (λ prev' s', matches r2 prev' s' k)
  | Alt r1 r2 =>
    match matches r1 prev s k with
    | Some r => Some r
    | None => matches r2 prev s k
    end
  end.

(** Length of the match starting at the current position, if any; with
    [must_advance] an empty match is refused. *)
Definition match_at (must_advance : bool) (r : re) (prev : option N)
    (s : str) : option nat :=
  (λ rest : str, length s - length rest) <$>
  matches r prev s (λ _ rest,
    if must_advance && (length rest =? length s) then None else Some rest).

(** [pattern.sub(repl, s)] for a replacement without group references:
    scan left to right; [skip] counts the characters of the current match
    still to be dropped. *)
Fixpoint sub_go (r : re) (repl : str) (prev : option N) (s : str)
    (skip : nat) : str :=
  match s with
  | [] =>
    match skip with
    | 0 => match match_at false r prev [] with Some _ => repl | None => [] end
    | S _ => []
    end
  | c :: s' =>
    match skip with
    | S n => sub_go r repl (Some c) s' n
    | 0 =>
      match match_at false r prev s with
      | Some (S n) => repl ++ sub_go r repl (Some c) s' n
      | Some 0 =>
        repl ++
        match match_at true r prev s with
        | Some (S n) => repl ++ sub_go r repl (Some c) s' n
        | _ => c :: sub_go r repl (Some c) s' 0
        end
      | None => c :: sub_go r repl (Some c) s' 0
      end
    end
  end.
End matcher.

Definition re_sub `{U : Unicode} (p : pattern) (repl s : str) : str :=
  sub_go (ignorecase p) (pat_re p) repl None s 0.

End Re.
Import Re.

(** ** Python values, exceptions and the dynamic operations the scripts use *)

Module Py.

(** Values as [json.loads] and the libraries hand them over.  A float is kept
    as its IEEE-754 binary64 bit pattern; a [dict] with [str] keys as the
    list of its items in insertion order. *)
Inductive pyval :=
  | VNone
  | VBool (b : bool)
  | VInt (z : Z)
  | VFloat (bits : N)
  | VStr (s : str)
  | VList (l : list pyval)
  | VDict (items : list (str * pyval)).

(** The instances of [Exception] the scripts meet.  [GeocoderServiceError]
    stands for that class of geopy and for its subclasses (time-out, service
    unavailable, quota, ...) other than [GeocoderInsufficientPrivileges],
    which the scripts name. *)
Inductive exn :=
  | AttributeError
  | TypeError
  | KeyError
  | IndexError
  | ValueError
  | ImportError
  | ReadTimeout
  | ConnectionError
  | HTTPError (status : Z)
  | GeocoderInsufficientPrivileges
  | GeocoderServiceError
  | RuntimeError_Unauthorized
  | RuntimeError_GetFailed (last_exc : option exn)
  | OtherException (name : str).

(** Outcome of an expression or call: a value, or a raised exception. *)
Inductive result (A : Type) :=
  | Ok (a : A)
  | Raise (e : exn).
Arguments Ok {A} a.
Arguments Raise {A} e.

Definition rbind {A B} (r : result A) (f : A → result B) : result B :=
  match r with
  | Ok a => f a
  | Raise e => Raise e
  end.

#[global] Instance result_bind : MBind result := λ A B f r, rbind r f.
#[global] Instance result_ret : MRet result := @Ok.

(** Built-ins taken as given: [str()] of a float and of a container, and
    [int()] of a string. *)
Class Runtime := {
  str_float : N → str;
  str_container : pyval → str;
  int_of_str : str → option Z;
}.

(** [bool(v)] *)
Definition truthy (v : pyval) : bool :=
  match v with
  | VNone => false
  | VBool b => b
  | VInt z => negb (z =? 0)%Z
  | VFloat bits => negb ((bits =? 0) || (bits =? 0x8000000000000000))%N
  | VStr s => nonempty s
  | VList l => match l with [] => false | _ => true end
  | VDict d => match d with [] => false | _ => true end
  end.

(** [a or b] *)
Definition py_or (a b : pyval) : pyval := if truthy a then a else b.

(** [str(v)] *)
Definition py_str `{Runtime} (v : pyval) : str :=
  match v with
  | VNone => py "None"
  | VBool true => py "True"
  | VBool false => py "False"
  | VInt z => py (pretty z)
  | VFloat bits => str_float bits
  | VStr s => s
  | VList _ | VDict _ => str_container v
  end.

(** Item lookup and assignment in a [dict] with [str] keys. *)
Fixpoint items_get (k : str) (d : list (str * pyval)) : option pyval :=
  match d with
  | [] => None
  | (k', v) :: d' => if bool_decide (k' = k) then Some v else items_get k d'
  end.

Fixpoint items_set (k : str) (v : pyval) (d : list (str * pyval))
    : list (str * pyval) :=
  match d with
  | [] => [(k, v)]
  | (k', v') :: d' =>
    if bool_decide (k' = k) then (k, v) :: d' else (k', v') :: items_set k v d'
  end.

(** [d.get(k)] as a method call on an arbitrary value: only a [dict] has it *)
Definition get_method (k : string) (v : pyval) : result pyval :=
  match v with
  | VDict d => Ok (default VNone (items_get (py k) d))
  | _ => Raise AttributeError
  end.

(** [d.get(k, "")] *)
Definition get_method_default (k : str) (dflt : pyval) (v : pyval)
    : result pyval :=
  match v with
  | VDict d => Ok (default dflt (items_get k d))
  | _ => Raise AttributeError
  end.

(** [v.upper()]: only a [str] has it *)
Definition upper_method `{Unicode} (v : pyval) : result str :=
  match v with
  | VStr s => Ok (py_upper s)
  | _ => Raise AttributeError
  end.

(** [v[0]] *)
Definition index0 (v : pyval) : result pyval :=
  match v with
  | VList (x :: _) => Ok x
  | VList [] => Raise IndexError
  | VStr (c :: _) => Ok (VStr [c])
  | VStr [] => Raise IndexError
  | VDict _ => Raise KeyError
  | _ => Raise TypeError
  end.

(** the items a [for] loop over [v] visits *)
Definition iterate (v : pyval) : result (list pyval) :=
  match v with
  | VList l => Ok l
  | VStr s => Ok ((λ c, VStr [c]) <$> s)
  | VDict d => Ok ((λ kv, VStr kv.1) <$> d)
  | _ => Raise TypeError
  end.

(** [d[k] = v] on a result record *)
Definition dict_set (k : string) (v : pyval) (d : pyval) : pyval :=
  match d with
  | VDict items => VDict (items_set (py k) v items)
  | _ => d
  end.

Definition dict_get (k : string) (d : pyval) : option pyval :=
  match d with
  | VDict items => items_get (py k) items
  | _ => None
  end.

End Py.
Import Py.

(** ** The outside world: HTTP, geopy, clock and the cache file *)

Module World.

(** A [requests.Response]: status, headers (keyed by lower-cased name), body
    bytes and what [r.json()] gives or raises. *)
Record response := Response {
  status_code : Z;
  headers : gmap str str;
  content : list N;
  json : result pyval;
}.

(** A [geopy.location.Location]. *)
Record location := Location {
  loc_raw : pyval;
  loc_address : pyval;
  loc_latitude : pyval;
  loc_longitude : pyval;
}.

(** Content of [geocode_cache.json] as [load_geo_cache] sees it. *)
Inductive cache_file :=
  | NoFile
  | Unreadable
  | NotADict
  | CacheDict (m : gmap str pyval).

(** Arguments of [time.sleep]: the backoff [base_sleep * 2 ** (attempt - 1)]
    plus a random jitter, the wait until a rate limit resets, and the
    pause after a checkpoint. *)
Inductive delay :=
  | Backoff (attempt : nat)
  | RateLimitWait (seconds : Z)
  | Pause.

(** Observable effects, newest first in a trace.  [NominatimGeocode q] is
    one call [geocode(q, addressdetails=True)] of the rate-limited geocoder,
    whatever the number of its attempts. *)
Inductive event :=
  | GeocodeCall (raw : option str)
  | RequestsGet (url : str) (params : list (str * str))
  | NominatimGeocode (query : str)
  | SessionGet (url : str)
  | Sleep (d : delay)
  | CacheWrite (ok : bool)
  | TableWrite.

(** Answers of the outside world; each may depend on what happened so far.
    [nominatim_geocode ua t i q] is what [geolocator.geocode(q,
    addressdetails=True)] does at attempt [i] of one rate-limited call, for
    the geolocator [Nominatim(user_agent=ua, timeout=10)]. *)
Record outside := Outside {
  requests_get : list event → str → list (str * str) → result response;
  geopy_import : list event → result unit;
  nominatim_geocode :
    str → list event → nat → str → result (option location);
  session_get : list event → str → result response;
  time_time : list event → Z;
  write_text : list event → result unit;
  write_any : list event → result unit;
}.

(** Process state: the module-level [_GEO_CACHE], the cache file, and the
    trace of effects. *)
Record world := World {
  _GEO_CACHE : gmap str pyval;
  cache_on_disk : cache_file;
  trace : list event;
}.

Definition emit (e : event) (w : world) : world :=
  World (_GEO_CACHE w) (cache_on_disk w) (e :: trace w).

(** [_GEO_CACHE[k] = v] *)
Definition cache_store (k : str) (v : pyval) (w : world) : world :=
  World (<[k := v]> (_GEO_CACHE w)) (cache_on_disk w) (trace w).

(** The calls of a geocoding service: a request of [geocode_google], a
    rate-limited call of [geocode_nominatim]. *)
Definition is_provider_call (e : event) : bool :=
  match e with
  | RequestsGet _ _ | NominatimGeocode _ => true
  | _ => false
  end.

Definition provider_calls (w : world) : list event :=
  filter (λ e, is_provider_call e = true) (trace w).

End World.
Import World.

(** ** [geocode_postprocess.py]: tables and the location normalizer *)

Definition strs (l : list string) : list str := py <$> l.

(** The two scripts that geocode carry the same provider code; they differ in
    the sentinel set, in the status given to an empty input and in the user
    agent they give to Nominatim. *)
Inductive script := lisp_py | geocode_postprocess_py.

Definition _BAD_LOCATIONS_lisp : gset str := Eval vm_compute in
  list_to_set (strs [
    ""; "remote"; "worldwide"; "earth"; "somewhere"; "internet"; "everywhere";
    "global"; "online"; "anywhere"; "planet earth"; "the internet"; "github";
    "home" ]).

Definition _BAD_LOCATIONS_postprocess : gset str := Eval vm_compute in
  list_to_set (strs [
    ""; "remote"; "worldwide"; "earth"; "somewhere"; "internet"; "everywhere";
    "global"; "online"; "anywhere"; "planet earth"; "the internet"; "github";
    "home";
    "distributed"; "international"; "europe"; "eu"; "european union"; "emea";
    "apac" ]).

Definition _BAD_LOCATIONS (sc : script) : gset str :=
  match sc with
  | lisp_py => _BAD_LOCATIONS_lisp
  | geocode_postprocess_py => _BAD_LOCATIONS_postprocess
  end.

Definition _LOCATION_MAP_items : list (str * str) := Eval vm_compute in
  prod_map py py <$> [
    ("sf", "San Francisco, CA, USA");
    ("bay area", "San Francisco Bay Area, CA, USA");
    ("ny", "New York, NY, USA");
    ("nyc", "New York, NY, USA");
    ("la", "Los Angeles, CA, USA");
    ("uk", "United Kingdom");
    ("u.k.", "United Kingdom");
    ("england", "England, United Kingdom");
    ("scotland", "Scotland, United Kingdom");
    ("wales", "Wales, United Kingdom");
    ("paris", "Paris, France");
    ("idf", "Île-de-France, France");
    ("paca", "Provence-Alpes-Côte d'Azur, France");
    ("75", "Paris, France");
    ("lyon", "Lyon, France");
    ("marseille", "Marseille, France");
    ("toulouse", "Toulouse, France");
    ("nantes", "Nantes, France");
    ("bordeaux", "Bordeaux, France");
    ("de", "Germany");
    ("germany", "Germany");
    ("berlin", "Berlin, Germany");
    ("munich", "Munich, Germany");
    ("hamburg", "Hamburg, Germany");
    ("es", "Spain");
    ("spain", "Spain");
    ("madrid", "Madrid, Spain");
    ("barcelona", "Barcelona, Spain");
    ("valencia", "Valencia, Spain");
    ("it", "Italy");
    ("italy", "Italy");
    ("rome", "Rome, Italy");
    ("milano", "Milan, Italy");
    ("milan", "Milan, Italy");
    ("napoli", "Naples, Italy");
    ("nl", "Netherlands");
    ("netherlands", "Netherlands");
    ("holland", "Netherlands");
    ("amsterdam", "Amsterdam, Netherlands");
    ("rotterdam", "Rotterdam, Netherlands");
    ("be", "Belgium");
    ("belgium", "Belgium");
    ("brussels", "Brussels, Belgium");
    ("bxl", "Brussels, Belgium");
    ("pt", "Portugal");
    ("portugal", "Portugal");
    ("lisbon", "Lisbon, Portugal");
    ("porto", "Porto, Portugal");
    ("ie", "Ireland");
    ("ireland", "Ireland");
    ("dublin", "Dublin, Ireland");
    ("at", "Austria");
    ("austria", "Austria");
    ("vienna", "Vienna, Austria");
    ("pl", "Poland");
    ("poland", "Poland");
    ("warsaw", "Warsaw, Poland");
    ("krakow", "Krakow, Poland");
    ("cz", "Czech Republic");
    ("czech", "Czech Republic");
    ("prague", "Prague, Czech Republic");
    ("hu", "Hungary");
    ("hungary", "Hungary");
    ("budapest", "Budapest, Hungary");
    ("ro", "Romania");
    ("romania", "Romania");
    ("bucharest", "Bucharest, Romania");
    ("bg", "Bulgaria");
    ("bulgaria", "Bulgaria");
    ("sofia", "Sofia, Bulgaria");
    ("gr", "Greece");
    ("greece", "Greece");
    ("athens", "Athens, Greece");
    ("se", "Sweden");
    ("sweden", "Sweden");
    ("stockholm", "Stockholm, Sweden");
    ("dk", "Denmark");
    ("denmark", "Denmark");
    ("copenhagen", "Copenhagen, Denmark");
    ("fi", "Finland");
    ("finland", "Finland");
    ("helsinki", "Helsinki, Finland");
    ("hr", "Croatia");
    ("croatia", "Croatia");
    ("zagreb", "Zagreb, Croatia");
    ("si", "Slovenia");
    ("slovenia", "Slovenia");
    ("ljubljana", "Ljubljana, Slovenia");
    ("sk", "Slovakia");
    ("slovakia", "Slovakia");
    ("bratislava", "Bratislava, Slovakia");
    ("lt", "Lithuania");
    ("vilnius", "Vilnius, Lithuania");
    ("lv", "Latvia");
    ("riga", "Riga, Latvia");
    ("ee", "Estonia");
    ("tallinn", "Tallinn, Estonia");
    ("cy", "Cyprus");
    ("cyprus", "Cyprus");
    ("mt", "Malta");
    ("malta", "Malta") ].

Definition _LOCATION_MAP : gmap str str := list_to_map _LOCATION_MAP_items.

(** [\s+] and [\s*] *)
Definition ws_plus : re := Plus CSpace.
Definition ws_star : re := Star CSpace.

Definition seq (rs : list re) : re := foldr Seq Eps rs.

(** [\b(european\s+union|eu)\b] *)
Definition re_eu : pattern := Eval vm_compute in
  Pattern (seq [WordB;
      Alt (seq [text "european"; ws_plus; text "union"]) (text "eu");
      WordB]) true.

(** [\b(remote\s*only|fully\s*remote|remote)\b] *)
Definition re_remote : pattern := Eval vm_compute in
  Pattern (seq [WordB;
      Alt (seq [text "remote"; ws_star; text "only"])
     (Alt (seq [text "fully"; ws_star; text "remote"])
          (text "remote"));
      WordB]) true.

(** the zero-width characters U+200B, U+200C, U+200D and U+FEFF *)
Definition re_zero_width : pattern := Eval vm_compute in
  Pattern (OneOf (CSet [0x200B; 0x200C; 0x200D; 0xFEFF]%N)) true.

Definition _CLEAN_REPLACEMENTS : list (pattern * str) :=
  [ (re_eu, py ""); (re_remote, py "remote"); (re_zero_width, py "") ].

(** [,\s*(european union|eu)\s*$] *)
Definition re_eu_suffix : pattern := Eval vm_compute in
  Pattern (seq [text ","; ws_star;
                Alt (text "european union") (text "eu"); ws_star; Eos]) true.

Section normalizer.
Context {U : Unicode} {R : Runtime}.

Definition normalize_location_text (raw : pyval) : str * str :=
  match raw with
  | VNone => (py "", py "EMPTY")
  | _ =>
    let s := py_strip (py_str raw) in
    if negb (nonempty s) then (py "", py "EMPTY") else
    let s_low := py_strip (py_lower s) in
    if bool_decide (s_low ∈ _BAD_LOCATIONS geocode_postprocess_py)
    then (s_low, py "SKIP") else
    let s := foldl (λ s '(pattern, repl), re_sub pattern repl s)
                   s _CLEAN_REPLACEMENTS in
    let s := py_strip (py_strip_chars (py " ,;|-")
               (re_sub (Pattern ws_plus false) (py " ") s)) in
    let s_low := py_lower s in
    if negb (nonempty s) then (py "", py "EMPTY") else
    if bool_decide (s_low ∈ _BAD_LOCATIONS geocode_postprocess_py)
    then (s_low, py "SKIP") else
    match _LOCATION_MAP !! s_low with
    | Some v => (v, py "MAPPED")
    | None => (py_strip (re_sub re_eu_suffix (py "") s), py "CLEANED")
    end
  end.
End normalizer.

(** ** The geocode providers and their dispatch ([lisp.py] and
    [geocode_postprocess.py]) *)

(** [GEO_PROVIDER] and [GOOGLE_MAPS_API_KEY] as the module holds them. *)
Record config := Config {
  GEO_PROVIDER : str;
  GOOGLE_MAPS_API_KEY : str;
}.

(** [(os.getenv("GEO_PROVIDER") or "").strip().lower()] and
    [(os.getenv("GOOGLE_MAPS_API_KEY") or "").strip()] *)
Definition load_config `{Unicode} (env_provider env_key : option str) : config :=
  Config (py_lower (py_strip (default [] env_provider)))
         (py_strip (default [] env_key)).

Definition _geo_empty (provider : str) : pyval :=
  VDict [ (py "owner_location_norm", VStr (py ""));
          (py "owner_city", VStr (py ""));
          (py "owner_region", VStr (py ""));
          (py "owner_country", VStr (py ""));
          (py "owner_country_code", VStr (py ""));
          (py "owner_lat", VStr (py ""));
          (py "owner_lon", VStr (py ""));
          (py "owner_geocode_provider", VStr provider);
          (py "owner_geocode_status", VStr (py "EMPTY")) ].

Definition set_status (status : str) (d : pyval) : pyval :=
  dict_set "owner_geocode_status" (VStr status) d.

Definition status_of (d : pyval) : option pyval :=
  dict_get "owner_geocode_status" d.

Definition _geo_no_match (provider : str) : pyval :=
  set_status (py "NO_MATCH") (_geo_empty provider).

Definition geo_record (provider : str)
    (norm city region country country_code lat lon : pyval) : pyval :=
  VDict [ (py "owner_location_norm", norm);
          (py "owner_city", city);
          (py "owner_region", region);
          (py "owner_country", country);
          (py "owner_country_code", country_code);
          (py "owner_lat", lat);
          (py "owner_lon", lon);
          (py "owner_geocode_provider", VStr provider);
          (py "owner_geocode_status", VStr (py "OK")) ].

(** [f"{provider}:{key}"] *)
Definition cache_key_of (provider key : str) : str := provider ++ py ":" ++ key.

Definition google_url : str :=
  py "https://maps.googleapis.com/maps/api/geocode/json".

Section providers.
Context {U : Unicode} {R : Runtime}.
Variable sc : script.
Variable cfg : config.
Variable out_world : outside.

(** Status of the guard [if not raw or key in _BAD_LOCATIONS]. *)
Definition guard_status (raw : str) : str :=
  match sc with
  | lisp_py => py "SKIPPED"
  | geocode_postprocess_py => if nonempty raw then py "SKIPPED" else py "EMPTY"
  end.

(** [comp_map.setdefault(ty, c)] over all components and their types.  The
    map is only ever read at [str] keys, so other hashable keys are not
    recorded; an unhashable one raises. *)
Definition comp_setdefault (c : pyval) (m : result (gmap str pyval))
    (ty : pyval) : result (gmap str pyval) :=
  m ← m;
  match ty with
  | VStr t => Ok (match m !! t with Some _ => m | None => <[t := c]> m end)
  | VList _ | VDict _ => Raise TypeError
  | _ => Ok m
  end.

Definition comp_add (m : result (gmap str pyval)) (c : pyval)
    : result (gmap str pyval) :=
  m ← m;
  t ← get_method "types" c;
  tys ← iterate (py_or t (VList []));
  foldl (comp_setdefault c) (Ok m) tys.

Definition comp_field (field : string) (comp_map : gmap str pyval)
    (ty : string) : result pyval :=
  v ← get_method field (py_or (default VNone (comp_map !! py ty)) (VDict []));
  Ok (py_or v (VStr (py ""))).

(** The body of the [try] in [geocode_google]: the value of [out] that is
    cached and returned, or the exception raised. *)
Definition google_try (provider : str) (out : pyval) (r : result response)
    : result pyval :=
  r ← r;
  data ← (if nonempty (content r) then json r else Ok (VDict []));
  st ← get_method "status" data;
  status ← upper_method (py_or st (VStr (py "")));
  if bool_decide (status ≠ py "OK") then
    Ok (dict_set "owner_geocode_status"
          (py_or (VStr status) (VStr (py "ERROR"))) out)
  else
    rs ← get_method "results" data;
    let results := py_or rs (VList []) in
    if negb (truthy results) then Ok out else
    top ← index0 results;
    fa ← get_method "formatted_address" top;
    let formatted := py_or fa (VStr (py "")) in
    g ← get_method "geometry" top;
    l ← get_method "location" (py_or g (VDict []));
    let geom := py_or l (VDict []) in
    lat ← get_method "lat" geom;
    lon ← get_method "lng" geom;
    ac ← get_method "address_components" top;
    comps ← iterate (py_or ac (VList []));
    comp_map ← foldl comp_add (Ok ∅) comps;
    let _long := comp_field "long_name" comp_map in
    let _short := comp_field "short_name" comp_map in
    c1 ← _long "locality";
    city ← (if truthy c1 then Ok c1 else
            c2 ← _long "postal_town";
            if truthy c2 then Ok c2 else
            _long "administrative_area_level_3");
    region ← _long "administrative_area_level_1";
    country ← _long "country";
    country_code ← _short "country";
    Ok (geo_record provider formatted city region country country_code
          (match lat with VNone => VStr (py "") | _ => VStr (py_str lat) end)
          (match lon with VNone => VStr (py "") | _ => VStr (py_str lon) end)).

Definition geocode_google (raw : option str) (w : world)
    : result pyval * world :=
  let provider := py "google" in
  let raw := py_strip (default [] raw) in
  let key := py_lower raw in
  if negb (nonempty raw) || bool_decide (key ∈ _BAD_LOCATIONS sc) then
    (Ok (set_status (guard_status raw) (_geo_empty provider)), w)
  else if negb (nonempty (GOOGLE_MAPS_API_KEY cfg)) then
    (Ok (set_status (py "NO_API_KEY") (_geo_empty provider)), w)
  else
    let cache_key := cache_key_of provider key in
    match _GEO_CACHE w !! cache_key with
    | Some cached => (Ok cached, w)
    | None =>
      let params := [(py "address", raw); (py "key", GOOGLE_MAPS_API_KEY cfg)] in
      let out := _geo_no_match provider in
      let r := requests_get out_world (trace w) google_url params in
      let w := emit (RequestsGet google_url params) w in
      match google_try provider out r with
      | Ok out => (Ok out, cache_store cache_key out w)
      | Raise _ =>
        let out := set_status (py "ERROR") out in
        (Ok out, cache_store cache_key out w)
      end
    end.

(** [a.get(k1) or a.get(k2) or ... or last] *)
Fixpoint first_truthy (addr : pyval) (keys : list string) (last : pyval)
    : result pyval :=
  match keys with
  | [] => Ok last
  | k :: keys' =>
    v ← get_method k addr;
    if truthy v then Ok v else first_truthy addr keys' last
  end.

(** [isinstance(e, geopy.exc.GeocoderServiceError)] *)
Definition is_GeocoderServiceError (e : exn) : bool :=
  match e with
  | GeocoderInsufficientPrivileges | GeocoderServiceError => true
  | _ => false
  end.

(** One call of [RateLimiter(func, max_retries=n, ...)] of
    [geopy.extra.rate_limiter], built as both scripts build it: with
    [swallow_exceptions] and [return_value_on_exception] left at their
    defaults, [True] and [None].  [func] is tried up to [n + 1] times: a
    GeocoderServiceError is retried and, at the last attempt, swallowed, the
    call returning [None]; any other exception is passed on.  [func i] is the
    outcome of attempt [i].  The waiting between the attempts is the
    library's own and leaves no event. *)
Fixpoint RateLimiter {A} (func : nat → result (option A))
    (max_retries attempt : nat) : result (option A) :=
  match func attempt with
  | Ok res => Ok res
  | Raise e =>
    if is_GeocoderServiceError e then
      match max_retries with
      | 0 => Ok None
      | S n => RateLimiter func n (S attempt)
      end
    else Raise e
  end.

(** What follows a located answer in the [try] of [geocode_nominatim]. *)
Definition nominatim_record (provider : str) (loc : location) : result pyval :=
  a ← get_method "address" (py_or (loc_raw loc) (VDict []));
  let addr := py_or a (VDict []) in
  city ← first_truthy addr ["city"; "town"; "village"] (VStr (py ""));
  region ← first_truthy addr ["state"; "region"] (VStr (py ""));
  country ← first_truthy addr ["country"] (VStr (py ""));
  cc ← get_method "country_code" addr;
  country_code ← upper_method (py_or cc (VStr (py "")));
  Ok (geo_record provider (py_or (loc_address loc) (VStr (py "")))
        city region country (VStr country_code)
        (VStr (py_str (loc_latitude loc)))
        (VStr (py_str (loc_longitude loc)))).

(** The name under which each script presents itself to Nominatim. *)
Definition user_agent : str :=
  match sc with
  | lisp_py =>
    py "diane-rocher-github-sourcer/1.0 (contact: dianemichaela88@gmail.com)"
  | geocode_postprocess_py => py "github-postprocess-geocoder/1.0"
  end.

Definition geocode_nominatim (raw : option str) (w : world)
    : result pyval * world :=
  let provider := py "nominatim" in
  let raw := py_strip (default [] raw) in
  let key := py_lower raw in
  if negb (nonempty raw) || bool_decide (key ∈ _BAD_LOCATIONS sc) then
    (Ok (set_status (guard_status raw) (_geo_empty provider)), w)
  else
    let cache_key := cache_key_of provider key in
    match _GEO_CACHE w !! cache_key with
    | Some cached => (Ok cached, w)
    | None =>
      let out := _geo_no_match provider in
      match geopy_import out_world (trace w) with
      | Raise _ =>
        let out := set_status (py "ERROR") out in
        (Ok out, cache_store cache_key out w)
      | Ok _ =>
        let geolocator := nominatim_geocode out_world user_agent in
        let geocode := RateLimiter (λ i, geolocator (trace w) i raw) 2 in
        let answer := geocode 0 in
        let w := emit (NominatimGeocode raw) w in
        match answer with
        | Raise GeocoderInsufficientPrivileges =>
          let out := set_status (py "OSM_403_BLOCKED") out in
          (Ok out, cache_store cache_key out w)
        | Raise _ =>
          let out := set_status (py "ERROR") out in
          (Ok out, cache_store cache_key out w)
        | Ok None => (Ok out, cache_store cache_key out w)
        | Ok (Some loc) =>
          match nominatim_record provider loc with
          | Ok out => (Ok out, cache_store cache_key out w)
          | Raise _ =>
            let out := set_status (py "ERROR") out in
            (Ok out, cache_store cache_key out w)
          end
        end
      end
    end.

(** [GEO_PROVIDER or ("google" if GOOGLE_MAPS_API_KEY else "nominatim")] *)
Definition selected_provider : str :=
  if nonempty (GEO_PROVIDER cfg) then GEO_PROVIDER cfg
  else if nonempty (GOOGLE_MAPS_API_KEY cfg) then py "google"
  else py "nominatim".

(** Every call is recorded in the trace before it is dispatched. *)
Definition geocode_and_normalize (raw : option str) (w : world)
    : result pyval * world :=
  let w := emit (GeocodeCall raw) w in
  let provider := selected_provider in
  if bool_decide (provider = py "google") then geocode_google raw w
  else if bool_decide (provider = py "nominatim") then geocode_nominatim raw w
  else (Ok (set_status (py "UNKNOWN_PROVIDER") (_geo_empty provider)), w).
End providers.

(** ** [geocode_postprocess.py]: the enrichment pipeline *)

Definition geo_cols : list str := Eval vm_compute in
  strs [ "owner_location_norm"; "owner_city"; "owner_region"; "owner_country";
         "owner_country_code"; "owner_lat"; "owner_lon";
         "owner_geocode_provider"; "owner_geocode_status" ].

(** Order of [str] values: lexicographic on code points. *)
Fixpoint str_compare (a b : str) : comparison :=
  match a, b with
  | [], [] => Eq
  | [], _ :: _ => Lt
  | _ :: _, [] => Gt
  | x :: a', y :: b' =>
    match (x ?= y)%N with
    | Eq => str_compare a' b'
    | c => c
    end
  end.

Fixpoint insert_uniq (x : str) (l : list str) : list str :=
  match l with
  | [] => [x]
  | y :: l' =>
    match str_compare x y with
    | Lt => x :: l
    | Eq => l
    | Gt => y :: insert_uniq x l'
    end
  end.

(** [sorted(set(l))] *)
Definition sorted_set (l : list str) : list str := foldr insert_uniq [] l.

(** One output row: the cleaned text, the hint, and the nine geocode
    columns in the order of [geo_cols]. *)
Record row := Row {
  owner_location_clean : str;
  owner_location_clean_hint : str;
  geo_values : list pyval;
}.

Section pipeline.
Context {U : Unicode} {R : Runtime}.
Variable cfg : config.
Variable out_world : outside.

Definition load_geo_cache (w : world) : world :=
  match cache_on_disk w with
  | NoFile => w
  | Unreadable | NotADict => World ∅ (cache_on_disk w) (trace w)
  | CacheDict m => World m (cache_on_disk w) (trace w)
  end.

(** A failed write is swallowed. *)
Definition save_geo_cache (w : world) : world :=
  match write_text out_world (trace w) with
  | Ok _ => World (_GEO_CACHE w) (CacheDict (_GEO_CACHE w))
                  (CacheWrite true :: trace w)
  | Raise _ => emit (CacheWrite false) w
  end.

(** Step 2 of [postprocess_file]: the loop over the unique values. *)
Fixpoint geocode_uniques (uniques : list str) (geo_map : gmap str pyval)
    (n : nat) (w : world) : result (gmap str pyval) * world :=
  match uniques with
  | [] => (Ok geo_map, w)
  | loc :: rest =>
    if bool_decide (py_strip (py_lower loc)
                    ∈ _BAD_LOCATIONS geocode_postprocess_py) then
      geocode_uniques rest
        (<[loc := set_status (py "SKIPPED")
                    (_geo_empty (selected_provider cfg))]> geo_map) n w
    else
      match geocode_and_normalize geocode_postprocess_py cfg out_world
              (Some loc) w with
      | (Raise e, w) => (Raise e, w)
      | (Ok geo, w) =>
        let n := S n in
        let w := if (n mod 50 =? 0)%nat
                 then emit (Sleep Pause) (save_geo_cache w) else w in
        geocode_uniques rest (<[loc := geo]> geo_map) n w
      end
  end.

(** Step 3: the geocode columns of one row. *)
Definition broadcast (geo_map : gmap str pyval) (clean : str)
    : result (list pyval) :=
  let loc := py_strip clean in
  let geo := if nonempty loc then default VNone (geo_map !! loc) else VNone in
  let geo := if truthy geo then geo else _geo_empty (selected_provider cfg) in
  mapM (λ c, get_method_default c (VStr (py "")) geo) geo_cols.

(** The distinct non-empty cleaned values, in processing order. *)
Definition uniques_of (cleans : list str) : list str :=
  sorted_set (filter (λ c, nonempty (py_strip c) = true) cleans).

(** [postprocess_file]: [input] is what [read_any(...).fillna("")] gives,
    reduced to the cells of [location_col] ([None] when the column is
    absent). *)
Definition postprocess_file (input : result (option (list pyval)))
    (w : world) : result (list row) * world :=
  let w := load_geo_cache w in
  match input with
  | Raise e => (Raise e, w)
  | Ok None => (Raise ValueError, w)
  | Ok (Some cells) =>
    let normalized := normalize_location_text <$> cells in
    let cleans := fst <$> normalized in
    match geocode_uniques (uniques_of cleans) ∅ 0 w with
    | (Raise e, w) => (Raise e, w)
    | (Ok geo_map, w) =>
      match mapM (λ ch : str * str,
               geo ← broadcast geo_map ch.1; Ok (Row ch.1 ch.2 geo))
             normalized with
      | Raise e => (Raise e, w)
      | Ok rows =>
        match write_any out_world (trace w) with
        | Raise e => (Raise e, emit TableWrite w)
        | Ok _ => (Ok rows, save_geo_cache (emit TableWrite w))
        end
      end
    end
  end.
End pipeline.

(** ** The resilient GET of [lisp.py] and of
    [huggingface_retrieval_sourcer_excel.py] *)

Module Fetch.

(** How one pass through the [try] body ends. *)
Inductive step :=
  | Returned (resp : response)
  | Continued (w : world)
  | Raised (e : exn) (w : world).

(** [resp.raise_for_status()] *)
Definition raise_for_status (resp : response) : result unit :=
  if ((400 <=? status_code resp) && (status_code resp <? 600))%Z
  then Raise (HTTPError (status_code resp)) else Ok ().

(** the clause [except (ReadTimeout, ConnectionError, HTTPError)] *)
Definition caught (e : exn) : bool :=
  match e with
  | ReadTimeout | ConnectionError | HTTPError _ => true
  | _ => false
  end.

Definition max_attempts : nat := 6.

Definition finish (resp : response) (w : world) : step :=
  match raise_for_status resp with
  | Raise e => Raised e w
  | Ok _ => Returned resp
  end.

Section loop.
Variable out_world : outside.

(** The [for attempt in range(1, max_attempts + 1)] loop around a [try]
    body, with the shared [except] clause and the final [raise]. *)
Fixpoint get_loop (try_body : nat → result response → world → step)
    (remaining : nat) (attempt : nat) (last_exc : option exn) (url : str)
    (w : world) : result response * world :=
  match remaining with
  | 0 => (Raise (RuntimeError_GetFailed last_exc), w)
  | S remaining' =>
    let r := session_get out_world (trace w) url in
    let w := emit (SessionGet url) w in
    match try_body attempt r w with
    | Returned resp => (Ok resp, w)
    | Continued w => get_loop try_body remaining' (S attempt) last_exc url w
    | Raised e w =>
      if caught e then
        get_loop try_body remaining' (S attempt) (Some e) url
                 (emit (Sleep (Backoff attempt)) w)
      else (Raise e, w)
    end
  end.
End loop.

(** Number of requests a run sent. *)
Definition requests_sent (w : world) : nat :=
  length (filter (λ e, match e with SessionGet _ => true | _ => false end = true)
                 (trace w)).

End Fetch.

(** [lisp.py] *)
Module Lisp.
Import Fetch.
Section get.
Context {U : Unicode} {R : Runtime}.
Variable out_world : outside.

(** [resp.headers.get(name)] *)
Definition header (name : string) (resp : response) : option str :=
  headers resp !! py_lower (py name).

(** The [try] body of attempt [attempt]. *)
Definition try_body (attempt : nat) (r : result response) (w : world) : step :=
  match r with
  | Raise e => Raised e w
  | Ok resp =>
    let code := status_code resp in
    match (if (code =? 401)%Z then raise_for_status resp else Ok ()) with
    | Raise e => Raised e w
    | Ok _ =>
      let reset := header "X-RateLimit-Reset" resp in
      let remaining := header "X-RateLimit-Remaining" resp in
      if ((code =? 403) || (code =? 429))%Z
         && nonempty (default [] reset)
         && bool_decide (remaining = Some (py "0") ∨ remaining = None)
      then
        match int_of_str (default [] reset) with
        | None => Raised ValueError w
        | Some t =>
          let wait := (Z.max 0 (t - time_time out_world (trace w)) + 2)%Z in
          Continued (emit (Sleep (RateLimitWait wait)) w)
        end
      else if ((code =? 502) || (code =? 503) || (code =? 504))%Z then
        Continued (emit (Sleep (Backoff attempt)) w)
      else finish resp w
    end
  end.

Definition get (url : str) (w : world) : result response * world :=
  get_loop out_world try_body max_attempts 1 None url w.
End get.
End Lisp.

(** [huggingface_retrieval_sourcer_excel.py] *)
Module HF.
Import Fetch.
Section get.
Variable out_world : outside.

(** The [try] body of attempt [attempt]. *)
Definition try_body (attempt : nat) (r : result response) (w : world) : step :=
  match r with
  | Raise e => Raised e w
  | Ok resp =>
    let code := status_code resp in
    if (code =? 401)%Z then Raised RuntimeError_Unauthorized w
    else
      match (if (code =? 404)%Z then raise_for_status resp else Ok ()) with
      | Raise e => Raised e w
      | Ok _ =>
        if ((code =? 429) || (code =? 502) || (code =? 503)
            || (code =? 504))%Z then
          Continued (emit (Sleep (Backoff attempt)) w)
        else finish resp w
      end
  end.

Definition get (url : str) (w : world) : result response * world :=
  get_loop out_world try_body max_attempts 1 None url w.
End get.
End HF.

(** ** The in-memory caches of the owner and author lookups *)

(** [urllib.parse], taken as given: [quote_plus], which raises on a string
    that UTF-8 cannot encode, and the [netloc] of [urlparse], which raises
    on a malformed host. *)
Class Urllib := {
  quote_plus : str → result str;
  urlparse_netloc : str → result str;
}.

Definition GITHUB_API : str := py "https://api.github.com".
Definition HF_BASE : str := py "https://huggingface.co".

(** [lisp.py]: [fetch_owner], with the module-level [_OWNER_CACHE] passed
    in and out. *)
Section owners.
Context {U : Unicode} {R : Runtime}.
Variable out_world : outside.

Definition fetch_owner (login : str) (_OWNER_CACHE : gmap str pyval)
    (w : world) : result pyval * gmap str pyval * world :=
  if negb (nonempty login) then (Ok (VDict []), _OWNER_CACHE, w) else
  match _OWNER_CACHE !! login with
  | Some cached => (Ok cached, _OWNER_CACHE, w)
  | None =>
    match Lisp.get out_world (GITHUB_API ++ py "/users/" ++ login) w with
    | (Raise e, w) => (Raise e, _OWNER_CACHE, w)
    | (Ok resp, w) =>
      match json resp with
      | Raise e => (Raise e, _OWNER_CACHE, w)
      | Ok data =>
        let data := py_or data (VDict []) in
        (Ok data, <[login := data]> _OWNER_CACHE, w)
      end
    end
  end.
End owners.

(** [huggingface_retrieval_sourcer_excel.py]: the two module-level caches
    of the author lookup. *)
Record authors := Authors {
  _AUTHOR_CACHE : gmap str pyval;
  _AUTHOR_TYPE_CACHE : gmap str str;
}.

Section authors.
Context {L : Urllib}.
Variable out_world : outside.

(** The [try] body of [_fetch_no_retry]. *)
Definition _fetch_no_retry_try (url : str) (w : world) : result pyval * world :=
  let r := session_get out_world (trace w) url in
  let w := emit (SessionGet url) w in
  match r with
  | Raise e => (Raise e, w)
  | Ok r =>
    let code := status_code r in
    if (code =? 404)%Z then (Ok (VDict []), w)
    else if (code =? 401)%Z then (Raise RuntimeError_Unauthorized, w)
    else if ((code =? 429) || (code =? 502) || (code =? 503)
             || (code =? 504))%Z then
      match HF.get out_world url w with
      | (Raise e, w) => (Raise e, w)
      | (Ok resp, w) => (data ← json resp; Ok (py_or data (VDict [])), w)
      end
    else
      (_ ← Fetch.raise_for_status r;
       data ← json r;
       Ok (py_or data (VDict [])), w)
  end.

(** [_fetch_no_retry]: [except Exception: return {}] *)
Definition _fetch_no_retry (url : str) (w : world) : pyval * world :=
  match _fetch_no_retry_try url w with
  | (Ok data, w) => (data, w)
  | (Raise _, w) => (VDict [], w)
  end.

Definition hf_fetch_author (namespace : str) (a : authors) (w : world)
    : result pyval * authors * world :=
  if negb (nonempty namespace) then (Ok (VDict []), a, w) else
  match _AUTHOR_CACHE a !! namespace with
  | Some cached => (Ok cached, a, w)
  | None =>
    match quote_plus namespace with
    | Raise e => (Raise e, a, w)
    | Ok q =>
      let user_url := HF_BASE ++ py "/api/users/" ++ q in
      let org_url := HF_BASE ++ py "/api/organizations/" ++ q in
      let '(data, w) := _fetch_no_retry user_url w in
      let '(data, types, w) :=
        if truthy data
        then (data, <[namespace := py "user"]> (_AUTHOR_TYPE_CACHE a), w)
        else
          let '(data, w) := _fetch_no_retry org_url w in
          (data,
           <[namespace := if truthy data then py "org" else py "unknown"]>
             (_AUTHOR_TYPE_CACHE a),
           w) in
      let data := py_or data (VDict []) in
      (Ok data, Authors (<[namespace := data]> (_AUTHOR_CACHE a)) types, w)
    end
  end.

Definition is_org (namespace : str) (a : authors) (w : world)
    : result bool * authors * world :=
  match hf_fetch_author namespace a w with
  | (Raise e, a, w) => (Raise e, a, w)
  | (Ok _, a, w) =>
    (Ok (bool_decide (default (py "unknown") (_AUTHOR_TYPE_CACHE a !! namespace)
                      = py "org")), a, w)
  end.
End authors.

(** ** The link helpers of [lisp.py] and
    [huggingface_retrieval_sourcer_excel.py] *)

(** [s.startswith(prefix)] *)
Definition startswith (prefix s : str) : bool :=
  bool_decide (prefix `prefix_of` s).

(** [hay.find(needle)], with [None] for -1; [needle in hay] is [is_Some]
    of it. *)
Fixpoint str_find (needle hay : str) : option nat :=
  if startswith needle hay then Some 0 else
  match hay with
  | [] => None
  | _ :: hay' => S <$> str_find needle hay'
  end.

(** [s.rstrip(chars)] *)
Definition py_rstrip_chars (chars s : str) : str :=
  rstrip_by (λ c, bool_decide (c ∈ chars)) s.

(** The punctuation stripped from the end of a link: full stop, comma,
    closing round, square, curly and angle bracket, semicolon, and the
    double and single quote. *)
Definition url_trailing : str := py ".,);]}>" ++ [0x22; 0x27]%N.

(** [s.split()[0]] *)
Fixpoint take_visible (s : str) : str :=
  match s with
  | [] => []
  | c :: s' => if isspace c then [] else c :: take_visible s'
  end.

Definition first_word (s : str) : result str :=
  match lstrip_by isspace s with
  | [] => Raise IndexError
  | t => Ok (take_visible t)
  end.




(** [https?://], and the class [[^\s)]] *)
Definition url_head : re := Eval vm_compute in
  seq [text "http"; Alt (text "s") Eps; text "://"].

Definition url_char (c : N) : bool := negb (isspace c || (c =? 0x29)%N).

Section links.
Context {U : Unicode} {L : Urllib}.

Definition normalize_url (url : str) : str :=
  if negb (nonempty url) then py "" else
  let url := py_strip url in
  if negb (nonempty url) then py "" else
  let url :=
    if negb (startswith (py "http://") (py_lower url)
             || startswith (py "https://") (py_lower url))
    then py "https://" ++ url else url in
  match urlparse_netloc url with
  | Ok netloc => if nonempty netloc then url else py ""
  | Raise _ => py ""
  end.

(** A match of [(https?://[^\s)]+)] with [re.IGNORECASE] at the start of
    [s]: what is left of [s] after it. *)
Definition match_url (prev : option N) (s : str) : option str :=
  matches true url_head prev s (λ prev' s',
    match s' with
    | c :: s'' =>
      if url_char c then star url_char (Some c) s'' (λ _ rest, Some rest)
      else None
    | [] => None
    end).

(** [re.findall]: the matches from left to right, each search starting
    where the last match ended; [skip] counts the characters of the
    current match still to be passed. *)
Fixpoint findall_url (prev : option N) (s : str) (skip : nat) : list str :=
  match s with
  | [] => []
  | c :: s' =>
    match skip with
    | S n => findall_url (Some c) s' n
    | 0 =>
      match match_url prev s with
      | Some rest =>
        let n := length s - length rest in
        take n s :: findall_url (Some c) s' (n - 1)
      | None => findall_url (Some c) s' 0
      end
    end
  end.

Definition urls_from_text (text : str) : list str :=
  if negb (nonempty text) then [] else
  foldl (λ out u,
           let nu := normalize_url (py_rstrip_chars url_trailing u) in
           if nonempty nu && negb (bool_decide (nu ∈ out))
           then out ++ [nu] else out)
        [] (findall_url None text 0).

Fixpoint extract_first_linkedin (fields : list str) : result str :=
  match fields with
  | [] => Ok (py "")
  | field :: rest =>
    if negb (nonempty field) then extract_first_linkedin rest else
    match head (filter (λ u, is_Some (str_find (py "linkedin.com") (py_lower u)))
                       (urls_from_text field)) with
    | Some u => Ok u
    | None =>
      let s := py_strip field in
      match str_find (py "linkedin.com") (py_lower s) with
      | Some idx =>
        candidate ← first_word (drop idx s);
        Ok (normalize_url
              (py_rstrip_chars url_trailing (py_strip candidate)))
      | None => extract_first_linkedin rest
      end
    end
  end.


End links.

(** * Vocabulary of the properties *)

(** ** Sample instances, used to run the model on concrete inputs *)
Definition sample_unicode : Unicode :=
  {| uni_lower := λ _ c _, [c]; uni_upper := λ c, [c]; uni_isalnum := λ _, false |}.

Definition sample_runtime : Runtime :=
  {| str_float := λ _, py "0.0"; str_container := λ _, py "[]";
     int_of_str := λ _, None |}.

(** A world in which every request gets the same answer: [answer] over HTTP,
    [geo] from every attempt of the Nominatim geocoder. *)
Definition constant_outside (answer : result response)
    (geo : result (option location)) : outside :=
  {| requests_get := λ _ _ _, answer;
     geopy_import := λ _, Ok ();
     nominatim_geocode := λ _ _ _ _, geo;
     session_get := λ _ _, answer;
     time_time := λ _, 0%Z;
     write_text := λ _, Ok ();
     write_any := λ _, Ok () |}.

(** No network: [requests] raises its ConnectionError, geopy its
    GeocoderUnavailable, a GeocoderServiceError. *)
Definition offline : outside :=
  constant_outside (Raise ConnectionError) (Raise GeocoderServiceError).

Definition status_response (code : Z) : response :=
  Response code ∅ [] (Raise ValueError).

Definition fresh_world : world := World ∅ NoFile [].

(** Nominatim refuses every request with HTTP 403, for which geopy raises
    GeocoderInsufficientPrivileges. *)
Definition blocked_outside : outside :=
  constant_outside (Raise ConnectionError) (Raise GeocoderInsufficientPrivileges).

(** A server that answers every request with the same status code. *)
Definition always (code : Z) : outside :=
  constant_outside (Ok (status_response code)) (Raise GeocoderServiceError).

Definition api_url : str := py "https://api.github.com/users/octocat".

Definition sample_cached : pyval :=
  geo_record (py "google") (VStr (py "Paris, France")) (VStr (py "Paris"))
    (VStr (py "Île-de-France")) (VStr (py "France")) (VStr (py "FR"))
    (VStr (py "48.8575475")) (VStr (py "2.3513765")).

(** A service that finds nothing: every request is answered
    [{"status": "ZERO_RESULTS"}]. *)
Definition zero_results : outside :=
  constant_outside
    (Ok (Response 200 ∅ [0x7B%N]
           (Ok (VDict [(py "status", VStr (py "ZERO_RESULTS"))]))))
    (Ok None).

(** ** Stages of the normalizer *)

(** What the substitution computes: a run of white space becomes one space. *)
Fixpoint collapse (in_run : bool) (s : str) : str :=
  match s with
  | [] => []
  | c :: s' =>
    if isspace c
    then if in_run then collapse true s' else 32%N :: collapse true s'
    else c :: collapse false s'
  end.

(** Every white-space character is a space followed by something else. *)
Fixpoint spaced (z : str) : Prop :=
  match z with
  | [] => True
  | c :: z' =>
    (isspace c = true → c = 32%N ∧ ∀ d, head z' = Some d → isspace d = false)
    ∧ spaced z'
  end.

Section stages.
Context {U : Unicode}.

(** Steps 3 of the normalizer after the replacement rules: collapse white
  space, strip punctuation, strip. *)
Definition clean_stage (t : str) : str :=
  py_strip (py_strip_chars (py " ,;|-")
              (re_sub (Pattern ws_plus false) (py " ") t)).

(** The part of the normalizer after the alias lookup. *)
Definition drop_eu_suffix (s : str) : str :=
  py_strip (re_sub re_eu_suffix (py "") s).

(** A cleaned text that the normalizer cannot reduce further: its three
    replacement rules, the punctuation strip and the suffix rule leave it
    unchanged, and its lower-cased form is neither a sentinel nor an alias. *)
Definition irreducible (c : str) : Prop :=
  Forall (λ pr : (pattern * str)%type, re_sub (fst pr) (snd pr) c = c) _CLEAN_REPLACEMENTS
  ∧ py_strip_chars (py " ,;|-") c = c
  ∧ (py_lower c ∉ _BAD_LOCATIONS geocode_postprocess_py)
  ∧ _LOCATION_MAP !! py_lower c = None
  ∧ re_sub re_eu_suffix (py "") c = c.
End stages.

Section answers.
Context {U : Unicode} {R : Runtime}.

(** The normalizer from its stripped input on. *)
Definition normalize_stripped (s0 : str) : str * str :=
  if negb (nonempty s0) then (py "", py "EMPTY") else
  let s_low := py_strip (py_lower s0) in
  if bool_decide (s_low ∈ _BAD_LOCATIONS geocode_postprocess_py)
  then (s_low, py "SKIP") else
  let s := clean_stage (foldl (λ s '(pattern, repl), re_sub pattern repl s)
                          s0 _CLEAN_REPLACEMENTS) in
  if negb (nonempty s) then (py "", py "EMPTY") else
  if bool_decide (py_lower s ∈ _BAD_LOCATIONS geocode_postprocess_py)
  then (py_lower s, py "SKIP") else
  match _LOCATION_MAP !! py_lower s with
  | Some v => (v, py "MAPPED")
  | None => (drop_eu_suffix s, py "CLEANED")
  end.

(** The five ways [normalize_location_text] answers. *)
Inductive outcome : str → str → Prop :=
  | out_empty : outcome (py "") (py "EMPTY")
  | out_skip_raw s0 :
      s0 ≠ [] → py_strip s0 = s0 →
      py_strip (py_lower s0) ∈ _BAD_LOCATIONS geocode_postprocess_py →
      outcome (py_strip (py_lower s0)) (py "SKIP")
  | out_skip_clean t :
      clean_stage t ≠ [] →
      py_lower (clean_stage t) ∈ _BAD_LOCATIONS geocode_postprocess_py →
      outcome (py_lower (clean_stage t)) (py "SKIP")
  | out_mapped k v :
      _LOCATION_MAP !! k = Some v → outcome v (py "MAPPED")
  | out_cleaned t :
      clean_stage t ≠ [] →
      outcome (drop_eu_suffix (clean_stage t)) (py "CLEANED").
End answers.

(** ** Effects of a run *)

(** Strict order of [str] values. *)
Definition str_lt (a b : str) : Prop := str_compare a b = Lt.

(** The values [geocode_and_normalize] was called on, newest first. *)
Definition geocode_calls (evs : list event) : list (option str) :=
  omap (λ e, match e with GeocodeCall raw => Some raw | _ => None end) evs.

(** The cache key a request to a geocoding service belongs to. *)
Definition call_key `{Unicode} (e : event) : option str :=
  match e with
  | RequestsGet _ params =>
    (λ raw, cache_key_of (py "google") (py_lower raw)) <$>
    (list_to_map params : gmap str str) !! py "address"
  | NominatimGeocode query =>
    Some (cache_key_of (py "nominatim") (py_lower query))
  | _ => None
  end.

Definition count_provider_calls (evs : list event) : nat :=
  length (filter (λ e, is_provider_call e = true) evs).

Section runs.
Context {U : Unicode}.

(** What a run from [w] to [w'] may have done: [calls] lists, newest
    first, the values it may have geocoded. *)
Definition run_ok (calls : list (option str)) (w w' : world) : Prop :=
  ∃ new, trace w' = new ++ trace w
    ∧ geocode_calls new `sublist_of` calls
    ∧ count_provider_calls new ≤ length (geocode_calls new)
    ∧ (∀ e k, e ∈ new → call_key e = Some k → _GEO_CACHE w !! k = None)
    ∧ (∀ k, _GEO_CACHE w' !! k = None → _GEO_CACHE w !! k = None).

(** One call of a provider: at most one request, for a key the cache
    lacks; the cache only grows. *)
Definition call_ok (w w' : world) : Prop :=
  ∃ evs, trace w' = evs ++ trace w
    ∧ geocode_calls evs = []
    ∧ count_provider_calls evs ≤ 1
    ∧ (∀ e k, e ∈ evs → call_key e = Some k → _GEO_CACHE w !! k = None)
    ∧ (∀ k, _GEO_CACHE w' !! k = None → _GEO_CACHE w !! k = None).
End runs.

(** ** Vocabulary of the further properties *)

Definition dict_keys (d : pyval) : option (list str) :=
  match d with
  | VDict items => Some (fst <$> items)
  | _ => None
  end.

(** A geocode record: the nine columns, with a non-empty string as status. *)
Definition geo_schema (d : pyval) : Prop :=
  dict_keys d = Some geo_cols
  ∧ ∃ s, status_of d = Some (VStr s) ∧ s ≠ [].

Section provider_answers.
Context {U : Unicode}.
Variable sc : script.
Variable cfg : config.

(** The four ways a provider answers the trimmed input [r] in the world
    [w]: from its pre-checks, from the missing API key, from the cache, or
    from the service, in which case the answer is stored. *)
Inductive provider_outcome (provider r : str) (w : world)
    : pyval → world → Prop :=
  | served_by_guard :
      r = [] ∨ py_lower r ∈ _BAD_LOCATIONS sc →
      provider_outcome provider r w
        (set_status (guard_status sc r) (_geo_empty provider)) w
  | served_without_key :
      r ≠ [] → (py_lower r ∉ _BAD_LOCATIONS sc) →
      provider = py "google" → GOOGLE_MAPS_API_KEY cfg = [] →
      provider_outcome provider r w
        (set_status (py "NO_API_KEY") (_geo_empty provider)) w
  | served_from_cache d :
      r ≠ [] → (py_lower r ∉ _BAD_LOCATIONS sc) →
      (provider = py "google" → GOOGLE_MAPS_API_KEY cfg ≠ []) →
      _GEO_CACHE w !! cache_key_of provider (py_lower r) = Some d →
      provider_outcome provider r w d w
  | served_by_service d evs :
      r ≠ [] → (py_lower r ∉ _BAD_LOCATIONS sc) →
      (provider = py "google" → GOOGLE_MAPS_API_KEY cfg ≠ []) →
      _GEO_CACHE w !! cache_key_of provider (py_lower r) = None →
      Forall (λ e, is_provider_call e = true) evs →
      geo_schema d →
      provider_outcome provider r w d
        (World (<[cache_key_of provider (py_lower r) := d]> (_GEO_CACHE w))
               (cache_on_disk w) (evs ++ trace w)).
End provider_answers.

(** The test of the loop of [postprocess_file]:
    [loc.lower().strip() in _BAD_LOCATIONS]. *)
Definition is_sentinel `{Unicode} (loc : str) : bool :=
  bool_decide (py_strip (py_lower loc) ∈ _BAD_LOCATIONS geocode_postprocess_py).

(** The record the loop gives to a sentinel. *)
Definition skipped_record (cfg : config) : pyval :=
  set_status (py "SKIPPED") (_geo_empty (selected_provider cfg)).

(** Number of times the cache file was written, or tried to be. *)
Definition cache_writes (evs : list event) : nat :=
  length (filter (λ e, match e with CacheWrite _ => true | _ => false end = true)
                 evs).

(** The nine values of a row that was not geocoded: seven empty fields, the
    provider's name and the status. *)
Definition blank_values (provider status : str) : list pyval :=
  [ VStr (py ""); VStr (py ""); VStr (py ""); VStr (py ""); VStr (py "");
    VStr (py ""); VStr (py ""); VStr provider; VStr status ].

(** Step 3 of [postprocess_file] for one normalized cell. *)
Definition row_of `{Unicode} (cfg : config) (geo_map : gmap str pyval)
    (ch : str * str) : result row :=
  geo ← broadcast cfg geo_map ch.1; Ok (Row ch.1 ch.2 geo).

(** Requests and sleeps among the events of a run. *)
Definition count_requests (evs : list event) : nat :=
  length (filter (λ e, match e with SessionGet _ => true | _ => false end = true)
                 evs).

Definition count_sleeps (evs : list event) : nat :=
  length (filter (λ e, match e with Sleep _ => true | _ => false end = true)
                 evs).

(** The two caches of the author lookup agree: a namespace has a type if and
    only if it has a profile, the types are "user", "org" and "unknown", and
    "unknown" goes with the empty profile, the other two with a non-empty
    one. *)
Definition authors_consistent (a : authors) : Prop :=
  ∀ ns,
    match _AUTHOR_TYPE_CACHE a !! ns with
    | Some t =>
      ∃ d, _AUTHOR_CACHE a !! ns = Some d
        ∧ ((truthy d = true ∧ (t = py "user" ∨ t = py "org"))
           ∨ (d = VDict [] ∧ t = py "unknown"))
    | None => _AUTHOR_CACHE a !! ns = None
    end.

(** An answer that [_fetch_no_retry] turns into the empty profile without
    a retry: an exception of the request, or status 401 or 404. *)
Definition refused (r : result response) : Prop :=
  match r with
  | Raise _ => True
  | Ok resp => status_code resp = 401%Z ∨ status_code resp = 404%Z
  end.

(** A stand-in for [urllib.parse] on plain ASCII URLs: nothing to quote,
    and the host is what lies between the first "//" and the next "/". *)
Fixpoint after_slashes (s : str) : str :=
  match s with
  | [] => []
  | c :: s' =>
    match s' with
    | d :: s'' =>
      if ((c =? 0x2F) && (d =? 0x2F))%N then s'' else after_slashes s'
    | [] => []
    end
  end.

Fixpoint until_slash (s : str) : str :=
  match s with
  | [] => []
  | c :: s' => if (c =? 0x2F)%N then [] else c :: until_slash s'
  end.

Definition sample_urllib : Urllib :=
  {| quote_plus := Ok;
     urlparse_netloc := λ url, Ok (until_slash (after_slashes url)) |}.

Definition no_authors : authors := Authors ∅ ∅.

(** A configuration whose provider stores its results: Nominatim, or
    Google with an API key. *)
Definition caching_provider (cfg : config) : Prop :=
  selected_provider cfg = py "nominatim"
  ∨ (selected_provider cfg = py "google" ∧ GOOGLE_MAPS_API_KEY cfg ≠ []).

(** The nine columns step 3 of [postprocess_file] reads off a geocode
    result, falling back to the empty record. *)
Definition columns_of (cfg : config) (geo : pyval) : result (list pyval) :=
  mapM (λ c, get_method_default c (VStr (py ""))
               (if truthy geo then geo else _geo_empty (selected_provider cfg)))
       geo_cols.

(** The statuses [geocode_nominatim] gives, and those [geocode_google]
    gives besides the ones it copies from the service. *)
Definition nominatim_statuses : list str := Eval vm_compute in
  strs ["EMPTY"; "SKIPPED"; "NO_MATCH"; "ERROR"; "OSM_403_BLOCKED"; "OK"].

Definition google_statuses : list str := Eval vm_compute in
  strs ["EMPTY"; "SKIPPED"; "NO_API_KEY"; "NO_MATCH"; "ERROR"; "OK"].

(** A result that names its provider and has one of the given statuses, or
    a status that satisfies [other]. *)
Definition labelled (provider : str) (statuses : list str)
    (other : str → Prop) (d : pyval) : Prop :=
  dict_get "owner_geocode_provider" d = Some (VStr provider)
  ∧ ∃ s, status_of d = Some (VStr s) ∧ (s ∈ statuses ∨ other s).

(** Whether the address component [c] lists the type [t] among its
    ["types"]. *)
Definition has_type (t : str) (c : pyval) : bool :=
  match get_method "types" c with
  | Ok tys =>
    match iterate (py_or tys (VList [])) with
    | Ok l =>
      existsb (λ ty, match ty with VStr t' => bool_decide (t' = t) | _ => false end)
              l
    | Raise _ => false
    end
  | Raise _ => false
  end.

(** * Properties *)

Lemma sample_unicode_laws : UnicodeLaws sample_unicode.
Proof.
  split. intros before c after _ Hc. split; [done|].
  by intros d ->%list_elem_of_singleton.
Qed.

Lemma not_bad_by_computation (s : str) (S : gset str) :
  bool_decide (s ∈ S) = false → s ∉ S.
Proof. apply bool_decide_eq_false_1. Qed.

(** ** Stripping *)

Section strip.
Variable p : N → bool.

Lemma lstrip_by_head c r s : lstrip_by p s = c :: r → p c = false.
Proof.
  induction s as [|x s IH]; [done|]. cbn.
  destruct (p x) eqn:E; [done|]. by intros [= -> _].
Qed.

Lemma lstrip_by_suffix s : lstrip_by p s `suffix_of` s.
Proof.
  induction s as [|x s IH]; [done|]. cbn.
  destruct (p x); [by apply suffix_cons_r | done].
Qed.

Lemma lstrip_by_id c r : p c = false → lstrip_by p (c :: r) = c :: r.
Proof. cbn. by intros ->. Qed.

Lemma lstrip_by_visible s d : d ∈ s → p d = false → lstrip_by p s ≠ [].
Proof.
  intros Hd Hp. induction s as [|x s IH]; [by apply elem_of_nil in Hd|].
  cbn. destruct (p x) eqn:E; [|done].
  apply IH. apply elem_of_cons in Hd as [-> | Hd]; [congruence | done].
Qed.

Lemma lstrip_by_elem s d : d ∈ lstrip_by p s → d ∈ s.
Proof. intros H. by eapply elem_of_suffix; [|apply lstrip_by_suffix]. Qed.

Lemma rstrip_by_prefix s : rstrip_by p s `prefix_of` s.
Proof.
  unfold rstrip_by. rewrite <- (reverse_involutive s) at 2.
  apply suffix_prefix_reverse. apply lstrip_by_suffix.
Qed.

Lemma rstrip_by_elem s d : d ∈ rstrip_by p s → d ∈ s.
Proof. intros H. by eapply elem_of_prefix; [|apply rstrip_by_prefix]. Qed.

Lemma rstrip_by_visible s d : d ∈ s → p d = false → rstrip_by p s ≠ [].
Proof.
  intros Hd Hp. unfold rstrip_by. intros E.
  apply (f_equal reverse) in E. rewrite reverse_involutive in E.
  revert E. apply (lstrip_by_visible _ d); [by apply elem_of_reverse | done].
Qed.

Lemma rstrip_by_cons c r :
  p c = false → ∃ r', rstrip_by p (c :: r) = c :: r'.
Proof.
  intros Hc.
  destruct (rstrip_by p (c :: r)) as [|x r'] eqn:E.
  - exfalso. revert E. apply (rstrip_by_visible _ c); [left | done].
  - pose proof (rstrip_by_prefix (c :: r)) as [k Hk].
    rewrite E in Hk. injection Hk as -> _. by exists r'.
Qed.

Lemma strip_by_elem s d : d ∈ strip_by p s → d ∈ s.
Proof. intros H. by apply lstrip_by_elem, rstrip_by_elem. Qed.

Lemma strip_by_head c r s : strip_by p s = c :: r → p c = false.
Proof.
  unfold strip_by. intros E.
  destruct (lstrip_by p s) as [|x l] eqn:El.
  - by rewrite (prefix_nil_inv _ (rstrip_by_prefix [])) in E.
  - pose proof (rstrip_by_prefix (x :: l)) as [k Hk].
    rewrite E in Hk. injection Hk as <- _. by eapply lstrip_by_head.
Qed.

Lemma strip_by_visible s d : d ∈ s → p d = false → strip_by p s ≠ [].
Proof.
  intros Hd Hp. unfold strip_by.
  destruct (lstrip_by p s) as [|x l] eqn:El.
  - by destruct (lstrip_by_visible s d).
  - apply (rstrip_by_visible _ x); [left | by eapply lstrip_by_head].
Qed.

Lemma strip_by_cons c r : p c = false → ∃ r', strip_by p (c :: r) = c :: r'.
Proof.
  intros Hc. unfold strip_by. rewrite lstrip_by_id by done.
  by apply rstrip_by_cons.
Qed.
End strip.

Section strip2.
Variable p : N → bool.

Lemma rstrip_by_last s c : last (rstrip_by p s) = Some c → p c = false.
Proof.
  unfold rstrip_by. rewrite last_reverse. 
  destruct (lstrip_by p (reverse s)) as [|x l] eqn:E; [done|].
  intros [= ->]. by eapply lstrip_by_head.
Qed.

Lemma strip_by_last s c : last (strip_by p s) = Some c → p c = false.
Proof. apply rstrip_by_last. Qed.

Lemma lstrip_by_fixed s :
  (∀ c, head s = Some c → p c = false) → lstrip_by p s = s.
Proof. destruct s as [|x s]; [done|]. intros H. cbn. by rewrite H. Qed.

Lemma rstrip_by_fixed s :
  (∀ c, last s = Some c → p c = false) → rstrip_by p s = s.
Proof.
  intros H. unfold rstrip_by. rewrite lstrip_by_fixed.
  - apply reverse_involutive.
  - intros c Hc. apply H. by rewrite <- head_reverse.
Qed.

Lemma strip_by_fixed s :
  (∀ c, head s = Some c → p c = false) →
  (∀ c, last s = Some c → p c = false) → strip_by p s = s.
Proof.
  intros Hh Hl. unfold strip_by. rewrite lstrip_by_fixed by done.
  by apply rstrip_by_fixed.
Qed.

Lemma strip_by_idemp s : strip_by p (strip_by p s) = strip_by p s.
Proof.
  apply strip_by_fixed.
  - intros c Hc. destruct (strip_by p s) as [|x l] eqn:E; [done|].
    injection Hc as ->. by eapply strip_by_head.
  - apply strip_by_last.
Qed.
End strip2.

(** ** White space and lower-casing *)

Lemma isspace_spec c :
  isspace c = true ↔
  (9 ≤ c ≤ 13 ∨ 28 ≤ c ≤ 32 ∨ c = 0x85 ∨ c = 0xA0 ∨ c = 0x1680
   ∨ 0x2000 ≤ c ≤ 0x200A ∨ c = 0x2028 ∨ c = 0x2029 ∨ c = 0x202F
   ∨ c = 0x205F ∨ c = 0x3000)%N.
Proof.
  unfold isspace.
  rewrite !orb_true_iff, !andb_true_iff, !N.leb_le, !N.eqb_eq. tauto.
Qed.

Lemma lower_latin1_visible c : isspace c = false → isspace (lower_latin1 c) = false.
Proof.
  intros H. destruct (isspace (lower_latin1 c)) eqn:E; [|done].
  apply isspace_spec in E. apply not_true_iff_false in H.
  exfalso. apply H. apply isspace_spec. revert E. unfold lower_latin1.
  case_match eqn:C; [|done].
  rewrite !orb_true_iff, !andb_true_iff, !N.leb_le in C. lia.
Qed.

Section lower.
Context {U : Unicode} {UL : UnicodeLaws U}.

Lemma lower_char_visible before c after :
  isspace c = false →
  lower_char before c after ≠ []
  ∧ ∀ d, d ∈ lower_char before c after → isspace d = false.
Proof.
  intros H. unfold lower_char. case_match eqn:C.
  - split; [done|]. intros d ->%list_elem_of_singleton.
    by apply lower_latin1_visible.
  - apply uni_lower_visible; [|done]. apply N.ltb_ge in C. lia.
Qed.

Lemma lower_from_head before c r d :
  isspace c = false →
  head (lower_from before (c :: r)) = Some d → isspace d = false.
Proof.
  intros H. cbn [lower_from].
  destruct (lower_char_visible before c r H) as [Hn Hv].
  destruct (lower_char before c r) as [|x l]; [done|].
  intros [= <-]. apply Hv. left.
Qed.

Lemma lower_from_nonempty before c r :
  isspace c = false → lower_from before (c :: r) ≠ [].
Proof.
  intros H. cbn [lower_from].
  destruct (lower_char_visible before c r H) as [Hn _].
  by destruct (lower_char before c r).
Qed.

Lemma lower_from_nonempty_last s before :
  s ≠ [] → (∀ c, last s = Some c → isspace c = false) →
  lower_from before s ≠ [].
Proof.
  revert before. induction s as [|c r IH]; intros before Hs Hl; [done|].
  destruct r as [|c' r'].
  - apply lower_from_nonempty. by apply Hl.
  - cbn [lower_from]. intros E. apply app_eq_nil in E as [_ E].
    revert E. apply IH; [done|].
    intros c0 Hc0. apply Hl. by rewrite last_cons_cons.
Qed.

Lemma lower_from_last s before d :
  (∀ c, last s = Some c → isspace c = false) →
  last (lower_from before s) = Some d → isspace d = false.
Proof.
  revert before. induction s as [|c r IH]; intros before Hl; [done|].
  cbn [lower_from]. destruct r as [|c' r'].
  - cbn [lower_from]. rewrite app_nil_r. intros Hd.
    apply (lower_char_visible before c []); [by apply Hl|].
    by eapply last_Some_elem_of.
  - assert (∀ c0, last (c' :: r') = Some c0 → isspace c0 = false) as Hl'
      by (intros c0 Hc0; apply Hl; by rewrite last_cons_cons).
    pose proof (lower_from_nonempty_last (c' :: r') (before ++ [c])
                  ltac:(done) Hl') as Hne.
    rewrite last_app.
    destruct (last (lower_from (before ++ [c]) (c' :: r'))) eqn:El.
    + intros [= <-]. by eapply IH.
    + by apply last_None in El.
Qed.

Lemma py_lower_strip_fixed s :
  py_strip s = s → py_strip (py_lower s) = py_lower s.
Proof.
  intros E. apply strip_by_fixed.
  - destruct s as [|c r]; [done|]. intros d.
    apply lower_from_head. eapply strip_by_head. exact E.
  - intros d. apply lower_from_last. intros c Hc.
    rewrite <- E in Hc. by eapply strip_by_last.
Qed.

Lemma py_lower_visible c r :
  isspace c = false → py_strip (py_lower (c :: r)) ≠ [].
Proof.
  intros H. unfold py_lower. cbn [lower_from].
  destruct (lower_char_visible [] c r H) as [Hn Hv].
  destruct (lower_char [] c r) as [|x l] eqn:E; [done|].
  apply (strip_by_visible _ _ x); [left | apply Hv; left].
Qed.
End lower.

(** ** The matcher *)

Section matcher_lemmas.
Context {U : Unicode}.
Variable ic : bool.

Lemma star_all p prev s :
  star p prev s (λ _ rest, Some rest) = Some (lstrip_by p s).
Proof.
  revert prev. induction s as [|c s IH]; intros prev; [done|].
  cbn. destruct (p c); [by rewrite IH | done].
Qed.

Lemma star_suffix p prev s k x :
  star p prev s k = Some x →
  ∃ prev' s', s' `suffix_of` s ∧ k prev' s' = Some x.
Proof.
  revert prev. induction s as [|c s IH]; intros prev; cbn.
  - intros H. by exists prev, [].
  - destruct (p c).
    + destruct (star p (Some c) s k) as [y|] eqn:E.
      * intros [= ->]. destruct (IH _ E) as (prev' & s' & Hs & Hk).
        exists prev', s'. split; [by apply suffix_cons_r | done].
      * intros H. by exists prev, (c :: s).
    + intros H. by exists prev, (c :: s).
Qed.

Lemma matches_suffix r prev s k x :
  matches ic r prev s k = Some x →
  ∃ prev' s', s' `suffix_of` s ∧ k prev' s' = Some x.
Proof.
  revert prev s k. induction r as [|p|cl|cl|cl| | |r1 IH1 r2 IH2|r1 IH1 r2 IH2];
    intros prev s k; cbn.
  - intros H. by exists prev, s.
  - destruct s as [|c s]; [done|]. destruct (lit_eq ic p c); [|done].
    intros H. exists (Some c), s. split; [by apply suffix_cons_r | done].
  - destruct s as [|c s]; [done|]. destruct (in_cls cl c); [|done].
    intros H. exists (Some c), s. split; [by apply suffix_cons_r | done].
  - apply star_suffix.
  - destruct s as [|c s]; [done|]. destruct (in_cls cl c); [|done].
    intros H. destruct (star_suffix _ _ _ _ _ H) as (prev' & s' & Hs & Hk).
    exists prev', s'. split; [by apply suffix_cons_r | done].
  - destruct (xorb _ _); [|done]. intros H. by exists prev, s.
  - intros H. exists prev, s. split; [done|].
    revert H. destruct s as [|c s]; [done|]. destruct c as [|q]; [done|].
    repeat (destruct q as [q|q|]; try done). by destruct s.
  - intros H. destruct (IH1 _ _ _ H) as (p1 & s1 & Hs1 & H1).
    destruct (IH2 _ _ _ H1) as (p2 & s2 & Hs2 & H2).
    exists p2, s2. split; [by etrans | done].
  - destruct (matches ic r1 prev s k) as [y|] eqn:E.
    + intros [= ->]. by apply IH1 in E.
    + apply IH2.
Qed.

(** [$] lets the rest of the pattern run only at the end of the subject,
    or before its final newline. *)
Lemma matches_eos prev s k x :
  matches ic Eos prev s k = Some x → (s = [] ∨ s = [10%N]) ∧ k prev s = Some x.
Proof.
  cbn. destruct s as [|c s]; [by split; [left|]|].
  destruct c as [|q]; [done|].
  repeat (destruct q as [q|q|]; try done).
  destruct s; [|done]. by split; [right|].
Qed.

Lemma matches_seq_inv r1 r2 prev s k x :
  matches ic (Seq r1 r2) prev s k = Some x →
  ∃ prev' s', s' `suffix_of` s ∧ matches ic r2 prev' s' k = Some x.
Proof. apply (matches_suffix r1 prev s (λ p s', matches ic r2 p s' k)). Qed.

Lemma matches_lit_seq p r2 prev s k x :
  matches ic (Seq (Seq (Lit p) Eps) r2) prev s k = Some x →
  ∃ c s', s = c :: s' ∧ lit_eq ic p c = true
          ∧ matches ic r2 (Some c) s' k = Some x.
Proof.
  cbn [matches]. destruct s as [|c s']; [done|].
  destruct (lit_eq ic p c) eqn:E; [|done]. intros H. by exists c, s'.
Qed.

Lemma matches_eos_seq r2 prev s k x :
  matches ic (Seq Eos r2) prev s k = Some x →
  (s = [] ∨ s = [10%N]) ∧ matches ic r2 prev s k = Some x.
Proof. apply (matches_eos prev s (λ p s', matches ic r2 p s' k)). Qed.

Lemma match_at_false r prev s :
  match_at ic false r prev s
  = (λ rest : str, length s - length rest) <$>
    matches ic r prev s (λ _ rest, Some rest).
Proof. reflexivity. Qed.

Lemma lstrip_by_length p (s : str) : length (lstrip_by p s) ≤ length s.
Proof. apply suffix_length, lstrip_by_suffix. Qed.

(** [\s+] at the current position takes the whole run of white space. *)
Lemma match_ws prev s :
  match_at ic false (Plus CSpace) prev s
  = match s with
    | c :: s' =>
      if isspace c
      then Some (S (length s' - length (lstrip_by isspace s')))
      else None
    | [] => None
    end.
Proof.
  rewrite match_at_false. destruct s as [|c s']; [done|].
  cbn -[Nat.sub length]. destruct (isspace c); [|done].
  rewrite star_all. cbn -[Nat.sub length].
  pose proof (lstrip_by_length isspace s'). f_equal. cbn [length].
  change (in_cls CSpace) with isspace. lia.
Qed.
End matcher_lemmas.

(** ** Collapsing white space: [re.sub(r"\s+", " ", s)] *)

Section collapse_lemmas.
Context {U : Unicode}.

Lemma sub_ws_collapse s prev :
  sub_go false (Plus CSpace) [32%N] prev s 0 = collapse false s
  ∧ sub_go false (Plus CSpace) [32%N] prev s
      (length s - length (lstrip_by isspace s)) = collapse true s.
Proof.
  revert prev. induction s as [|c s IH]; intros prev; [done|].
  assert (sub_go false (Plus CSpace) [32%N] prev (c :: s) 0
          = collapse false (c :: s)) as H0.
  { cbn [sub_go]. rewrite match_ws. cbn [collapse].
    destruct (isspace c).
    - cbn [app]. f_equal. apply IH.
    - f_equal. apply IH. }
  split; [exact H0|].
  cbn [lstrip_by collapse]. destruct (isspace c) eqn:E.
  - pose proof (lstrip_by_length isspace s).
    replace (length (c :: s) - length (lstrip_by isspace s))
      with (S (length s - length (lstrip_by isspace s))) by (cbn; lia).
    cbn [sub_go]. apply IH.
  - rewrite Nat.sub_diag, H0. cbn [collapse]. by rewrite E.
Qed.

Lemma re_sub_ws s :
  re_sub (Pattern ws_plus false) (py " ") s = collapse false s.
Proof. apply sub_ws_collapse. Qed.

Lemma collapse_spaced s b :
  spaced (collapse b s)
  ∧ (b = true → ∀ d, head (collapse b s) = Some d → isspace d = false).
Proof.
  revert b. induction s as [|c s IH]; intros b; [done|]. cbn [collapse].
  destruct (isspace c) eqn:E.
  - destruct b; [apply IH|]. split; [|done]. split; [|apply IH].
    intros _. split; [done|]. by apply IH.
  - split.
    + split; [|apply IH]. intros E'. congruence.
    + intros _ d [= <-]. done.
Qed.

Lemma collapse_fixed z b :
  spaced z → (b = true → ∀ d, head z = Some d → isspace d = false) →
  collapse b z = z.
Proof.
  revert b. induction z as [|c z IH]; intros b; [done|].
  intros [Hc Hz] Hb. cbn [collapse]. destruct (isspace c) eqn:E.
  - destruct b; [by rewrite (Hb eq_refl c) in E|].
    destruct (Hc eq_refl) as [-> Hd]. f_equal. by apply IH.
  - f_equal. by apply IH.
Qed.

Lemma spaced_suffix z1 z2 : spaced (z1 ++ z2) → spaced z2.
Proof. induction z1 as [|c z1 IH]; [done|]. intros [_ H]. by apply IH. Qed.

Lemma spaced_prefix z1 z2 : spaced (z1 ++ z2) → spaced z1.
Proof.
  induction z1 as [|c z1 IH]; [done|]. intros [Hc H]. split; [|by apply IH].
  intros E. destruct (Hc E) as [-> Hd]. split; [done|].
  intros d Hh. apply Hd. by destruct z1.
Qed.

Lemma spaced_space z c : spaced z → c ∈ z → isspace c = true → c = 32%N.
Proof.
  induction z as [|x z IH]; [by intros _ ?%elem_of_nil|].
  intros [Hx Hz] [-> | Hc]%elem_of_cons E; [by apply Hx | by apply IH].
Qed.

Lemma spaced_strip_by p z : spaced z → spaced (strip_by p z).
Proof.
  intros H. unfold strip_by.
  destruct (rstrip_by_prefix p (lstrip_by p z)) as [k1 E1].
  destruct (lstrip_by_suffix p z) as [k2 E2].
  rewrite E2, E1 in H. by apply spaced_suffix, spaced_prefix in H.
Qed.
End collapse_lemmas.

(** ** The suffix pattern [,\s*(european union|eu)\s*$] *)

Lemma ci_eq_comma c : ci_eq 44 c = true → c = 44%N.
Proof.
  unfold ci_eq. change (lower_latin1 44) with 44%N.
  rewrite !orb_true_iff, !andb_true_iff, !N.eqb_eq, N.ltb_lt.
  intros [[[[H _] | [? _]] | [? _]] | [? _]]; try done.
  revert H. unfold lower_latin1. case_match eqn:C; [|done].
  rewrite !orb_true_iff, !andb_true_iff, !N.leb_le in C. lia.
Qed.

Section eu_suffix.
Context {U : Unicode}.

Lemma eu_suffix_match_at prev s n :
  match_at true false (pat_re re_eu_suffix) prev s = Some n →
  ∃ s1 rest, s = 44%N :: s1 ∧ rest `suffix_of` s1
             ∧ (rest = [] ∨ rest = [10%N])
             ∧ n = length s - length rest.
Proof.
  rewrite match_at_false.
  destruct (matches true (pat_re re_eu_suffix) prev s (λ _ rest, Some rest))
    as [rest|] eqn:E; [|done].
  intros [= <-]. revert E. cbn [re_eu_suffix pat_re]. intros E.
  apply matches_lit_seq in E as (c & s1 & -> & Ec & E).
  apply ci_eq_comma in Ec as ->.
  apply matches_seq_inv in E as (p1 & t1 & Ht1 & E).
  apply matches_seq_inv in E as (p2 & t2 & Ht2 & E).
  apply matches_seq_inv in E as (p3 & t3 & Ht3 & E).
  apply matches_eos_seq in E as [Hend [= <-]].
  exists s1, t3. repeat split; [|done].
  by etrans; [|etrans].
Qed.

Lemma sub_go_skip_all ic r prev (s : str) :
  sub_go ic r [] prev s (length s) = [].
Proof.
  revert prev. induction s as [|c s IH]; intros prev; cbn [sub_go length].
  - by case_match.
  - apply IH.
Qed.

(** On a subject that does not end in white space the substitution cuts
    the subject at the first match; a first character other than a comma
    is kept. *)
Lemma sub_eu_suffix s prev :
  (∀ c, last s = Some c → isspace c = false) →
  sub_go true (pat_re re_eu_suffix) [] prev s 0 `prefix_of` s
  ∧ ∀ c s', s = c :: s' → c ≠ 44%N →
      ∃ r, sub_go true (pat_re re_eu_suffix) [] prev s 0 = c :: r.
Proof.
  revert prev. induction s as [|c s IH]; intros prev Hl.
  - split; [|done]. cbn [sub_go]. by case_match.
  - assert (∀ c0, last s = Some c0 → isspace c0 = false) as Hl'.
    { intros c0 Hc0. apply Hl. destruct s; [done|]. by rewrite last_cons_cons. }
    cbn [sub_go].
    destruct (match_at true false (pat_re re_eu_suffix) prev (c :: s))
      as [n|] eqn:E.
    + apply eu_suffix_match_at in E as (s1 & rest & [= -> <-] & Hs & Hr & ->).
      destruct Hr as [-> | ->].
      * cbn [length Nat.sub app]. rewrite sub_go_skip_all.
        split; [apply prefix_nil | by intros ? ? [= <- _]].
      * exfalso. destruct Hs as [k ->].
        specialize (Hl' 10%N). rewrite last_snoc in Hl'.
        by specialize (Hl' eq_refl).
    + destruct (IH (Some c) Hl') as [Hp _]. split.
      * by apply prefix_cons.
      * intros ? ? [= <- <-] _. eauto.
Qed.
End eu_suffix.

(** ** The cleaning stage of the normalizer *)

Section cleaning.
Context {U : Unicode}.

Lemma clean_stage_spaced t : spaced (clean_stage t).
Proof.
  unfold clean_stage, py_strip, py_strip_chars. rewrite re_sub_ws.
  do 2 apply spaced_strip_by. apply collapse_spaced.
Qed.

Lemma clean_stage_head t c r :
  clean_stage t = c :: r →
  isspace c = false ∧ c ∉ py " ,;|-".
Proof.
  unfold clean_stage, py_strip, py_strip_chars. rewrite re_sub_ws.
  set (inchars := λ c0 : N, bool_decide (c0 ∈ py " ,;|-")).
  destruct (strip_by inchars (collapse false t)) as [|y Y] eqn:EY; [done|].
  pose proof (strip_by_head _ _ _ _ EY) as Hy.
  assert (isspace y = false) as Hsp.
  { destruct (isspace y) eqn:E; [|done].
    assert (y = 32%N) as ->; [|done].
    eapply spaced_space; [apply (collapse_spaced t false)| |done].
    eapply strip_by_elem. rewrite EY. left. }
  destruct (strip_by_cons isspace y Y Hsp) as [r' ->].
  intros [= <- <-]. split; [done|]. intros Hin.
  unfold inchars in Hy. by rewrite bool_decide_eq_true_2 in Hy.
Qed.

Lemma clean_stage_last t c :
  last (clean_stage t) = Some c → isspace c = false.
Proof. apply strip_by_last. Qed.

Lemma drop_eu_suffix_nonempty t :
  clean_stage t ≠ [] → drop_eu_suffix (clean_stage t) ≠ [].
Proof.
  intros Hne. destruct (clean_stage t) as [|c r] eqn:E; [done|].
  destruct (clean_stage_head t c r E) as [Hsp Hc].
  destruct (sub_eu_suffix (c :: r) None) as [_ H].
  { rewrite <- E. apply clean_stage_last. }
  destruct (H c r eq_refl) as [r' Hr'].
  { intros ->. apply Hc. vm_compute. by repeat constructor. }
  unfold drop_eu_suffix, re_sub. change (ignorecase re_eu_suffix) with true.
  change (py "") with ([] : str). rewrite Hr'.
  destruct (strip_by_cons isspace c r' Hsp) as [r'' Hr''].
  unfold py_strip. by rewrite Hr''.
Qed.

Lemma drop_eu_suffix_spaced t : spaced (drop_eu_suffix (clean_stage t)).
Proof.
  unfold drop_eu_suffix, py_strip, re_sub. apply spaced_strip_by.
  change (ignorecase re_eu_suffix) with true. change (py "") with ([] : str).
  destruct (sub_eu_suffix (clean_stage t) None) as [[k Hk] _].
  { apply clean_stage_last. }
  pose proof (clean_stage_spaced t) as H. rewrite Hk in H.
  by apply spaced_prefix in H.
Qed.
End cleaning.

Section normalizer_cases.
Context {U : Unicode} {R : Runtime}.

Lemma normalize_unfold raw :
  normalize_location_text raw
  = match raw with
    | VNone => (py "", py "EMPTY")
    | _ => normalize_stripped (py_strip (py_str raw))
    end.
Proof. by destruct raw. Qed.

Lemma normalize_stripped_outcome s0 :
  py_strip s0 = s0 →
  outcome (fst (normalize_stripped s0)) (snd (normalize_stripped s0)).
Proof.
  intros Hs. unfold normalize_stripped.
  destruct (nonempty s0) eqn:E0; cbn [negb]; [|constructor].
  case_bool_decide as Hb1; [constructor; [by destruct s0|done..]|].
  match goal with |- context [clean_stage ?t] => set (t0 := t) end.
  destruct (nonempty (clean_stage t0)) eqn:E1; cbn [negb]; [|constructor].
  assert (clean_stage t0 ≠ []) by (by destruct (clean_stage t0)).
  case_bool_decide as Hb2; [by constructor|].
  destruct (_LOCATION_MAP !! py_lower (clean_stage t0)) as [v|] eqn:Em.
  - by econstructor.
  - by constructor.
Qed.

Lemma normalize_outcome raw :
  outcome (fst (normalize_location_text raw))
          (snd (normalize_location_text raw)).
Proof.
  rewrite normalize_unfold.
  destruct raw; try (apply normalize_stripped_outcome, strip_by_idemp).
  constructor.
Qed.

Lemma location_map_values k v :
  _LOCATION_MAP !! k = Some v → (k, v) ∈ _LOCATION_MAP_items.
Proof. apply elem_of_list_to_map_2. Qed.

Lemma location_map_values_nonempty :
  Forall (λ kv : (str * str)%type, snd kv ≠ []) _LOCATION_MAP_items.
Proof. refine (bool_decide_unpack _ _). vm_compute. exact I. Qed.

Lemma location_map_values_stable :
  Forall (λ kv : (str * str)%type,
            fst (normalize_location_text (VStr (snd kv))) = snd kv)
         _LOCATION_MAP_items.
Proof. refine (bool_decide_unpack _ _). vm_compute. exact I. Qed.
End normalizer_cases.

(** ** Empty cleaned text and hint EMPTY *)

Section normalizer_invariants.
Context {U : Unicode} {UL : UnicodeLaws U} {R : Runtime}.

Lemma outcome_empty_iff c h :
  outcome c h → (h = py "EMPTY" ↔ c = py "").
Proof.
  destruct 1 as [|s0 Hne Hs Hb|t Hne Hb|k v Hm|t Hne].
  - done.
  - split; [by intros [=]|]. intros E. exfalso.
    destruct s0 as [|c0 r0]; [done|].
    apply (py_lower_visible c0 r0); [|exact E].
    exact (strip_by_head isspace c0 r0 _ Hs).
  - split; [by intros [=]|]. intros E. exfalso.
    destruct (clean_stage t) as [|c0 r0] eqn:Et; [done|].
    apply (lower_from_nonempty [] c0 r0); [|exact E].
    by eapply clean_stage_head.
  - split; [by intros [=]|]. intros E. exfalso.
    apply location_map_values in Hm.
    apply (proj1 (Forall_forall _ _) location_map_values_nonempty) in Hm.
    by apply Hm.
  - split; [by intros [=]|]. intros E. exfalso.
    by apply (drop_eu_suffix_nonempty t).
Qed.

Lemma outcome_hint c h :
  outcome c h → h ∈ [py "EMPTY"; py "SKIP"; py "MAPPED"; py "CLEANED"].
Proof.
  destruct 1;
    repeat first [apply list_elem_of_here | apply list_elem_of_further].
Qed.

(** C10: [normalize_location_text] returns hint EMPTY if and only if the
    cleaned text is the empty string (so SKIP, MAPPED and CLEANED results
    carry a non-empty text), and the hint is always one of EMPTY, SKIP,
    MAPPED, CLEANED. *)
Theorem normalize_empty_iff raw :
  (snd (normalize_location_text raw) = py "EMPTY"
   ↔ fst (normalize_location_text raw) = py "")
  ∧ snd (normalize_location_text raw)
    ∈ [py "EMPTY"; py "SKIP"; py "MAPPED"; py "CLEANED"].
Proof.
  pose proof (normalize_outcome raw) as H. split.
  - exact (outcome_empty_iff _ _ H).
  - exact (outcome_hint _ _ H).
Qed.

(** ** Re-applying the normalizer *)

Lemma outcome_mapped c : outcome c (py "MAPPED") → ∃ k, _LOCATION_MAP !! k = Some c.
Proof. inversion 1; eauto. Qed.

Lemma outcome_cleaned c :
  outcome c (py "CLEANED") →
  ∃ t, clean_stage t ≠ [] ∧ c = drop_eu_suffix (clean_stage t).
Proof. inversion 1; eauto. Qed.

Lemma cleaned_again c :
  c ≠ [] → py_strip c = c → spaced c → irreducible c →
  normalize_location_text (VStr c) = (c, py "CLEANED").
Proof.
  intros Hne Hs Hsp (Hrules & Hpunct & Hbad & Hmap & Hsuffix).
  rewrite normalize_unfold. cbn [py_str]. rewrite Hs.
  unfold normalize_stripped.
  assert (nonempty c = true) as Hn
    by (destruct c; [exfalso; exact (Hne eq_refl) | reflexivity]).
  rewrite Hn. cbn [negb].
  rewrite py_lower_strip_fixed by done.
  rewrite (bool_decide_eq_false_2 _ Hbad).
  unfold _CLEAN_REPLACEMENTS in *.
  apply Forall_cons in Hrules as [H1 Hrules].
  apply Forall_cons in Hrules as [H2 Hrules].
  apply Forall_cons in Hrules as [H3 _].
  cbn [foldl fst snd] in *. rewrite H1, H2, H3.
  assert (clean_stage c = c) as ->.
  { unfold clean_stage. rewrite re_sub_ws, collapse_fixed by done.
    by rewrite Hpunct. }
  rewrite Hn. cbn [negb].
  rewrite (bool_decide_eq_false_2 _ Hbad), Hmap.
  unfold drop_eu_suffix. by rewrite Hsuffix, Hs.
Qed.

(** C2, amended: when [normalize_location_text] answers MAPPED with text
    [c], normalizing [c] gives back [c]; when it answers CLEANED with a
    text [c] that is not further reducible, normalizing [c] gives
    [(c, CLEANED)]. *)
Theorem normalize_idempotent_when_irreducible x c h :
  normalize_location_text (VStr x) = (c, h) →
  (h = py "MAPPED" → fst (normalize_location_text (VStr c)) = c)
  ∧ (h = py "CLEANED" → irreducible c →
     normalize_location_text (VStr c) = (c, py "CLEANED")).
Proof.
  intros E. pose proof (normalize_outcome (VStr x)) as H.
  rewrite E in H. cbn [fst snd] in H. split.
  - intros ->. apply outcome_mapped in H as [k Hk].
    apply location_map_values in Hk.
    by apply (proj1 (Forall_forall _ _) location_map_values_stable) in Hk.
  - intros -> Hirr. apply outcome_cleaned in H as (t & Hne & ->).
    apply cleaned_again; [|apply strip_by_idemp| |done].
    + by apply drop_eu_suffix_nonempty.
    + apply drop_eu_suffix_spaced.
Qed.
End normalizer_invariants.

(** "Paris, Texas" is cleaned to itself, with a hint other than EMPTY. *)
Lemma normalize_empty_iff_witness :
  let U := sample_unicode in
  let R := sample_runtime in
  (snd (normalize_location_text (VStr (py "Paris, Texas"))) = py "EMPTY"
   ↔ fst (normalize_location_text (VStr (py "Paris, Texas"))) = py "")
  ∧ snd (normalize_location_text (VStr (py "Paris, Texas")))
    ∈ [py "EMPTY"; py "SKIP"; py "MAPPED"; py "CLEANED"].
Proof.
  exact (@normalize_empty_iff sample_unicode sample_unicode_laws sample_runtime
           (VStr (py "Paris, Texas"))).
Defined.

Lemma paris_texas_irreducible :
  @irreducible sample_unicode (py "Paris, Texas").
Proof.
  split; [|split; [|split; [|split]]].
  - repeat constructor.
  - reflexivity.
  - apply not_bad_by_computation. vm_compute. reflexivity.
  - vm_compute. reflexivity.
  - reflexivity.
Defined.

(** "sf" is MAPPED to a text that is normalized to itself; "Paris, Texas" is
    CLEANED to itself, is not further reducible, and is normalized to
    itself. *)
Lemma normalize_idempotent_when_irreducible_witness :
  let U := sample_unicode in
  let R := sample_runtime in
  fst (normalize_location_text (VStr (py "San Francisco, CA, USA")))
    = py "San Francisco, CA, USA"
  ∧ normalize_location_text (VStr (py "Paris, Texas"))
    = (py "Paris, Texas", py "CLEANED").
Proof.
  intros U R. split.
  - refine (proj1 (@normalize_idempotent_when_irreducible U sample_unicode_laws R
             (py "sf") (py "San Francisco, CA, USA") (py "MAPPED") _) _).
    + vm_compute. reflexivity.
    + reflexivity.
  - refine (proj2 (@normalize_idempotent_when_irreducible U sample_unicode_laws R
             (py "Paris, Texas") (py "Paris, Texas") (py "CLEANED") _) _ _).
    + vm_compute. reflexivity.
    + reflexivity.
    + exact paris_texas_irreducible.
Defined.

(** C2 as stated fails: "fully remote only" is CLEANED to "remote only",
    which the normalizer then turns into the sentinel "remote". *)
Lemma normalize_not_idempotent :
  let U := sample_unicode in
  let R := sample_runtime in
  normalize_location_text (VStr (py "fully remote only"))
    = (py "remote only", py "CLEANED")
  ∧ normalize_location_text (VStr (py "remote only"))
    = (py "remote", py "SKIP")
  ∧ fst (normalize_location_text (VStr (py "remote only"))) ≠ py "remote only".
Proof.
  cbv zeta. split; [|split].
  - vm_compute. reflexivity.
  - vm_compute. reflexivity.
  - vm_compute. discriminate.
Qed.

(** ** The normalizer on the documented inputs *)

Section normalizer_examples.
Context {U : Unicode} {R : Runtime}.

(** C9: [normalize_location_text] maps "sf" to ("San Francisco, CA, USA",
    MAPPED), "  Remote Only " to ("remote", SKIP), "" to ("", EMPTY) and
    "Worldwide" to ("worldwide", SKIP). *)
Theorem normalize_documented_inputs :
  normalize_location_text (VStr (py "sf"))
    = (py "San Francisco, CA, USA", py "MAPPED")
  ∧ normalize_location_text (VStr (py "  Remote Only "))
    = (py "remote", py "SKIP")
  ∧ normalize_location_text (VStr (py ""))
    = (py "", py "EMPTY")
  ∧ normalize_location_text (VStr (py "Worldwide"))
    = (py "worldwide", py "SKIP").
Proof. repeat split; vm_compute; reflexivity. Qed.
End normalizer_examples.

(** ** The shared pre-checks of the providers *)

Section provider_guards.
Context {U : Unicode} {R : Runtime}.
Variable cfg : config.
Variable ow : outside.

(** C4, on the failing input: in [lisp.py] both providers answer an empty
    input with status SKIPPED (the claim and [geocode_postprocess.py] say
    EMPTY), without any effect. *)
Theorem lisp_empty_input_is_skipped w :
  geocode_google lisp_py cfg ow (Some (py "")) w
    = (Ok (set_status (py "SKIPPED") (_geo_empty (py "google"))), w)
  ∧ geocode_nominatim lisp_py ow (Some (py "")) w
    = (Ok (set_status (py "SKIPPED") (_geo_empty (py "nominatim"))), w)
  ∧ status_of (set_status (py "SKIPPED") (_geo_empty (py "google")))
    = Some (VStr (py "SKIPPED"))
  ∧ status_of (set_status (py "SKIPPED") (_geo_empty (py "nominatim")))
    = Some (VStr (py "SKIPPED")).
Proof. repeat split. Qed.

(** The copy in [geocode_postprocess.py] does what C4 states: EMPTY for an
    empty trimmed input, SKIPPED for a sentinel, the world untouched. *)
Lemma postprocess_guard raw w :
  let r := py_strip (default [] raw) in
  (r = [] →
     geocode_google geocode_postprocess_py cfg ow raw w
       = (Ok (set_status (py "EMPTY") (_geo_empty (py "google"))), w)
     ∧ geocode_nominatim geocode_postprocess_py ow raw w
       = (Ok (set_status (py "EMPTY") (_geo_empty (py "nominatim"))), w))
  ∧ (r ≠ [] → py_lower r ∈ _BAD_LOCATIONS geocode_postprocess_py →
     geocode_google geocode_postprocess_py cfg ow raw w
       = (Ok (set_status (py "SKIPPED") (_geo_empty (py "google"))), w)
     ∧ geocode_nominatim geocode_postprocess_py ow raw w
       = (Ok (set_status (py "SKIPPED") (_geo_empty (py "nominatim"))), w)).
Proof.
  cbn zeta. split.
  - intros E. unfold geocode_google, geocode_nominatim. by rewrite E.
  - intros E B. unfold geocode_google, geocode_nominatim.
    rewrite (bool_decide_eq_true_2 _ B), orb_true_r.
    unfold guard_status. by destruct (py_strip (default [] raw)).
Qed.

(** In [lisp.py] a sentinel is SKIPPED as well. *)
Lemma lisp_guard raw w :
  let r := py_strip (default [] raw) in
  (r = [] ∨ py_lower r ∈ _BAD_LOCATIONS lisp_py) →
  geocode_google lisp_py cfg ow raw w
    = (Ok (set_status (py "SKIPPED") (_geo_empty (py "google"))), w)
  ∧ geocode_nominatim lisp_py ow raw w
    = (Ok (set_status (py "SKIPPED") (_geo_empty (py "nominatim"))), w).
Proof.
  cbn zeta. unfold geocode_google, geocode_nominatim.
  intros [E | B].
  - by rewrite E.
  - by rewrite (bool_decide_eq_true_2 _ B), orb_true_r.
Qed.
End provider_guards.

(** ** Cache hits *)

Section cache_hits.
Context {U : Unicode} {R : Runtime}.
Variable sc : script.
Variable cfg : config.
Variable ow : outside.

Lemma guard_passes raw :
  py_strip raw ≠ [] → py_lower (py_strip raw) ∉ _BAD_LOCATIONS sc →
  negb (nonempty (py_strip (default [] (Some raw))))
  || bool_decide (py_lower (py_strip (default [] (Some raw))) ∈ _BAD_LOCATIONS sc)
  = false.
Proof.
  intros E B. change (default [] (Some raw)) with raw.
  rewrite (bool_decide_eq_false_2 _ B). by destruct (py_strip raw).
Qed.

(** C3, amended: for an input that is neither empty nor a sentinel and
    whose cache key (provider name, ':', lower-cased trimmed input) is in
    the cache, [geocode_nominatim] returns the cached result and leaves
    the world as it is, and so does [geocode_google] when an API key is
    configured; without a key [geocode_google] answers NO_API_KEY before
    it looks at the cache.  Every raw string with the same lower-cased
    trimmed text [key] reads the same entry. *)
Theorem cache_hit_returns_cached key cached w raw :
  py_strip raw ≠ [] →
  py_lower (py_strip raw) = key →
  key ∉ _BAD_LOCATIONS sc →
  (_GEO_CACHE w !! cache_key_of (py "nominatim") key = Some cached →
     geocode_nominatim sc ow (Some raw) w = (Ok cached, w))
  ∧ (_GEO_CACHE w !! cache_key_of (py "google") key = Some cached →
     GOOGLE_MAPS_API_KEY cfg ≠ [] →
     geocode_google sc cfg ow (Some raw) w = (Ok cached, w))
  ∧ (GOOGLE_MAPS_API_KEY cfg = [] →
     geocode_google sc cfg ow (Some raw) w
       = (Ok (set_status (py "NO_API_KEY") (_geo_empty (py "google"))), w)).
Proof.
  intros E K B. subst key. pose proof (guard_passes raw E B) as G.
  repeat split.
  - intros C. unfold geocode_nominatim. rewrite G.
    change (default [] (Some raw)) with raw. by rewrite C.
  - intros C A. unfold geocode_google. rewrite G.
    change (default [] (Some raw)) with raw. rewrite C.
    by destruct (GOOGLE_MAPS_API_KEY cfg).
  - intros A. unfold geocode_google. rewrite G, A. done.
Qed.
End cache_hits.

(** "Paris" and " PARIS " hit the same two entries. *)
Lemma cache_hit_returns_cached_witness :
  let U := sample_unicode in
  let R := sample_runtime in
  let w := World (<[py "nominatim:paris" := sample_cached]>
                  (<[py "google:paris" := sample_cached]> ∅)) NoFile [] in
  let cfg := Config (py "") (py "k") in
  geocode_nominatim geocode_postprocess_py offline (Some (py "Paris")) w
    = (Ok sample_cached, w)
  ∧ geocode_google geocode_postprocess_py cfg offline (Some (py " PARIS ")) w
    = (Ok sample_cached, w).
Proof.
  intros U R w cfg. split.
  - refine (proj1 (cache_hit_returns_cached geocode_postprocess_py cfg offline
             (py "paris") sample_cached w (py "Paris") _ _ _) _).
    + discriminate.
    + reflexivity.
    + apply not_bad_by_computation. vm_compute. reflexivity.
    + vm_compute. reflexivity.
  - refine (proj1 (proj2 (cache_hit_returns_cached geocode_postprocess_py cfg
             offline (py "paris") sample_cached w (py " PARIS ") _ _ _)) _ _).
    + discriminate.
    + reflexivity.
    + apply not_bad_by_computation. vm_compute. reflexivity.
    + vm_compute. reflexivity.
    + discriminate.
Defined.

(** C3 as stated fails for [geocode_google]: with no API key configured, an
    input whose key is cached is answered NO_API_KEY, not with the cached
    result. *)
Lemma geocode_google_ignores_cache_without_key :
  let U := sample_unicode in
  let R := sample_runtime in
  let w := World (<[py "google:paris" := sample_cached]> ∅) NoFile [] in
  let cfg := Config (py "") (py "") in
  py_strip (py "Paris") ≠ []
  ∧ (py_lower (py_strip (py "Paris")) ∉ _BAD_LOCATIONS geocode_postprocess_py)
  ∧ _GEO_CACHE w !! cache_key_of (py "google") (py_lower (py_strip (py "Paris")))
    = Some sample_cached
  ∧ fst (geocode_google geocode_postprocess_py cfg offline (Some (py "Paris")) w)
    ≠ Ok sample_cached.
Proof.
  cbv zeta. split; [discriminate|]. split; [|split].
  - apply not_bad_by_computation. vm_compute. reflexivity.
  - vm_compute. reflexivity.
  - vm_compute. discriminate.
Qed.

(** ** Failures inside the providers *)

Section provider_failures.
Context {U : Unicode} {R : Runtime}.
Variable sc : script.
Variable cfg : config.
Variable ow : outside.

Lemma cache_store_lookup k v w : _GEO_CACHE (cache_store k v w) !! k = Some v.
Proof. apply lookup_insert_eq. Qed.

Lemma geocode_google_total raw w :
  ∃ d w', geocode_google sc cfg ow raw w = (Ok d, w').
Proof.
  unfold geocode_google.
  repeat (case_match; try (eexists _, _; reflexivity)).
Qed.

Lemma geocode_nominatim_total raw w :
  ∃ d w', geocode_nominatim sc ow raw w = (Ok d, w').
Proof.
  unfold geocode_nominatim.
  repeat (case_match; try (eexists _, _; reflexivity)).
Qed.

(** What [RateLimiter] lets through: never a GeocoderServiceError. *)
Lemma RateLimiter_raises {A} (func : nat → result (option A)) n i e :
  RateLimiter func n i = Raise e → is_GeocoderServiceError e = false.
Proof.
  revert i. induction n as [|n IH]; intros i; simpl;
    destruct (func i) as [res|e'] eqn:F; try discriminate;
    destruct (is_GeocoderServiceError e') eqn:S; try discriminate.
  - by intros [= <-].
  - apply IH.
  - by intros [= <-].
Qed.

(** A service that fails at every attempt looks like one that finds
    nothing. *)
Lemma RateLimiter_swallows {A} (func : nat → result (option A)) n i :
  (∀ j, i ≤ j ≤ i + n →
        ∃ e, func j = Raise e ∧ is_GeocoderServiceError e = true) →
  RateLimiter func n i = Ok None.
Proof.
  revert i. induction n as [|n IH]; intros i H; simpl;
    destruct (H i ltac:(lia)) as (e & -> & ->); [done|].
  apply IH. intros j Hj. apply H. lia.
Qed.

(** Exceptions that reach a provider.  Neither provider ever raises, and an
    exception that reaches the provider's own [try] gives a result with
    status ERROR, stored in the cache under the input's key: for
    [geocode_google] any exception of the request or of the reading of its
    answer; for [geocode_nominatim] a failed import of geopy, an exception
    the rate limiter passes on, or one raised while the location is read. *)
Lemma providers_absorb_raised_exceptions raw w :
  let r := py_strip (default [] raw) in
  let gkey := cache_key_of (py "google") (py_lower r) in
  let nkey := cache_key_of (py "nominatim") (py_lower r) in
  let params := [(py "address", r); (py "key", GOOGLE_MAPS_API_KEY cfg)] in
  let geocode :=
    RateLimiter (λ i, nominatim_geocode ow (user_agent sc) (trace w) i r) 2 in
  (∃ d w', geocode_google sc cfg ow raw w = (Ok d, w')
     ∧ (r ≠ [] → py_lower r ∉ _BAD_LOCATIONS sc →
        GOOGLE_MAPS_API_KEY cfg ≠ [] → _GEO_CACHE w !! gkey = None →
        ∀ e, google_try (py "google") (_geo_no_match (py "google"))
               (requests_get ow (trace w) google_url params) = Raise e →
        status_of d = Some (VStr (py "ERROR"))
        ∧ _GEO_CACHE w' !! gkey = Some d))
  ∧ (∃ d w', geocode_nominatim sc ow raw w = (Ok d, w')
     ∧ (r ≠ [] → py_lower r ∉ _BAD_LOCATIONS sc →
        _GEO_CACHE w !! nkey = None →
        ((∃ e, geopy_import ow (trace w) = Raise e)
         ∨ (∃ u, geopy_import ow (trace w) = Ok u
              ∧ ((∃ e, geocode 0 = Raise e)
                 ∨ (∃ loc e, geocode 0 = Ok (Some loc)
                       ∧ nominatim_record (py "nominatim") loc = Raise e))) →
         status_of d = Some (VStr (py "ERROR"))
         ∧ _GEO_CACHE w' !! nkey = Some d))).
Proof.
  cbn zeta. split.
  - unfold geocode_google.
    destruct (negb (nonempty (py_strip (default [] raw)))
              || bool_decide (py_lower (py_strip (default [] raw))
                              ∈ _BAD_LOCATIONS sc)) eqn:G.
    { eexists _, _. split; [reflexivity|]. intros Hr Hb. exfalso.
      rewrite (bool_decide_eq_false_2 _ Hb) in G.
      by destruct (py_strip (default [] raw)). }
    destruct (negb (nonempty (GOOGLE_MAPS_API_KEY cfg))) eqn:A.
    { eexists _, _. split; [reflexivity|]. intros _ _ Hk. exfalso.
      by destruct (GOOGLE_MAPS_API_KEY cfg). }
    destruct (_GEO_CACHE w !! _) as [cached|] eqn:C.
    { eexists _, _. split; [reflexivity|]. by intros _ _ _ ?. }
    destruct (google_try _ _ _) as [out|e0] eqn:T.
    + eexists _, _. split; [reflexivity|]. by intros _ _ _ _ e ?.
    + eexists _, _. split; [reflexivity|]. intros _ _ _ _ e _.
      split; [reflexivity | apply cache_store_lookup].
  - unfold geocode_nominatim.
    destruct (negb (nonempty (py_strip (default [] raw)))
              || bool_decide (py_lower (py_strip (default [] raw))
                              ∈ _BAD_LOCATIONS sc)) eqn:G.
    { eexists _, _. split; [reflexivity|]. intros Hr Hb. exfalso.
      rewrite (bool_decide_eq_false_2 _ Hb) in G.
      by destruct (py_strip (default [] raw)). }
    destruct (_GEO_CACHE w !! _) as [cached|] eqn:C.
    { eexists _, _. split; [reflexivity|]. by intros _ _ ?. }
    destruct (geopy_import ow (trace w)) as [u|e1] eqn:I.
    2:{ eexists _, _. split; [reflexivity|]. intros _ _ _ _.
        split; [reflexivity | apply cache_store_lookup]. }
    cbv zeta.
    destruct (RateLimiter _ 2 0) as [[loc|]|e2] eqn:N.
    + destruct (nominatim_record _ loc) as [out|e3] eqn:Rc.
      * eexists _, _. split; [reflexivity|]. intros _ _ _.
        intros [[? ?] | (? & _ & [(? & ?) | (? & ? & [= <-] & ?)])];
          congruence.
      * eexists _, _. split; [reflexivity|]. intros _ _ _ _.
        split; [reflexivity | apply cache_store_lookup].
    + eexists _, _. split; [reflexivity|]. intros _ _ _.
      by intros [[? ?] | (? & _ & [(? & ?) | (? & ? & ? & _)])].
    + pose proof (RateLimiter_raises _ _ _ _ N) as S.
      destruct e2; try discriminate S;
        (eexists _, _; split; [reflexivity|]; intros _ _ _ _;
         split; [reflexivity | apply cache_store_lookup]).
Qed.

(** C5, on the failing inputs: a failure of the Nominatim service is not
    reported.  When the pre-checks are passed, the cache misses and each of
    the three attempts of the rate-limited call raises a
    GeocoderServiceError (the service cannot be reached, or refuses the
    request), the rate limiter swallows the exception: [geocode_nominatim]
    returns and caches the record of a query without match.  Its status is
    NO_MATCH, not ERROR, and not OSM_403_BLOCKED either: the handler of
    GeocoderInsufficientPrivileges is never entered. *)
Theorem nominatim_service_errors_give_no_match raw w :
  let r := py_strip (default [] raw) in
  let nkey := cache_key_of (py "nominatim") (py_lower r) in
  r ≠ [] → py_lower r ∉ _BAD_LOCATIONS sc →
  _GEO_CACHE w !! nkey = None →
  (∃ u, geopy_import ow (trace w) = Ok u) →
  (∀ i, i ≤ 2 →
        ∃ e, nominatim_geocode ow (user_agent sc) (trace w) i r = Raise e
             ∧ is_GeocoderServiceError e = true) →
  ∃ d w', geocode_nominatim sc ow raw w = (Ok d, w')
    ∧ d = _geo_no_match (py "nominatim")
    ∧ status_of d = Some (VStr (py "NO_MATCH"))
    ∧ status_of d ≠ Some (VStr (py "ERROR"))
    ∧ status_of d ≠ Some (VStr (py "OSM_403_BLOCKED"))
    ∧ _GEO_CACHE w' !! nkey = Some d
    ∧ trace w' = NominatimGeocode r :: trace w.
Proof.
  cbn zeta. intros Hr Hb C [u I] Hfail.
  unfold geocode_nominatim.
  destruct (negb (nonempty (py_strip (default [] raw)))
            || bool_decide (py_lower (py_strip (default [] raw))
                            ∈ _BAD_LOCATIONS sc)) eqn:G.
  { exfalso. rewrite (bool_decide_eq_false_2 _ Hb) in G.
    by destruct (py_strip (default [] raw)). }
  rewrite C, I. cbv zeta.
  rewrite (RateLimiter_swallows
             (λ i, nominatim_geocode ow (user_agent sc) (trace w) i
                     (py_strip (default [] raw))) 2 0)
    by (intros j Hj; apply Hfail; lia).
  eexists _, _. split; [reflexivity|]. split; [reflexivity|].
  split; [reflexivity|]. split; [vm_compute; discriminate|].
  split; [vm_compute; discriminate|].
  split; [apply cache_store_lookup | reflexivity].
Qed.
End provider_failures.

(** Nominatim cannot be reached, or answers HTTP 403, for "Paris". *)
Lemma nominatim_service_errors_give_no_match_witness :
  let U := sample_unicode in
  let R := sample_runtime in
  (∃ d w', geocode_nominatim geocode_postprocess_py offline
             (Some (py "Paris")) fresh_world = (Ok d, w')
           ∧ status_of d = Some (VStr (py "NO_MATCH"))
           ∧ _GEO_CACHE w' !! py "nominatim:paris" = Some d)
  ∧ (∃ d w', geocode_nominatim lisp_py blocked_outside
               (Some (py "Paris")) fresh_world = (Ok d, w')
             ∧ status_of d = Some (VStr (py "NO_MATCH"))
             ∧ _GEO_CACHE w' !! py "nominatim:paris" = Some d).
Proof.
  intros U R. split.
  - destruct (nominatim_service_errors_give_no_match geocode_postprocess_py
                offline (Some (py "Paris")) fresh_world)
      as (d & w' & E & _ & S & _ & _ & C & _).
    + discriminate.
    + apply not_bad_by_computation. vm_compute. reflexivity.
    + reflexivity.
    + by exists ().
    + intros i _. by exists GeocoderServiceError.
    + by exists d, w'.
  - destruct (nominatim_service_errors_give_no_match lisp_py
                blocked_outside (Some (py "Paris")) fresh_world)
      as (d & w' & E & _ & S & _ & _ & C & _).
    + discriminate.
    + apply not_bad_by_computation. vm_compute. reflexivity.
    + reflexivity.
    + by exists ().
    + intros i _. by exists GeocoderInsufficientPrivileges.
    + by exists d, w'.
Defined.

(** ** Provider dispatch *)

Section dispatch.
Context {U : Unicode} {R : Runtime}.
Variable sc : script.
Variable ow : outside.

Lemma selected_provider_explicit cfg :
  GEO_PROVIDER cfg ≠ [] → selected_provider cfg = GEO_PROVIDER cfg.
Proof. unfold selected_provider. by destruct (GEO_PROVIDER cfg). Qed.

Lemma selected_provider_unset cfg :
  GEO_PROVIDER cfg = [] →
  selected_provider cfg =
    if nonempty (GOOGLE_MAPS_API_KEY cfg) then py "google" else py "nominatim".
Proof. unfold selected_provider. by intros ->. Qed.

(** C8: [geocode_and_normalize] dispatches to [geocode_google] when the
    provider configuration is "google", to [geocode_nominatim] when it is
    "nominatim"; when it is unset, to google if and only if an API key is
    configured and to nominatim otherwise; any other configured name
    gives status UNKNOWN_PROVIDER and no network call. *)
Theorem geocode_and_normalize_dispatch cfg raw w :
  let w0 := emit (GeocodeCall raw) w in
  (GEO_PROVIDER cfg = py "google" →
     geocode_and_normalize sc cfg ow raw w = geocode_google sc cfg ow raw w0)
  ∧ (GEO_PROVIDER cfg = py "nominatim" →
     geocode_and_normalize sc cfg ow raw w = geocode_nominatim sc ow raw w0)
  ∧ (GEO_PROVIDER cfg = py "" → GOOGLE_MAPS_API_KEY cfg ≠ py "" →
     geocode_and_normalize sc cfg ow raw w = geocode_google sc cfg ow raw w0)
  ∧ (GEO_PROVIDER cfg = py "" → GOOGLE_MAPS_API_KEY cfg = py "" →
     geocode_and_normalize sc cfg ow raw w = geocode_nominatim sc ow raw w0)
  ∧ (GEO_PROVIDER cfg ≠ py "" → GEO_PROVIDER cfg ≠ py "google" →
     GEO_PROVIDER cfg ≠ py "nominatim" →
     ∃ d, geocode_and_normalize sc cfg ow raw w = (Ok d, w0)
          ∧ status_of d = Some (VStr (py "UNKNOWN_PROVIDER"))
          ∧ provider_calls w0 = provider_calls w).
Proof.
  cbn zeta. unfold geocode_and_normalize. repeat split.
  - intros E. rewrite selected_provider_explicit by (by rewrite E).
    rewrite E. by rewrite bool_decide_eq_true_2.
  - intros E. rewrite selected_provider_explicit by (by rewrite E).
    rewrite E. done.
  - intros E K. rewrite selected_provider_unset by done.
    destruct (GOOGLE_MAPS_API_KEY cfg); [done|]. done.
  - intros E K. rewrite selected_provider_unset by done. by rewrite K.
  - intros E G N. rewrite selected_provider_explicit by done.
    rewrite !bool_decide_eq_false_2 by done.
    eexists. split; [reflexivity|]. split; reflexivity.
Qed.

(** With neither [GEO_PROVIDER] nor [GOOGLE_MAPS_API_KEY] in the environment
    the community provider is used. *)
Lemma provider_fallback raw w :
  geocode_and_normalize sc (load_config None None) ow raw w
  = geocode_nominatim sc ow raw (emit (GeocodeCall raw) w).
Proof. reflexivity. Qed.
End dispatch.

(** The five cases of the dispatch, run on concrete configurations. *)
Lemma geocode_and_normalize_dispatch_witness :
  let U := sample_unicode in
  let R := sample_runtime in
  let run cfg :=
    geocode_and_normalize geocode_postprocess_py cfg offline
      (Some (py "Paris")) fresh_world in
  let w0 := emit (GeocodeCall (Some (py "Paris"))) fresh_world in
  run (Config (py "google") (py "k"))
    = geocode_google geocode_postprocess_py (Config (py "google") (py "k"))
        offline (Some (py "Paris")) w0
  ∧ run (Config (py "nominatim") (py "k"))
    = geocode_nominatim geocode_postprocess_py offline (Some (py "Paris")) w0
  ∧ run (Config (py "") (py "k"))
    = geocode_google geocode_postprocess_py (Config (py "") (py "k"))
        offline (Some (py "Paris")) w0
  ∧ run (Config (py "") (py ""))
    = geocode_nominatim geocode_postprocess_py offline (Some (py "Paris")) w0
  ∧ ∃ d, run (Config (py "bing") (py "k")) = (Ok d, w0)
         ∧ status_of d = Some (VStr (py "UNKNOWN_PROVIDER"))
         ∧ provider_calls w0 = provider_calls fresh_world.
Proof.
  intros U R run w0.
  split; [|split; [|split; [|split]]].
  - destruct (geocode_and_normalize_dispatch geocode_postprocess_py offline
                (Config (py "google") (py "k")) (Some (py "Paris")) fresh_world)
      as (H & _). apply H. reflexivity.
  - destruct (geocode_and_normalize_dispatch geocode_postprocess_py offline
                (Config (py "nominatim") (py "k")) (Some (py "Paris")) fresh_world)
      as (_ & H & _). apply H. reflexivity.
  - destruct (geocode_and_normalize_dispatch geocode_postprocess_py offline
                (Config (py "") (py "k")) (Some (py "Paris")) fresh_world)
      as (_ & _ & H & _). apply H; [reflexivity | discriminate].
  - destruct (geocode_and_normalize_dispatch geocode_postprocess_py offline
                (Config (py "") (py "")) (Some (py "Paris")) fresh_world)
      as (_ & _ & _ & H & _). apply H; reflexivity.
  - destruct (geocode_and_normalize_dispatch geocode_postprocess_py offline
                (Config (py "bing") (py "k")) (Some (py "Paris")) fresh_world)
      as (_ & _ & _ & _ & H). apply H; discriminate.
Defined.

(** ** [sorted(set(...))] *)

Lemma str_compare_eq a b : str_compare a b = Eq → a = b.
Proof.
  revert b. induction a as [|x a IH]; intros [|y b]; cbn; try done.
  destruct (x ?= y)%N eqn:E; try done.
  apply N.compare_eq in E as ->. by intros ->%IH.
Qed.

Lemma str_compare_refl a : str_compare a a = Eq.
Proof. induction a as [|x a IH]; [done|]. cbn. by rewrite N.compare_refl. Qed.

Lemma str_compare_antisym a b : str_compare b a = CompOpp (str_compare a b).
Proof.
  revert b. induction a as [|x a IH]; intros [|y b]; cbn; try done.
  rewrite (N.compare_antisym x y). destruct (x ?= y)%N; cbn; [apply IH|done..].
Qed.

Lemma str_lt_trans a b c : str_lt a b → str_lt b c → str_lt a c.
Proof.
  unfold str_lt. revert b c.
  induction a as [|x a IH]; intros [|y b] [|z c]; cbn; try done.
  destruct (x ?= y)%N eqn:E1; try done; destruct (y ?= z)%N eqn:E2; try done.
  - apply N.compare_eq in E1 as ->, E2 as ->. rewrite N.compare_refl. apply IH.
  - apply N.compare_eq in E1 as ->. by rewrite E2.
  - apply N.compare_eq in E2 as <-. by rewrite E1.
  - intros _ _. change ((x < y)%N) in E1. change ((y < z)%N) in E2.
    assert (x < z)%N as H by lia. by rewrite H.
Qed.

Lemma str_lt_irrefl a : ¬ str_lt a a.
Proof. unfold str_lt. by rewrite str_compare_refl. Qed.

Lemma insert_uniq_elem x y l : y ∈ insert_uniq x l ↔ y = x ∨ y ∈ l.
Proof.
  induction l as [|z l IH]; cbn.
  - rewrite list_elem_of_singleton, elem_of_nil. tauto.
  - destruct (str_compare x z) eqn:E.
    + apply str_compare_eq in E as ->. rewrite elem_of_cons. tauto.
    + rewrite !elem_of_cons. tauto.
    + rewrite !elem_of_cons, IH. tauto.
Qed.

Lemma insert_uniq_sorted x l :
  StronglySorted str_lt l → StronglySorted str_lt (insert_uniq x l).
Proof.
  induction 1 as [|z l Hs IH Hz]; cbn.
  - by repeat constructor.
  - destruct (str_compare x z) eqn:E.
    + by constructor.
    + constructor; [by constructor|]. constructor; [done|].
      eapply Forall_impl; [exact Hz|]. intros y Hy. by eapply str_lt_trans.
    + constructor; [done|]. apply Forall_forall. intros y Hy.
      apply insert_uniq_elem in Hy as [-> | Hy].
      * unfold str_lt. by rewrite str_compare_antisym, E.
      * by apply (proj1 (Forall_forall _ _) Hz).
Qed.

Lemma sorted_set_sorted l : StronglySorted str_lt (sorted_set l).
Proof.
  induction l as [|x l IH]; [constructor|]. by apply insert_uniq_sorted.
Qed.

Lemma sorted_set_elem x l : x ∈ sorted_set l ↔ x ∈ l.
Proof.
  induction l as [|y l IH]; [done|]. cbn.
  rewrite insert_uniq_elem, elem_of_cons, IH. done.
Qed.

Lemma sorted_NoDup l : StronglySorted str_lt l → NoDup l.
Proof.
  induction 1 as [|z l Hs IH Hz]; constructor; [|done].
  intros Hin. apply (proj1 (Forall_forall _ _) Hz) in Hin.
  by apply str_lt_irrefl in Hin.
Qed.

Lemma sorted_set_NoDup l : NoDup (sorted_set l).
Proof. apply sorted_NoDup, sorted_set_sorted. Qed.

Lemma NoDup_length_le_size (l : list str) (X : gset str) :
  NoDup l → (∀ x, x ∈ l → x ∈ X) → length l ≤ size X.
Proof.
  intros Hn Hsub. unfold size, set_size. cbn.
  apply submseteq_length, NoDup_submseteq; [done|].
  intros x Hx. apply elem_of_elements. by apply Hsub.
Qed.

(** ** Effects of the providers and of the pipeline *)

Lemma count_provider_calls_app evs1 evs2 :
  count_provider_calls (evs1 ++ evs2)
  = count_provider_calls evs1 + count_provider_calls evs2.
Proof. unfold count_provider_calls. by rewrite filter_app, length_app. Qed.

Lemma geocode_calls_app evs1 evs2 :
  geocode_calls (evs1 ++ evs2) = geocode_calls evs1 ++ geocode_calls evs2.
Proof. apply omap_app. Qed.

Section effects.
Context {U : Unicode} {R : Runtime}.
Variable cfg : config.
Variable ow : outside.

Lemma call_ok_refl w : call_ok w w.
Proof.
  exists []. split; [done|]. split; [done|]. split; [cbn; lia|].
  split; [by intros e k ?%elem_of_nil | done].
Qed.

Lemma call_ok_store w key out :
  call_ok w (cache_store key out w).
Proof.
  exists []. split; [done|]. split; [done|]. split; [cbn; lia|]. split.
  - by intros e k ?%elem_of_nil.
  - intros k. cbn. by intros [? _]%lookup_insert_None.
Qed.

Lemma call_ok_request w key out ev :
  is_provider_call ev = true →
  call_key ev = Some key →
  _GEO_CACHE w !! key = None →
  call_ok w (cache_store key out (emit ev w)).
Proof.
  intros Hp Hk Hc. exists [ev]. split; [done|]. split; [|split; [|split]].
  - by destruct ev.
  - unfold count_provider_calls. cbn. rewrite Hp. cbn.
    by rewrite decide_True.
  - intros e k ->%list_elem_of_singleton. rewrite Hk. by intros [= <-].
  - intros k. cbn. by intros [? _]%lookup_insert_None.
Qed.

Lemma geocode_google_effect sc raw w :
  call_ok w (snd (geocode_google sc cfg ow raw w)).
Proof.
  unfold geocode_google.
  repeat (case_match; cbn [snd]; try apply call_ok_refl);
    (apply call_ok_request; [done| |done]);
    cbn [call_key list_to_map foldr fst snd];
    by rewrite lookup_insert_eq.
Qed.

Lemma geocode_nominatim_effect sc raw w :
  call_ok w (snd (geocode_nominatim sc ow raw w)).
Proof.
  unfold geocode_nominatim.
  repeat (case_match; cbn [snd]; try apply call_ok_refl;
          try apply call_ok_store);
    by apply call_ok_request.
Qed.

Lemma geocode_and_normalize_effect sc raw w :
  run_ok [raw] w (snd (geocode_and_normalize sc cfg ow raw w)).
Proof.
  unfold geocode_and_normalize.
  set (w0 := emit (GeocodeCall raw) w).
  assert (∀ w', call_ok w0 w' → run_ok [raw] w w') as Hrun.
  { intros w' (evs & Ht & Hc & Hn & Hk & Hm).
    exists (evs ++ [GeocodeCall raw]). split; [|split; [|split; [|split]]].
    - by rewrite Ht, <- app_assoc.
    - by rewrite geocode_calls_app, Hc.
    - rewrite count_provider_calls_app, geocode_calls_app, Hc.
      change (count_provider_calls [GeocodeCall raw]) with 0. cbn. lia.
    - intros e k [He | ->%list_elem_of_singleton]%elem_of_app; [|done].
      by apply Hk.
    - done. }
  repeat case_match; apply Hrun.
  - apply geocode_google_effect.
  - apply geocode_nominatim_effect.
  - apply call_ok_refl.
Qed.

Lemma save_geo_cache_effect w :
  ∃ ok, trace (save_geo_cache ow w) = CacheWrite ok :: trace w
        ∧ _GEO_CACHE (save_geo_cache ow w) = _GEO_CACHE w.
Proof. unfold save_geo_cache. case_match; eauto. Qed.

Lemma run_ok_trans calls1 calls2 w1 w2 w3 :
  run_ok calls1 w1 w2 → run_ok calls2 w2 w3 →
  run_ok (calls2 ++ calls1) w1 w3.
Proof.
  intros (n1 & Ht1 & Hs1 & Hn1 & Hk1 & Hm1) (n2 & Ht2 & Hs2 & Hn2 & Hk2 & Hm2).
  exists (n2 ++ n1). split; [|split; [|split; [|split]]].
  - by rewrite Ht2, Ht1, app_assoc.
  - rewrite geocode_calls_app. by apply sublist_app.
  - rewrite count_provider_calls_app, geocode_calls_app, length_app. lia.
  - intros e k [He | He]%elem_of_app; [|by apply Hk1].
    intros Hkey. apply Hm1. by eapply Hk2.
  - intros k Hk. by apply Hm1, Hm2.
Qed.

Lemma run_ok_silent calls w w' evs :
  trace w' = evs ++ trace w →
  geocode_calls evs = [] → count_provider_calls evs = 0 →
  (∀ e, e ∈ evs → call_key e = None) →
  _GEO_CACHE w' = _GEO_CACHE w →
  run_ok calls w w'.
Proof.
  intros Ht Hc Hn Hk Hm. exists evs. split; [done|]. split; [|split; [|split]].
  - rewrite Hc. apply sublist_nil_l.
  - lia.
  - intros e k He. by rewrite Hk.
  - by rewrite Hm.
Qed.

Lemma run_ok_refl calls w : run_ok calls w w.
Proof.
  apply (run_ok_silent _ _ _ []); [done..| |done]. by intros e ?%elem_of_nil.
Qed.

Lemma checkpoint_effect n w :
  run_ok [] w
    (if (n mod 50 =? 0)%nat then emit (Sleep Pause) (save_geo_cache ow w) else w).
Proof.
  case_match.
  - destruct (save_geo_cache_effect w) as (ok & Ht & Hc).
    apply (run_ok_silent _ _ _ [Sleep Pause; CacheWrite ok]); cbn; try done.
    + by rewrite Ht.
    + intros e. rewrite !elem_of_cons, elem_of_nil. by intros [-> | [-> | []]].
  - apply run_ok_refl.
Qed.

(** The loop over the unique values. *)
Lemma geocode_uniques_effect uniques geo_map n w :
  run_ok (Some <$> reverse uniques) w
         (snd (geocode_uniques cfg ow uniques geo_map n w)).
Proof.
  revert geo_map n w. induction uniques as [|loc rest IH]; intros geo_map n w.
  - apply run_ok_refl.
  - cbn [geocode_uniques]. rewrite reverse_cons, fmap_app. cbn [fmap list_fmap].
    case_bool_decide.
    + destruct (IH (<[loc := set_status (py "SKIPPED")
                          (_geo_empty (selected_provider cfg))]> geo_map) n w)
        as (new & Ht & Hs & Hrest).
      exists new. split; [done|]. split; [|done].
      by apply sublist_inserts_r.
    + pose proof (geocode_and_normalize_effect geocode_postprocess_py
                    (Some loc) w) as H1.
      destruct (geocode_and_normalize geocode_postprocess_py cfg ow
                  (Some loc) w) as [[geo|e] w1]; cbn [snd] in *.
      * pose proof (run_ok_trans _ _ _ _ _ H1 (checkpoint_effect (S n) w1)) as H2.
        rewrite app_nil_l in H2.
        exact (run_ok_trans _ _ _ _ _ H2 (IH _ _ _)).
      * destruct H1 as (new & Ht & Hs & Hrest).
        exists new. split; [done|]. split; [|done].
        by apply sublist_inserts_l.
Qed.
End effects.

(** ** The dedupe bound of the pipeline *)

Section dedupe.
Context {U : Unicode} {R : Runtime}.
Variable cfg : config.
Variable ow : outside.

Lemma uniques_of_elem cleans c :
  c ∈ uniques_of cleans → c ∈ cleans ∧ c ≠ [].
Proof.
  unfold uniques_of. rewrite sorted_set_elem, list_elem_of_filter.
  intros [Hc Hin]. split; [done|]. by intros ->.
Qed.

Lemma postprocess_file_effect cells w :
  run_ok (Some <$> reverse
            (uniques_of (fst <$> (normalize_location_text <$> cells))))
         (load_geo_cache w)
         (snd (postprocess_file cfg ow (Ok (Some cells)) w)).
Proof.
  unfold postprocess_file.
  pose proof (geocode_uniques_effect cfg ow
    (uniques_of (fst <$> (normalize_location_text <$> cells))) ∅ 0
    (load_geo_cache w)) as H.
  destruct (geocode_uniques cfg ow _ ∅ 0 (load_geo_cache w))
    as [[geo_map|e] w1]; cbn [snd] in *; [|done].
  rewrite <- (app_nil_l (Some <$> _)).
  eapply run_ok_trans; [exact H|].
  destruct (mapM _ _) as [rows|e]; [|apply run_ok_refl].
  destruct (write_any ow (trace w1)) as [u|e]; cbn [snd].
  - destruct (save_geo_cache_effect ow (emit TableWrite w1)) as (ok & Ht & Hc).
    apply (run_ok_silent _ _ _ [CacheWrite ok; TableWrite]); try done.
    intros e'. rewrite !elem_of_cons, elem_of_nil. by intros [-> | [-> | []]].
  - apply (run_ok_silent _ _ _ [TableWrite]); try done.
    by intros e' ->%list_elem_of_singleton.
Qed.

(** C1: for every input table, [postprocess_file] calls the geocode
    provider only on distinct non-empty cleaned values, each at most once,
    hence at most K times for K such values; it sends at most one request
    per call, and none for a value whose cache key is in the cache it
    loaded. *)
Theorem postprocess_file_dedupe cells w :
  let cleans := fst <$> (normalize_location_text <$> cells) in
  let K := size (list_to_set (filter (λ c, c ≠ []) cleans) : gset str) in
  let w' := snd (postprocess_file cfg ow (Ok (Some cells)) w) in
  ∃ new, trace w' = new ++ trace w
    ∧ NoDup (geocode_calls new)
    ∧ (∀ raw, raw ∈ geocode_calls new →
         ∃ c, raw = Some c ∧ c ∈ cleans ∧ c ≠ [])
    ∧ length (geocode_calls new) ≤ K
    ∧ count_provider_calls new ≤ length (geocode_calls new)
    ∧ (∀ e k, e ∈ new → call_key e = Some k →
         _GEO_CACHE (load_geo_cache w) !! k = None).
Proof.
  intros cleans K w'.
  destruct (postprocess_file_effect cells w) as (new & Ht & Hs & Hn & Hk & _).
  fold cleans in Hs. fold w' in Ht.
  pose proof (sorted_set_NoDup
                (filter (λ c, nonempty (py_strip c) = true) cleans)) as Hnd.
  fold (uniques_of cleans) in Hnd.
  exists new. split; [|split; [|split; [|split; [|split]]]].
  - rewrite Ht. f_equal. unfold load_geo_cache. by case_match.
  - refine (sublist_NoDup _ _ _ Hs).
    apply (NoDup_fmap_2 _). by rewrite reverse_Permutation.
  - intros raw Hraw. apply (elem_of_sublist _ _ _ Hraw) in Hs as Hin.
    clear Hraw. rename Hin into Hraw.
    apply list_elem_of_fmap in Hraw as (c & -> & Hc).
    apply elem_of_reverse, uniques_of_elem in Hc. by exists c.
  - apply sublist_length in Hs.
    rewrite length_fmap, length_reverse in Hs.
    etrans; [exact Hs|]. apply NoDup_length_le_size; [done|].
    intros c [Hc Hne]%uniques_of_elem.
    apply elem_of_list_to_set, list_elem_of_filter. done.
  - done.
  - done.
Qed.
End dedupe.

(** The dict literal [_LOCATION_MAP] repeats no key. *)
Lemma location_map_keys_NoDup : NoDup (fst <$> _LOCATION_MAP_items).
Proof. refine (bool_decide_unpack _ _). vm_compute. exact I. Qed.

(** The run of the specification's example: the cells "Paris", "Remote", "",
    "sf", "Paris" lead to two provider calls and two requests, for
    "San Francisco, CA, USA" and "Paris, France". *)
Example postprocess_file_five_cells :
  let U := sample_unicode in
  let R := sample_runtime in
  let cells := VStr <$> strs ["Paris"; "Remote"; ""; "sf"; "Paris"] in
  let run := postprocess_file (Config (py "") (py "k")) zero_results
               (Ok (Some cells)) fresh_world in
  geocode_calls (trace (snd run))
    = [Some (py "San Francisco, CA, USA"); Some (py "Paris, France")]
  ∧ provider_calls (snd run)
    = [ RequestsGet google_url
          [(py "address", py "San Francisco, CA, USA"); (py "key", py "k")];
        RequestsGet google_url
          [(py "address", py "Paris, France"); (py "key", py "k")] ]
  ∧ (owner_location_clean <$>
       match fst run with Ok rows => rows | Raise _ => [] end)
    = strs ["Paris, France"; "remote"; ""; "San Francisco, CA, USA";
            "Paris, France"].
Proof. cbv zeta. repeat split; vm_compute; reflexivity. Qed.

(** ** The resilient GET on 401 and 404 *)

Section fetch.
Context {U : Unicode} {R : Runtime}.
Import Fetch.

(** C6, on the failing input: the GET of [lisp.py] does not stop at a 401.
    Against a server that answers 401 it sends all six requests, sleeping
    between them, and ends with "GET failed after retries". *)
Theorem lisp_get_retries_401 :
  ∃ w', Lisp.get (always 401) api_url fresh_world
          = (Raise (RuntimeError_GetFailed (Some (HTTPError 401))), w')
        ∧ requests_sent w' = 6
        ∧ trace w' =
          [ Sleep (Backoff 6); SessionGet api_url;
            Sleep (Backoff 5); SessionGet api_url;
            Sleep (Backoff 4); SessionGet api_url;
            Sleep (Backoff 3); SessionGet api_url;
            Sleep (Backoff 2); SessionGet api_url;
            Sleep (Backoff 1); SessionGet api_url ].
Proof. eexists. repeat split. Qed.

(** C7, on the failing input: neither GET stops at a 404.  Against a
    server that answers 404 each sends all six requests and ends with
    "GET failed after retries". *)
Theorem get_retries_404 :
  (∃ w', HF.get (always 404) api_url fresh_world
           = (Raise (RuntimeError_GetFailed (Some (HTTPError 404))), w')
         ∧ requests_sent w' = 6)
  ∧ (∃ w', Lisp.get (always 404) api_url fresh_world
             = (Raise (RuntimeError_GetFailed (Some (HTTPError 404))), w')
           ∧ requests_sent w' = 6).
Proof. split; eexists; repeat split. Qed.

(** The GET of [huggingface_retrieval_sourcer_excel.py] does stop at a
    401: whatever happened before, the attempt that receives it raises
    "Unauthorized" at once, after one request and no sleep. *)
Lemma hf_get_loop_stops_at_401 ow remaining attempt last_exc url w resp :
  session_get ow (trace w) url = Ok resp →
  status_code resp = 401%Z →
  get_loop ow HF.try_body (S remaining) attempt last_exc url w
    = (Raise RuntimeError_Unauthorized, emit (SessionGet url) w).
Proof. intros E C. cbn [get_loop]. rewrite E. cbn. by rewrite C. Qed.
End fetch.

(** * Further properties of the scripts *)

(** ** Shape of the cleaned text *)

Lemma bad_locations_tidy :
  set_Forall (λ s : str, py_strip s = s ∧ collapse false s = s)
             (_BAD_LOCATIONS geocode_postprocess_py).
Proof. refine (bool_decide_unpack _ _). vm_compute. exact I. Qed.

Lemma location_map_values_tidy :
  Forall (λ kv : (str * str)%type,
            py_strip (snd kv) = snd kv ∧ collapse false (snd kv) = snd kv)
         _LOCATION_MAP_items.
Proof. refine (bool_decide_unpack _ _). vm_compute. exact I. Qed.

Section tidy.
Context {U : Unicode} {R : Runtime}.

Lemma collapse_fixed_spaced z : collapse false z = z → spaced z.
Proof. intros <-. apply (collapse_spaced z false). Qed.

Lemma outcome_tidy c h : outcome c h → py_strip c = c ∧ spaced c.
Proof.
  destruct 1 as [|s0 Hne Hs Hbad|t Hne Hbad|k v Hkv|t Hne].
  - split; [reflexivity|exact I].
  - destruct (bad_locations_tidy _ Hbad) as [? ?%collapse_fixed_spaced]. done.
  - destruct (bad_locations_tidy _ Hbad) as [? ?%collapse_fixed_spaced]. done.
  - apply location_map_values in Hkv.
    pose proof location_map_values_tidy as HF.
    rewrite Forall_forall in HF.
    destruct (HF _ Hkv) as [? ?%collapse_fixed_spaced]. done.
  - split; [apply strip_by_idemp|apply drop_eu_suffix_spaced].
Qed.

(** X1: for every input, the cleaned text that [normalize_location_text]
    returns has no white space at either end, and inside it every
    white-space character is a single space followed by a visible
    character (no tabs, line breaks or runs of spaces), whichever of the
    four hints it carries. *)
Theorem normalize_clean_text_tidy raw :
  py_strip (fst (normalize_location_text raw)) = fst (normalize_location_text raw)
  ∧ spaced (fst (normalize_location_text raw)).
Proof. exact (outcome_tidy _ _ (normalize_outcome raw)). Qed.

Lemma outcome_skip_sentinel c :
  outcome c (py "SKIP") → c ∈ _BAD_LOCATIONS geocode_postprocess_py.
Proof. by inversion 1. Qed.

Lemma outcome_mapped_value c :
  outcome c (py "MAPPED") → ∃ k, _LOCATION_MAP !! k = Some c.
Proof. inversion 1 as [| | |k v Hkv|]. by exists k. Qed.

(** X2: the hint tells where the cleaned text comes from: with hint SKIP
    the text is one of the sentinels of [_BAD_LOCATIONS] (in lower case),
    with hint MAPPED it is one of the values of [_LOCATION_MAP]. *)
Theorem normalize_hint_meaning raw :
  (snd (normalize_location_text raw) = py "SKIP" →
     fst (normalize_location_text raw) ∈ _BAD_LOCATIONS geocode_postprocess_py)
  ∧ (snd (normalize_location_text raw) = py "MAPPED" →
     ∃ k, _LOCATION_MAP !! k = Some (fst (normalize_location_text raw))).
Proof.
  pose proof (normalize_outcome raw) as H.
  split; intros Hh; rewrite Hh in H.
  - by apply outcome_skip_sentinel.
  - by apply outcome_mapped_value.
Qed.
End tidy.

Section tidy_laws.
Context {U : Unicode} {UL : UnicodeLaws U} {R : Runtime}.

Lemma outcome_skip c : outcome c (py "SKIP") →
  c ∈ _BAD_LOCATIONS geocode_postprocess_py ∧ c ≠ [].
Proof.
  intros H. split.
  - by apply outcome_skip_sentinel.
  - intros Hc. by apply (outcome_empty_iff _ _ H) in Hc.
Qed.
End tidy_laws.

(** ** What a provider call does *)

Section schema.
Context {U : Unicode} {R : Runtime}.
Variable sc : script.
Variable cfg : config.
Variable ow : outside.

Lemma geo_schema_set_status s provider :
  s ≠ [] → geo_schema (set_status s (_geo_empty provider)).
Proof. intros Hs. split; [reflexivity|]. by exists s. Qed.

Lemma geo_schema_no_match s provider :
  s ≠ [] → geo_schema (set_status s (_geo_no_match provider)).
Proof. intros Hs. split; [reflexivity|]. by exists s. Qed.

Lemma geo_schema_record provider a b c d e f g :
  geo_schema (geo_record provider a b c d e f g).
Proof. split; [reflexivity|]. by exists (py "OK"). Qed.

Lemma Ok_inj {A} (a b : A) : Ok a = Ok b → a = b.
Proof. by intros [= ->]. Qed.

Lemma bind_Ok {A B} (r : result A) (f : A → result B) b :
  r ≫= f = Ok b → ∃ a, r = Ok a ∧ f a = Ok b.
Proof. destruct r as [a|e]; [by exists a | done]. Qed.

Lemma geo_schema_status_or s provider :
  geo_schema (dict_set "owner_geocode_status"
                (py_or (VStr s) (VStr (py "ERROR"))) (_geo_no_match provider)).
Proof.
  split; [reflexivity|]. destruct s as [|c s'].
  - by exists (py "ERROR").
  - by exists (c :: s').
Qed.

Lemma google_try_schema provider r d :
  google_try provider (_geo_no_match provider) r = Ok d → geo_schema d.
Proof.
  unfold google_try. intros H.
  do 4 apply bind_Ok in H as (? & _ & H).
  destruct (bool_decide _).
  { apply Ok_inj in H as <-. apply geo_schema_status_or. }
  apply bind_Ok in H as (? & _ & H).
  destruct (negb _).
  { apply Ok_inj in H as <-. by apply (geo_schema_set_status (py "NO_MATCH")). }
  repeat apply bind_Ok in H as (? & _ & H).
  apply Ok_inj in H as <-. apply geo_schema_record.
Qed.

Lemma nominatim_record_schema provider loc d :
  nominatim_record provider loc = Ok d → geo_schema d.
Proof.
  unfold nominatim_record. intros H.
  repeat apply bind_Ok in H as (? & _ & H).
  apply Ok_inj in H as <-. apply geo_schema_record.
Qed.

Lemma guard_cases (r : str) :
  (negb (nonempty r) || bool_decide (py_lower r ∈ _BAD_LOCATIONS sc) = true
   ∧ (r = [] ∨ py_lower r ∈ _BAD_LOCATIONS sc))
  ∨ (negb (nonempty r) || bool_decide (py_lower r ∈ _BAD_LOCATIONS sc) = false
     ∧ r ≠ [] ∧ (py_lower r ∉ _BAD_LOCATIONS sc)).
Proof.
  destruct r as [|c r']; [left; split; [done|by left]|].
  cbn [nonempty negb orb]. case_bool_decide; [left|right]; split; try done.
  by right.
Qed.

Lemma stored_outcome provider r w d evs :
  r ≠ [] → (py_lower r ∉ _BAD_LOCATIONS sc) →
  (provider = py "google" → GOOGLE_MAPS_API_KEY cfg ≠ []) →
  _GEO_CACHE w !! cache_key_of provider (py_lower r) = None →
  Forall (λ e, is_provider_call e = true) evs →
  geo_schema d →
  ∃ d' w',
    (Ok d, cache_store (cache_key_of provider (py_lower r)) d
             (World (_GEO_CACHE w) (cache_on_disk w) (evs ++ trace w)))
    = (Ok d', w')
    ∧ provider_outcome sc cfg provider r w d' w'.
Proof.
  intros Hr Hb Hk Hc He Hd. eexists _, _. split; [reflexivity|].
  exact (served_by_service sc cfg provider r w d evs Hr Hb Hk Hc He Hd).
Qed.

Lemma geocode_nominatim_outcome raw w :
  ∃ d w', geocode_nominatim sc ow raw w = (Ok d, w')
    ∧ provider_outcome sc cfg (py "nominatim")
        (py_strip (default [] raw)) w d w'.
Proof.
  unfold geocode_nominatim.
  set (r := py_strip (default [] raw)).
  destruct (guard_cases r) as [[-> Hg]|(-> & Hr & Hb)].
  { eexists _, _. split; [reflexivity|]. by apply served_by_guard. }
  destruct (_GEO_CACHE w !! _) as [cached|] eqn:Hc.
  { eexists _, _. split; [reflexivity|]. by apply served_from_cache. }
  pose proof (λ d evs, stored_outcome (py "nominatim") r w d evs Hr Hb
                         ltac:(done) Hc) as Hstore.
  destruct (geopy_import ow (trace w)).
  2:{ destruct w. apply (Hstore _ []); [done|]. by apply geo_schema_no_match. }
  cbv zeta.
  destruct (RateLimiter _ 2 0) as [[loc|]|e].
  - destruct (nominatim_record _ loc) eqn:Hrec.
    + apply (Hstore _ [_]); [by repeat constructor|]. by eapply nominatim_record_schema.
    + apply (Hstore _ [_]); [by repeat constructor|]. by apply geo_schema_no_match.
  - apply (Hstore _ [_]); [by repeat constructor|]. by apply (geo_schema_set_status (py "NO_MATCH")).
  - set (st := match e with
                | GeocoderInsufficientPrivileges => py "OSM_403_BLOCKED"
                | _ => py "ERROR"
                end).
    match goal with |- ∃ d w', ?t = _ ∧ _ =>
      assert (t = (Ok (set_status st (_geo_no_match (py "nominatim"))),
                   cache_store (cache_key_of (py "nominatim") (py_lower r))
                     (set_status st (_geo_no_match (py "nominatim")))
                     (emit (NominatimGeocode r) w))) as ->
        by (by destruct e)
    end.
    apply (Hstore _ [_]); [by repeat constructor|]. apply geo_schema_no_match. by destruct e.
Qed.

Lemma geocode_google_outcome raw w :
  ∃ d w', geocode_google sc cfg ow raw w = (Ok d, w')
    ∧ provider_outcome sc cfg (py "google")
        (py_strip (default [] raw)) w d w'.
Proof.
  unfold geocode_google.
  set (r := py_strip (default [] raw)).
  destruct (guard_cases r) as [[-> Hg]|(-> & Hr & Hb)].
  { eexists _, _. split; [reflexivity|]. by apply served_by_guard. }
  destruct (GOOGLE_MAPS_API_KEY cfg) as [|k0 k1] eqn:Hk.
  { eexists _, _. split; [reflexivity|]. by apply served_without_key. }
  cbn [nonempty negb].
  destruct (_GEO_CACHE w !! _) as [cached|] eqn:Hc.
  { eexists _, _. split; [reflexivity|]. apply served_from_cache; try done.
    by rewrite Hk. }
  pose proof (λ d evs, stored_outcome (py "google") r w d evs Hr Hb
                         ltac:(by rewrite Hk) Hc) as Hstore.
  destruct (google_try _ _ _) eqn:Htry.
  - apply (Hstore _ [_]); [by repeat constructor|]. by eapply google_try_schema.
  - apply (Hstore _ [_]); [by repeat constructor|]. by apply geo_schema_no_match.
Qed.

(** What an outcome says about the world after the call. *)
Lemma provider_outcome_cache provider r w d w' :
  provider_outcome sc cfg provider r w d w' →
  _GEO_CACHE w ⊆ _GEO_CACHE w'
  ∧ cache_on_disk w' = cache_on_disk w
  ∧ (∀ k, k ≠ cache_key_of provider (py_lower r) →
          _GEO_CACHE w' !! k = _GEO_CACHE w !! k).
Proof.
  destruct 1 as [| | |d evs _ _ _ Hc _ _]; try done.
  split; [|split; [done|]].
  - by apply insert_subseteq.
  - intros k Hk. cbn. by rewrite lookup_insert_ne.
Qed.

Lemma provider_outcome_schema provider r w d w' :
  provider_outcome sc cfg provider r w d w' →
  map_Forall (λ _, geo_schema) (_GEO_CACHE w) →
  geo_schema d ∧ map_Forall (λ _, geo_schema) (_GEO_CACHE w').
Proof.
  destruct 1 as [Hg| |d ? ? ? Hc|d evs _ _ _ Hc _ Hd]; intros Hw.
  - split; [|done]. apply geo_schema_set_status.
    unfold guard_status. destruct sc; [done|]. by destruct (nonempty r).
  - split; [|done]. by apply geo_schema_set_status.
  - split; [|done]. exact (Hw _ _ Hc).
  - split; [done|]. cbn. by apply map_Forall_insert_2.
Qed.
End schema.

Section second_call.
Context {U : Unicode} {UL : UnicodeLaws U} {R : Runtime}.
Variable sc : script.
Variable cfg : config.

Lemma py_lower_nonempty (s : str) : py_strip s ≠ [] → py_lower (py_strip s) ≠ [].
Proof.
  destruct (py_strip s) as [|c r] eqn:Hs; [done|]. intros _.
  apply lower_from_nonempty. exact (strip_by_head isspace c r s Hs).
Qed.

Lemma provider_outcome_again provider raw raw' w d w1 d2 w2 :
  py_lower (py_strip raw') = py_lower (py_strip raw) →
  provider_outcome sc cfg provider (py_strip raw) w d w1 →
  provider_outcome sc cfg provider (py_strip raw') w1 d2 w2 →
  d2 = d ∧ w2 = w1.
Proof.
  intros Hkey H1 H2.
  assert (py_strip raw' = [] ↔ py_strip raw = []) as Hnil.
  { split; intros E; rewrite E in Hkey.
    - destruct (decide (py_strip raw = [])) as [|Hn]; [done|].
      by apply py_lower_nonempty in Hn.
    - destruct (decide (py_strip raw' = [])) as [|Hn]; [done|].
      by apply py_lower_nonempty in Hn. }
  assert (guard_status sc (py_strip raw') = guard_status sc (py_strip raw))
    as Hgs.
  { unfold guard_status. destruct sc; [done|].
    destruct (py_strip raw') as [|c' r'], (py_strip raw) as [|c r];
      try done; exfalso.
    - by pose proof (proj1 Hnil eq_refl).
    - by pose proof (proj2 Hnil eq_refl). }
  destruct H2 as [Hg2|Hr2 Hb2 Hp2 Hk2|d2 Hr2 Hb2 Hp2 Hc2
                  |d2 evs2 Hr2 Hb2 Hp2 Hc2 He2 Hd2];
    rewrite ?Hkey in *;
    (destruct H1 as [Hg1|Hr1 Hb1 Hp1 Hk1|d Hr1 Hb1 Hp1 Hc1
                     |d evs1 Hr1 Hb1 Hp1 Hc1 He1 Hd1]);
    try (split; [congruence|done]); try (exfalso; tauto).
  - cbn [_GEO_CACHE] in Hc2. rewrite lookup_insert_eq in Hc2.
    by injection Hc2 as <-.
  - exfalso. congruence.
  - exfalso. cbn [_GEO_CACHE] in Hc2. by rewrite lookup_insert_eq in Hc2.
Qed.
End second_call.

Section provider_properties.
Context {U : Unicode} {R : Runtime}.
Variable sc : script.
Variable cfg : config.

(** X4: a provider call never removes or overwrites a cache entry and
    never touches the cache file: the cache before the call is contained
    in the cache after it, and every key other than the call's own
    (provider name, ':', lower-cased trimmed input) is left as it was. *)
Theorem provider_call_preserves_cache ow raw w :
  let key := py_lower (py_strip (default [] raw)) in
  let wn := snd (geocode_nominatim sc ow raw w) in
  let wg := snd (geocode_google sc cfg ow raw w) in
  (_GEO_CACHE w ⊆ _GEO_CACHE wn
   ∧ cache_on_disk wn = cache_on_disk w
   ∧ ∀ k, k ≠ cache_key_of (py "nominatim") key →
          _GEO_CACHE wn !! k = _GEO_CACHE w !! k)
  ∧ (_GEO_CACHE w ⊆ _GEO_CACHE wg
     ∧ cache_on_disk wg = cache_on_disk w
     ∧ ∀ k, k ≠ cache_key_of (py "google") key →
            _GEO_CACHE wg !! k = _GEO_CACHE w !! k).
Proof.
  intros key wn wg. split.
  - destruct (geocode_nominatim_outcome sc cfg ow raw w) as (d & w1 & E & O).
    subst wn. rewrite E. exact (provider_outcome_cache _ _ _ _ _ _ _ O).
  - destruct (geocode_google_outcome sc cfg ow raw w) as (d & w1 & E & O).
    subst wg. rewrite E. exact (provider_outcome_cache _ _ _ _ _ _ _ O).
Qed.

(** X5: the geocode records keep their schema.  If every cache entry is
    a record with exactly the nine geocode columns and a non-empty string
    as status, then [geocode_and_normalize] returns (it never raises) such
    a record, and every cache entry is still one afterwards, whichever
    provider is configured, known or not. *)
Theorem geocode_results_keep_schema ow raw w :
  map_Forall (λ _, geo_schema) (_GEO_CACHE w) →
  ∃ d w1, geocode_and_normalize sc cfg ow raw w = (Ok d, w1)
    ∧ geo_schema d
    ∧ map_Forall (λ _, geo_schema) (_GEO_CACHE w1).
Proof.
  intros Hw. unfold geocode_and_normalize.
  set (w0 := emit (GeocodeCall raw) w).
  repeat case_bool_decide.
  - destruct (geocode_google_outcome sc cfg ow raw w0) as (d & w1 & E & O).
    exists d, w1. split; [done|].
    exact (provider_outcome_schema _ _ _ _ _ _ _ O Hw).
  - destruct (geocode_nominatim_outcome sc cfg ow raw w0) as (d & w1 & E & O).
    exists d, w1. split; [done|].
    exact (provider_outcome_schema _ _ _ _ _ _ _ O Hw).
  - eexists _, _. split; [reflexivity|]. split; [|done].
    by apply geo_schema_set_status.
Qed.
End provider_properties.

Section second_call_properties.
Context {U : Unicode} {UL : UnicodeLaws U} {R : Runtime}.
Variable sc : script.
Variable cfg : config.

(** X3: a provider call repeated on the world it left behind, with any
    raw string of the same lower-cased trimmed text, gives the same result
    and changes nothing: no request is sent and the cache is not written,
    whatever the services would answer the second time.  This holds for
    both providers, in both scripts, also for results with status ERROR,
    NO_MATCH or NO_API_KEY. *)
Theorem provider_second_call_is_served ow ow2 raw raw' w :
  py_lower (py_strip (default [] raw')) = py_lower (py_strip (default [] raw)) →
  geocode_nominatim sc ow2 raw' (snd (geocode_nominatim sc ow raw w))
    = geocode_nominatim sc ow raw w
  ∧ geocode_google sc cfg ow2 raw' (snd (geocode_google sc cfg ow raw w))
    = geocode_google sc cfg ow raw w.
Proof.
  intros Hkey. split.
  - destruct (geocode_nominatim_outcome sc cfg ow raw w) as (d & w1 & E & O).
    rewrite E. cbn [snd].
    destruct (geocode_nominatim_outcome sc cfg ow2 raw' w1)
      as (d2 & w2 & E2 & O2).
    rewrite E2.
    by destruct (provider_outcome_again sc cfg _ _ _ _ _ _ _ _ Hkey O O2)
      as [-> ->].
  - destruct (geocode_google_outcome sc cfg ow raw w) as (d & w1 & E & O).
    rewrite E. cbn [snd].
    destruct (geocode_google_outcome sc cfg ow2 raw' w1)
      as (d2 & w2 & E2 & O2).
    rewrite E2.
    by destruct (provider_outcome_again sc cfg _ _ _ _ _ _ _ _ Hkey O O2)
      as [-> ->].
Qed.
End second_call_properties.

Lemma provider_second_call_is_served_witness :
  let U := sample_unicode in
  let R := sample_runtime in
  let cfg := Config (py "") (py "k") in
  geocode_nominatim geocode_postprocess_py offline (Some (py " PARIS "))
      (snd (geocode_nominatim geocode_postprocess_py zero_results
              (Some (py "Paris")) fresh_world))
    = geocode_nominatim geocode_postprocess_py zero_results
        (Some (py "Paris")) fresh_world
  ∧ geocode_google geocode_postprocess_py cfg offline (Some (py " PARIS "))
      (snd (geocode_google geocode_postprocess_py cfg zero_results
              (Some (py "Paris")) fresh_world))
    = geocode_google geocode_postprocess_py cfg zero_results
        (Some (py "Paris")) fresh_world.
Proof.
  intros U R cfg.
  apply (provider_second_call_is_served (UL := sample_unicode_laws)).
  reflexivity.
Defined.

Lemma geocode_results_keep_schema_witness :
  let U := sample_unicode in
  let R := sample_runtime in
  let w := World (<[py "google:paris" := sample_cached]> ∅) NoFile [] in
  ∃ d w1, geocode_and_normalize geocode_postprocess_py
            (Config (py "") (py "k")) offline (Some (py "Paris")) w
          = (Ok d, w1)
    ∧ geo_schema d
    ∧ map_Forall (λ _, geo_schema) (_GEO_CACHE w1).
Proof.
  intros U R w. apply geocode_results_keep_schema.
  apply map_Forall_insert_2; [|apply map_Forall_empty].
  apply geo_schema_record.
Defined.

(** ** The loop over the unique values *)

Lemma cache_writes_app evs1 evs2 :
  cache_writes (evs1 ++ evs2) = cache_writes evs1 + cache_writes evs2.
Proof. unfold cache_writes. by rewrite filter_app, length_app. Qed.

Lemma provider_events_silent evs :
  Forall (λ e, is_provider_call e = true) evs →
  geocode_calls evs = [] ∧ cache_writes evs = 0.
Proof.
  induction 1 as [|e evs He _ [IH1 IH2]]; [done|].
  split.
  - destruct e; try done.
  - change (e :: evs) with ([e] ++ evs). rewrite cache_writes_app, IH2.
    by destruct e.
Qed.

Lemma div_50_succ n :
  S n / 50 = n / 50 + (if (S n mod 50 =? 0)%nat then 1 else 0).
Proof.
  pose proof (Nat.div_mod_eq n 50) as H1.
  pose proof (Nat.div_mod_eq (S n) 50) as H2.
  pose proof (Nat.mod_upper_bound n 50 ltac:(done)) as H3.
  pose proof (Nat.mod_upper_bound (S n) 50 ltac:(done)) as H4.
  destruct (Nat.eqb_spec (S n mod 50) 0) as [E|E]; lia.
Qed.

Section pipeline_rows.
Context {U : Unicode} {R : Runtime}.
Variable cfg : config.
Variable ow : outside.

Lemma mapM_Ok {A B} (f : A → result B) l l' :
  mapM f l = Ok l' → Forall2 (λ x y, f x = Ok y) l l'.
Proof.
  revert l'. induction l as [|x l IH]; intros l' H.
  - apply Ok_inj in H as <-. constructor.
  - cbn [mapM] in H.
    apply bind_Ok in H as (y & Hy & H). apply bind_Ok in H as (k & Hk & H).
    apply Ok_inj in H as <-. constructor; [done|by apply IH].
Qed.

Lemma provider_outcome_trace sc provider r w d w' :
  provider_outcome sc cfg provider r w d w' →
  ∃ evs, trace w' = evs ++ trace w
         ∧ Forall (λ e, is_provider_call e = true) evs.
Proof.
  destruct 1 as [| | |d evs _ _ _ _ He _]; try (by exists []). by exists evs.
Qed.

(** One dispatched call: it returns a record, and adds to the trace its
    own mark followed by the requests of the provider. *)
Lemma geocode_and_normalize_outcome sc raw w :
  ∃ d w1 evs, geocode_and_normalize sc cfg ow raw w = (Ok d, w1)
    ∧ trace w1 = evs ++ GeocodeCall raw :: trace w
    ∧ Forall (λ e, is_provider_call e = true) evs
    ∧ cache_on_disk w1 = cache_on_disk w
    ∧ (map_Forall (λ _, geo_schema) (_GEO_CACHE w) →
       geo_schema d ∧ map_Forall (λ _, geo_schema) (_GEO_CACHE w1)).
Proof.
  unfold geocode_and_normalize.
  set (w0 := emit (GeocodeCall raw) w).
  repeat case_bool_decide.
  - destruct (geocode_google_outcome sc cfg ow raw w0) as (d & w1 & E & O).
    destruct (provider_outcome_trace _ _ _ _ _ _ O) as (evs & Ht & He).
    exists d, w1, evs. split; [done|]. split; [done|]. split; [done|].
    split; [exact (proj1 (proj2 (provider_outcome_cache _ _ _ _ _ _ _ O)))|].
    exact (provider_outcome_schema _ _ _ _ _ _ _ O).
  - destruct (geocode_nominatim_outcome sc cfg ow raw w0) as (d & w1 & E & O).
    destruct (provider_outcome_trace _ _ _ _ _ _ O) as (evs & Ht & He).
    exists d, w1, evs. split; [done|]. split; [done|]. split; [done|].
    split; [exact (proj1 (proj2 (provider_outcome_cache _ _ _ _ _ _ _ O)))|].
    exact (provider_outcome_schema _ _ _ _ _ _ _ O).
  - eexists _, _, []. split; [reflexivity|]. split; [done|]. split; [done|].
    split; [done|]. intros Hw. split; [|done]. by apply geo_schema_set_status.
Qed.

Lemma checkpoint_trace n w :
  let w' := if (n mod 50 =? 0)%nat
            then emit (Sleep Pause) (save_geo_cache ow w) else w in
  ∃ evs, trace w' = evs ++ trace w
    ∧ geocode_calls evs = []
    ∧ cache_writes evs = (if (n mod 50 =? 0)%nat then 1 else 0)
    ∧ _GEO_CACHE w' = _GEO_CACHE w.
Proof.
  cbn zeta. destruct (n mod 50 =? 0)%nat.
  - destruct (save_geo_cache_effect ow w) as (ok & Ht & Hc).
    exists [Sleep Pause; CacheWrite ok]. cbn [emit trace _GEO_CACHE].
    rewrite Ht. done.
  - by exists [].
Qed.

Lemma geocode_uniques_run uniques gm n w :
  ∃ gm' w' new, geocode_uniques cfg ow uniques gm n w = (Ok gm', w')
    ∧ trace w' = new ++ trace w
    ∧ geocode_calls new
      = Some <$> reverse (filter (λ c, is_sentinel c = false) uniques)
    ∧ cache_writes new = (n + length (geocode_calls new)) / 50 - n / 50
    ∧ (∀ loc, loc ∈ uniques → is_sentinel loc = true →
         gm' !! loc = Some (skipped_record cfg))
    ∧ (∀ loc, loc ∈ uniques → is_Some (gm' !! loc))
    ∧ (∀ loc, loc ∉ uniques → gm' !! loc = gm !! loc)
    ∧ (map_Forall (λ _, geo_schema) gm →
       map_Forall (λ _, geo_schema) (_GEO_CACHE w) →
       map_Forall (λ _, geo_schema) gm'
       ∧ map_Forall (λ _, geo_schema) (_GEO_CACHE w')).
Proof.
  revert gm n w. induction uniques as [|l rest IH]; intros gm n w.
  { exists gm, w, []. split; [reflexivity|]. split; [reflexivity|].
    split; [reflexivity|]. split.
    { change (cache_writes []) with 0.
      change (length (geocode_calls [])) with 0.
      by rewrite Nat.add_0_r, Nat.sub_diag. }
    split; [by intros ? ?%elem_of_nil|].
    split; [by intros ? ?%elem_of_nil|]. done. }
  cbn [geocode_uniques]. fold (is_sentinel l).
  destruct (is_sentinel l) eqn:Hl.
  - destruct (IH (<[l := skipped_record cfg]> gm) n w)
      as (gm' & w' & new & E & Ht & Hcalls & Hwr & Hsk & Hsome & Hout & Hsch).
    exists gm', w', new. split; [exact E|]. split; [done|].
    rewrite filter_cons_False by (by rewrite Hl).
    split; [done|]. split; [done|].
    assert (gm' !! l = Some (skipped_record cfg)) as Hgl.
    { destruct (decide (l ∈ rest)) as [Hin|Hin]; [by apply Hsk|].
      rewrite (Hout _ Hin). apply lookup_insert_eq. }
    split; [|split; [|split]].
    + intros loc [->|Hin]%elem_of_cons Hs; [done|by apply Hsk].
    + intros loc [->|Hin]%elem_of_cons; [by rewrite Hgl|by apply Hsome].
    + intros loc [Hne Hin]%not_elem_of_cons.
      rewrite (Hout _ Hin). by apply lookup_insert_ne.
    + intros Hgm Hw. apply Hsch; [|done].
      apply map_Forall_insert_2; [|done].
      by apply geo_schema_set_status.
  - destruct (geocode_and_normalize_outcome geocode_postprocess_py (Some l) w)
      as (geo & w1 & evs & E1 & Ht1 & He1 & _ & Hs1).
    rewrite E1.
    destruct (checkpoint_trace (S n) w1) as (evs2 & Ht2 & Hc2 & Hw2 & Hcache2).
    cbn zeta in Ht2, Hcache2.
    set (w2 := if (S n mod 50 =? 0)%nat
               then emit (Sleep Pause) (save_geo_cache ow w1) else w1) in *.
    destruct (IH (<[l := geo]> gm) (S n) w2)
      as (gm' & w' & new & E & Ht & Hcalls & Hwr & Hsk & Hsome & Hout & Hsch).
    destruct (provider_events_silent _ He1) as [Hce Hwe].
    exists gm', w', (new ++ evs2 ++ evs ++ [GeocodeCall (Some l)]).
    split; [exact E|].
    rewrite filter_cons_True by done.
    assert (geocode_calls (new ++ evs2 ++ evs ++ [GeocodeCall (Some l)])
            = geocode_calls new ++ [Some l]) as Hcs.
    { rewrite !geocode_calls_app, Hc2, Hce. done. }
    split; [|split; [|split; [|split; [|split; [|split]]]]].
    + rewrite Ht, Ht2, Ht1. by rewrite <- !app_assoc.
    + rewrite Hcs, Hcalls, reverse_cons, fmap_app. done.
    + rewrite Hcs, !cache_writes_app, Hwr, Hw2, Hwe, length_app.
      change (cache_writes [GeocodeCall (Some l)]) with 0.
      change (length [Some l]) with 1.
      pose proof (div_50_succ n) as Hd.
      pose proof (Nat.Div0.div_le_mono (S n) (S n + length (geocode_calls new))
                    50 ltac:(lia)) as Hm.
      replace (n + (length (geocode_calls new) + 1))
        with (S n + length (geocode_calls new)) by lia.
      destruct (S n mod 50 =? 0)%nat; lia.
    + intros loc [->|Hin]%elem_of_cons Hs; [congruence|by apply Hsk].
    + intros loc [->|Hin]%elem_of_cons; [|by apply Hsome].
      destruct (decide (l ∈ rest)) as [Hin|Hin]; [by apply Hsome|].
      rewrite (Hout _ Hin), lookup_insert_eq. by eexists.
    + intros loc [Hne Hin]%not_elem_of_cons.
      rewrite (Hout _ Hin). by apply lookup_insert_ne.
    + intros Hgm Hw. destruct (Hs1 Hw) as [Hgeo Hw1]. apply Hsch.
      * by apply map_Forall_insert_2.
      * by rewrite Hcache2.
Qed.
End pipeline_rows.

(** ** The rows of the output table *)

Lemma sentinels_are_sentinels `{Unicode} :
  set_Forall (λ s : str, s ≠ [] → is_sentinel s = true)
             (_BAD_LOCATIONS geocode_postprocess_py).
Proof. refine (bool_decide_unpack _ _). vm_compute. exact I. Qed.

Section rows.
Context {U : Unicode} {R : Runtime}.
Variable cfg : config.
Variable ow : outside.

Lemma mapM_get_default dflt items cols :
  mapM (λ c, get_method_default c dflt (VDict items)) cols
  = Ok ((λ c, default dflt (items_get c items)) <$> cols).
Proof.
  induction cols as [|c cols IH]; [done|]. cbn [mapM]. by rewrite IH.
Qed.

Lemma broadcast_blank gm :
  broadcast cfg gm [] = Ok (blank_values (selected_provider cfg) (py "EMPTY")).
Proof. reflexivity. Qed.

Lemma broadcast_skipped gm c :
  py_strip c = c → c ≠ [] → gm !! c = Some (skipped_record cfg) →
  broadcast cfg gm c = Ok (blank_values (selected_provider cfg) (py "SKIPPED")).
Proof.
  intros Hs Hc Hgm. unfold broadcast. rewrite Hs, Hgm.
  destruct c; [done|]. reflexivity.
Qed.

Lemma broadcast_total gm c :
  map_Forall (λ _, geo_schema) gm →
  ∃ vals, broadcast cfg gm c = Ok vals.
Proof.
  intros Hgm. unfold broadcast.
  set (geo := if nonempty (py_strip c) then _ else _).
  assert (∃ items, (if truthy geo then geo
                    else _geo_empty (selected_provider cfg)) = VDict items)
    as [items ->].
  { destruct (truthy geo) eqn:Ht; [|by eexists].
    subst geo. destruct (nonempty _); [|done].
    destruct (gm !! py_strip c) as [d|] eqn:Hd; [|done].
    destruct (Hgm _ _ Hd) as [Hk _]. destruct d; try done. by eexists. }
  rewrite mapM_get_default. by eexists.
Qed.

Lemma broadcast_length gm c vals :
  broadcast cfg gm c = Ok vals → length vals = 9.
Proof.
  unfold broadcast. intros H. apply mapM_Ok in H.
  apply Forall2_length in H. by rewrite <- H.
Qed.
End rows.

Section table.
Context {U : Unicode} {R : Runtime}.
Variable cfg : config.
Variable ow : outside.

(** [postprocess_file] on a table that has the column, step by step. *)
Lemma postprocess_file_unfold cells w :
  let normalized := normalize_location_text <$> cells in
  ∃ gm w1 new,
    trace w1 = new ++ trace w
    ∧ geocode_calls new
      = Some <$> reverse (filter (λ c, is_sentinel c = false)
                            (uniques_of (fst <$> normalized)))
    ∧ cache_writes new = length (geocode_calls new) / 50
    ∧ (∀ loc, loc ∈ uniques_of (fst <$> normalized) → is_sentinel loc = true →
         gm !! loc = Some (skipped_record cfg))
    ∧ (map_Forall (λ _, geo_schema) (_GEO_CACHE (load_geo_cache w)) →
       map_Forall (λ _, geo_schema) gm)
    ∧ postprocess_file cfg ow (Ok (Some cells)) w
      = match mapM (row_of cfg gm) normalized with
        | Raise e => (Raise e, w1)
        | Ok rows =>
          match write_any ow (trace w1) with
          | Raise e => (Raise e, emit TableWrite w1)
          | Ok _ => (Ok rows, save_geo_cache ow (emit TableWrite w1))
          end
        end.
Proof.
  intros normalized.
  destruct (geocode_uniques_run cfg ow (uniques_of (fst <$> normalized)) ∅ 0
              (load_geo_cache w))
    as (gm & w1 & new & E & Ht & Hcalls & Hwr & Hsk & _ & _ & Hsch).
  exists gm, w1, new.
  split; [|split; [done|split; [|split; [done|split]]]].
  - rewrite Ht. f_equal. unfold load_geo_cache. by case_match.
  - rewrite Hwr. by rewrite Nat.sub_0_r.
  - intros Hw. by apply Hsch.
  - unfold postprocess_file. fold normalized. by rewrite E.
Qed.

(** The rows of a run that returned, one by one. *)
Lemma postprocess_file_rows_inv cells w rows w' :
  postprocess_file cfg ow (Ok (Some cells)) w = (Ok rows, w') →
  ∃ gm w1 new,
    trace w1 = new ++ trace w
    ∧ geocode_calls new
      = Some <$> reverse (filter (λ c, is_sentinel c = false)
           (uniques_of (fst <$> (normalize_location_text <$> cells))))
    ∧ cache_writes new = length (geocode_calls new) / 50
    ∧ (∀ loc, loc ∈ uniques_of (fst <$> (normalize_location_text <$> cells)) →
         is_sentinel loc = true → gm !! loc = Some (skipped_record cfg))
    ∧ Forall2 (λ cell r, row_of cfg gm (normalize_location_text cell) = Ok r)
              cells rows
    ∧ w' = save_geo_cache ow (emit TableWrite w1).
Proof.
  intros H.
  destruct (postprocess_file_unfold cells w)
    as (gm & w1 & new & Ht & Hcalls & Hwr & Hsk & _ & E).
  rewrite E in H. clear E.
  destruct (mapM _ _) as [rows'|e] eqn:Hrows; [|done].
  destruct (write_any ow (trace w1)); [|done].
  injection H as <- <-.
  exists gm, w1, new. repeat (split; [done|]). split; [|done].
  apply mapM_Ok in Hrows. by apply Forall2_fmap_l in Hrows.
Qed.

Lemma row_of_inv gm ch r :
  row_of cfg gm ch = Ok r →
  owner_location_clean r = ch.1 ∧ owner_location_clean_hint r = ch.2
  ∧ broadcast cfg gm ch.1 = Ok (geo_values r).
Proof.
  unfold row_of. intros H. apply bind_Ok in H as (geo & Hgeo & H).
  apply Ok_inj in H as <-. done.
Qed.
End table.

Section table_properties.
Context {U : Unicode} {R : Runtime}.
Variable cfg : config.
Variable ow : outside.

Lemma clean_text_is_unique cells cell :
  cell ∈ cells →
  fst (normalize_location_text cell) ≠ [] →
  fst (normalize_location_text cell)
  ∈ uniques_of (fst <$> (normalize_location_text <$> cells)).
Proof.
  intros Hin Hne. unfold uniques_of.
  rewrite sorted_set_elem, list_elem_of_filter. split.
  - rewrite (proj1 (outcome_tidy _ _ (normalize_outcome cell))).
    by destruct (fst (normalize_location_text cell)).
  - rewrite <- list_fmap_compose. apply list_elem_of_fmap. by exists cell.
Qed.

(** X6: when [postprocess_file] returns, the output has one row per
    input cell, in the input's order; the row's cleaned text and hint are
    what [normalize_location_text] gives for that cell, and the row has
    nine geocode values. *)
Theorem postprocess_file_rows cells w rows w' :
  postprocess_file cfg ow (Ok (Some cells)) w = (Ok rows, w') →
  (λ r, (owner_location_clean r, owner_location_clean_hint r)) <$> rows
    = normalize_location_text <$> cells
  ∧ Forall (λ r, length (geo_values r) = 9) rows.
Proof.
  intros H.
  destruct (postprocess_file_rows_inv cfg ow _ _ _ _ H)
    as (gm & _ & _ & _ & _ & _ & _ & Hrows & _).
  clear H. induction Hrows as [|cell r cells' rows' Hr _ [IH1 IH2]]; [done|].
  apply row_of_inv in Hr as (Hc & Hh & Hb). split.
  - cbn [fmap list_fmap]. rewrite Hc, Hh. f_equal; [|exact IH1].
    by destruct (normalize_location_text cell).
  - constructor; [|done]. by apply broadcast_length in Hb.
Qed.

(** X8: the records that step 3 of [postprocess_file] reads.  If the
    cache holds only geocode records when the loop over the unique values
    starts, then every entry of the [geo_map] the loop returns is a
    geocode record: whatever the cleaned text of a row, its columns are
    read from a dict, [geo.get(c, "")] raises no AttributeError and the
    row gets nine values. *)
Theorem geo_map_holds_records uniques w gm w1 :
  map_Forall (λ _, geo_schema) (_GEO_CACHE w) →
  geocode_uniques cfg ow uniques ∅ 0 w = (Ok gm, w1) →
  map_Forall (λ _, geo_schema) gm
  ∧ ∀ clean, ∃ vals, broadcast cfg gm clean = Ok vals ∧ length vals = 9.
Proof.
  intros Hw E.
  destruct (geocode_uniques_run cfg ow uniques ∅ 0 w)
    as (gm' & w' & new & E' & _ & _ & _ & _ & _ & _ & Hsch).
  rewrite E in E'. apply (f_equal fst) in E'. apply Ok_inj in E' as <-.
  destruct (Hsch (map_Forall_empty _) Hw) as [Hgm _].
  split; [exact Hgm|]. intros clean.
  destruct (broadcast_total cfg gm clean Hgm) as [vals Hv].
  exists vals. split; [exact Hv|]. by eapply broadcast_length.
Qed.

End table_properties.

Section blank_rows.
Context {U : Unicode} {UL : UnicodeLaws U} {R : Runtime}.
Variable cfg : config.
Variable ow : outside.

(** X7: in the output of [postprocess_file], a row with an empty cleaned
    text has seven empty geocode fields, the selected provider's name and
    status EMPTY; a row with hint SKIP has a non-empty sentinel as cleaned
    text; and a row whose non-empty cleaned text is a sentinel (its
    lower-cased trimmed form is in [_BAD_LOCATIONS]) has seven empty
    fields, the provider's name and status SKIPPED, and its text was
    never handed to [geocode_and_normalize]. *)
Theorem postprocess_file_blank_rows cells w rows w' :
  postprocess_file cfg ow (Ok (Some cells)) w = (Ok rows, w') →
  ∃ new, trace w' = new ++ trace w ∧ ∀ r, r ∈ rows →
    (owner_location_clean r = [] →
       geo_values r = blank_values (selected_provider cfg) (py "EMPTY"))
    ∧ (owner_location_clean_hint r = py "SKIP" →
       owner_location_clean r ≠ [] ∧ is_sentinel (owner_location_clean r) = true)
    ∧ (owner_location_clean r ≠ [] →
       is_sentinel (owner_location_clean r) = true →
       geo_values r = blank_values (selected_provider cfg) (py "SKIPPED")
       ∧ Some (owner_location_clean r) ∉ geocode_calls new).
Proof.
  intros H.
  destruct (postprocess_file_rows_inv cfg ow _ _ _ _ H)
    as (gm & w1 & new & Ht & Hcalls & _ & Hsk & Hrows & ->).
  destruct (save_geo_cache_effect ow (emit TableWrite w1)) as (ok & Hts & _).
  exists (CacheWrite ok :: TableWrite :: new). split.
  { rewrite Hts. cbn [emit trace]. by rewrite Ht. }
  intros r Hr.
  apply list_elem_of_lookup in Hr as [i Hi].
  destruct (Forall2_lookup_r _ _ _ _ _ Hrows Hi) as (cell & Hcell & Hrow).
  apply list_elem_of_lookup_2 in Hcell.
  apply row_of_inv in Hrow as (Hc & Hh & Hb).
  pose proof (normalize_outcome cell) as Hout. rewrite <- Hc, <- Hh in Hout.
  split; [|split].
  - intros E. rewrite <- Hc, E, broadcast_blank in Hb. by apply Ok_inj in Hb.
  - intros E. rewrite E in Hout. destruct (outcome_skip _ Hout) as [Hbad Hne].
    split; [done|]. by apply sentinels_are_sentinels.
  - intros Hne Hs. split.
    + rewrite <- Hc in Hb. rewrite broadcast_skipped in Hb.
      * by apply Ok_inj in Hb.
      * exact (proj1 (outcome_tidy _ _ Hout)).
      * done.
      * apply Hsk; [|done]. rewrite Hc. apply clean_text_is_unique; [done|].
        by rewrite <- Hc.
    + change (geocode_calls (CacheWrite ok :: TableWrite :: new))
        with (geocode_calls new).
      rewrite Hcalls. intros Hin.
      apply list_elem_of_fmap in Hin as (c & [= <-] & Hin).
      apply elem_of_reverse, list_elem_of_filter in Hin as [Hf _]. congruence.
Qed.
End blank_rows.

(** The table "Paris", "Remote", "" with a service that finds nothing. *)
Lemma postprocess_file_rows_witness :
  let U := sample_unicode in
  let R := sample_runtime in
  let cells := VStr <$> strs ["Paris"; "Remote"; ""] in
  let run := postprocess_file (Config (py "") (py "k")) zero_results
               (Ok (Some cells)) fresh_world in
  ∃ rows, fst run = Ok rows
    ∧ (λ r, (owner_location_clean r, owner_location_clean_hint r)) <$> rows
      = normalize_location_text <$> cells
    ∧ Forall (λ r, length (geo_values r) = 9) rows.
Proof.
  intros U R cells run. eexists. split; [vm_compute; reflexivity|].
  apply (postprocess_file_rows (Config (py "") (py "k")) zero_results
           cells fresh_world _ (snd run)).
  vm_compute. reflexivity.
Defined.

Lemma postprocess_file_blank_rows_witness :
  let U := sample_unicode in
  let R := sample_runtime in
  let cfg := Config (py "") (py "k") in
  let cells := VStr <$> strs ["Paris"; "Remote"; ""] in
  let run := postprocess_file cfg zero_results (Ok (Some cells)) fresh_world in
  ∃ rows, fst run = Ok rows ∧
  ∃ new, trace (snd run) = new ++ trace fresh_world ∧ ∀ r, r ∈ rows →
    (owner_location_clean r = [] →
       geo_values r = blank_values (selected_provider cfg) (py "EMPTY"))
    ∧ (owner_location_clean_hint r = py "SKIP" →
       owner_location_clean r ≠ [] ∧ is_sentinel (owner_location_clean r) = true)
    ∧ (owner_location_clean r ≠ [] →
       is_sentinel (owner_location_clean r) = true →
       geo_values r = blank_values (selected_provider cfg) (py "SKIPPED")
       ∧ Some (owner_location_clean r) ∉ geocode_calls new).
Proof.
  intros U R cfg cells run. eexists. split; [vm_compute; reflexivity|].
  apply (postprocess_file_blank_rows (UL := sample_unicode_laws) cfg
           zero_results cells fresh_world _ (snd run)).
  vm_compute. reflexivity.
Defined.

Lemma geo_map_holds_records_witness :
  let U := sample_unicode in
  let R := sample_runtime in
  let cfg := Config (py "") (py "k") in
  let run := geocode_uniques cfg zero_results (strs ["Paris"; "Remote"]) ∅ 0
               fresh_world in
  ∃ gm, fst run = Ok gm
    ∧ map_Forall (λ _, geo_schema) gm
    ∧ ∀ clean, ∃ vals, broadcast cfg gm clean = Ok vals ∧ length vals = 9.
Proof.
  intros U R cfg run.
  destruct run as [[gm|e] w1] eqn:E; [|by vm_compute in E].
  exists gm. split; [reflexivity|].
  apply (geo_map_holds_records cfg zero_results (strs ["Paris"; "Remote"])
           fresh_world gm w1); [apply map_Forall_empty | exact E].
Defined.

(** ** The resilient GET in general *)

Section loop_facts.
Import Fetch.
Variable ow : outside.
Variable tb : nat → result response → world → step.
Hypothesis tb_continued :
  ∀ a r w w', tb a r w = Continued w' → ∃ d, w' = emit (Sleep d) w.
Hypothesis tb_raised : ∀ a r w e w', tb a r w = Raised e w' → w' = w.
Hypothesis tb_returned :
  ∀ a r w resp, tb a r w = Returned resp →
                r = Ok resp ∧ raise_for_status resp = Ok ().

Lemma get_loop_run rem a last url w :
  ∃ new, trace (snd (get_loop ow tb rem a last url w)) = new ++ trace w
    ∧ count_requests new ≤ rem
    ∧ count_sleeps new ≤ count_requests new
    ∧ match fst (get_loop ow tb rem a last url w) with
      | Ok resp =>
        count_sleeps new + 1 = count_requests new
        ∧ raise_for_status resp = Ok ()
        ∧ ∃ t, session_get ow t url = Ok resp
      | Raise e =>
        (∃ l, e = RuntimeError_GetFailed l ∧ count_requests new = rem
              ∧ count_sleeps new = rem)
        ∨ (caught e = false ∧ count_sleeps new + 1 = count_requests new)
      end.
Proof.
  revert a last w. induction rem as [|rem IH]; intros a last w.
  { exists []. cbn. split; [done|]. split; [done|]. split; [done|].
    left. by exists last. }
  cbn [get_loop].
  set (r := session_get ow (trace w) url).
  set (w0 := emit (SessionGet url) w).
  destruct (tb a r w0) as [resp|w1|e w1] eqn:Htb.
  - apply tb_returned in Htb as [Hr Hs].
    exists [SessionGet url]. cbn [fst snd]. split; [done|].
    change (count_requests [SessionGet url]) with 1.
    change (count_sleeps [SessionGet url]) with 0.
    split; [lia|]. split; [lia|]. split; [done|].
    split; [done|]. by exists (trace w).
  - apply tb_continued in Htb as [d ->].
    destruct (IH (S a) last (emit (Sleep d) w0)) as (new & Ht & Hn & Hs & Hres).
    exists (new ++ [Sleep d; SessionGet url]).
    split; [by rewrite Ht, <- app_assoc|].
    unfold count_requests, count_sleeps in *.
    rewrite !filter_app, !length_app.
    change (length (filter _ [Sleep d; SessionGet url])) with 1.
    change (length (filter _ [Sleep d; SessionGet url])) with 1.
    split; [lia|]. split; [lia|].
    destruct (fst (get_loop _ _ _ _ _ _ _)) as [resp|e].
    + destruct Hres as (? & ? & ?). split; [lia|done].
    + destruct Hres as [(l & -> & ? & ?)|[? ?]].
      * left. exists l. split; [done|]. lia.
      * right. split; [done|]. lia.
  - apply tb_raised in Htb as ->.
    destruct (caught e) eqn:Hc.
    + destruct (IH (S a) (Some e) (emit (Sleep (Backoff a)) w0))
        as (new & Ht & Hn & Hs & Hres).
      exists (new ++ [Sleep (Backoff a); SessionGet url]).
      split; [by rewrite Ht, <- app_assoc|].
      unfold count_requests, count_sleeps in *.
      rewrite !filter_app, !length_app.
      change (length (filter _ [Sleep (Backoff a); SessionGet url])) with 1.
      change (length (filter _ [Sleep (Backoff a); SessionGet url])) with 1.
      split; [lia|]. split; [lia|].
      destruct (fst (get_loop _ _ _ _ _ _ _)) as [resp|e'].
      * destruct Hres as (? & ? & ?). split; [lia|done].
      * destruct Hres as [(l & -> & ? & ?)|[? ?]].
        -- left. exists l. split; [done|]. lia.
        -- right. split; [done|]. lia.
    + exists [SessionGet url]. cbn [fst snd]. split; [done|].
      change (count_requests [SessionGet url]) with 1.
      change (count_sleeps [SessionGet url]) with 0.
      split; [lia|]. split; [lia|]. right. done.
Qed.
End loop_facts.

Section gets.
Context {U : Unicode} {R : Runtime}.
Import Fetch.
Variable ow : outside.

Lemma finish_inv resp w :
  match finish resp w with
  | Returned resp' => resp' = resp ∧ raise_for_status resp = Ok ()
  | Continued _ => False
  | Raised _ w' => w' = w
  end.
Proof.
  unfold finish. destruct (raise_for_status resp) as [[]|e]; done.
Qed.

Lemma lisp_try_body_inv a r w :
  match Lisp.try_body ow a r w with
  | Returned resp => r = Ok resp ∧ raise_for_status resp = Ok ()
  | Continued w' => ∃ d, w' = emit (Sleep d) w
  | Raised _ w' => w' = w
  end.
Proof.
  unfold Lisp.try_body. destruct r as [resp|e]; [|done].
  destruct (if (status_code resp =? 401)%Z then _ else _); [|done].
  destruct (_ && _).
  { destruct (int_of_str _); [by eexists|done]. }
  destruct (_ || _); [by eexists|].
  pose proof (finish_inv resp w) as H.
  destruct (finish resp w); [|done|done]. by destruct H as [-> ?].
Qed.

Lemma hf_try_body_inv a r w :
  match HF.try_body a r w with
  | Returned resp => r = Ok resp ∧ raise_for_status resp = Ok ()
  | Continued w' => ∃ d, w' = emit (Sleep d) w
  | Raised _ w' => w' = w
  end.
Proof.
  unfold HF.try_body. destruct r as [resp|e]; [|done].
  destruct (status_code resp =? 401)%Z; [done|].
  destruct (if (status_code resp =? 404)%Z then _ else _); [|done].
  destruct (_ || _); [by eexists|].
  pose proof (finish_inv resp w) as H.
  destruct (finish resp w); [|done|done]. by destruct H as [-> ?].
Qed.

Lemma lisp_get_run url w :
  ∃ new, trace (snd (Lisp.get ow url w)) = new ++ trace w
    ∧ count_requests new ≤ 6
    ∧ count_sleeps new ≤ count_requests new
    ∧ match fst (Lisp.get ow url w) with
      | Ok resp =>
        count_sleeps new + 1 = count_requests new
        ∧ raise_for_status resp = Ok ()
        ∧ ∃ t, session_get ow t url = Ok resp
      | Raise e =>
        (∃ l, e = RuntimeError_GetFailed l ∧ count_requests new = 6
              ∧ count_sleeps new = 6)
        ∨ (caught e = false ∧ count_sleeps new + 1 = count_requests new)
      end.
Proof.
  apply get_loop_run.
  - intros a r w0 w' H. pose proof (lisp_try_body_inv a r w0) as Hi.
    by rewrite H in Hi.
  - intros a r w0 e w' H. pose proof (lisp_try_body_inv a r w0) as Hi.
    by rewrite H in Hi.
  - intros a r w0 resp H. pose proof (lisp_try_body_inv a r w0) as Hi.
    by rewrite H in Hi.
Qed.

Lemma hf_get_run url w :
  ∃ new, trace (snd (HF.get ow url w)) = new ++ trace w
    ∧ count_requests new ≤ 6
    ∧ count_sleeps new ≤ count_requests new
    ∧ match fst (HF.get ow url w) with
      | Ok resp =>
        count_sleeps new + 1 = count_requests new
        ∧ raise_for_status resp = Ok ()
        ∧ ∃ t, session_get ow t url = Ok resp
      | Raise e =>
        (∃ l, e = RuntimeError_GetFailed l ∧ count_requests new = 6
              ∧ count_sleeps new = 6)
        ∨ (caught e = false ∧ count_sleeps new + 1 = count_requests new)
      end.
Proof.
  apply get_loop_run.
  - intros a r w0 w' H. pose proof (hf_try_body_inv a r w0) as Hi.
    by rewrite H in Hi.
  - intros a r w0 e w' H. pose proof (hf_try_body_inv a r w0) as Hi.
    by rewrite H in Hi.
  - intros a r w0 resp H. pose proof (hf_try_body_inv a r w0) as Hi.
    by rewrite H in Hi.
Qed.

Lemma raise_for_status_Ok resp :
  raise_for_status resp = Ok () →
  (status_code resp < 400 ∨ 600 ≤ status_code resp)%Z.
Proof.
  unfold raise_for_status. destruct (_ && _) eqn:H; [done|]. intros _.
  apply andb_false_iff in H as [H|H]; [left|right]; lia.
Qed.
End gets.

Section get_properties.
Context {U : Unicode} {R : Runtime}.
Import Fetch.
Variable ow : outside.

(** X10: both GETs send at most six requests per call, and never sleep
    more often than they send. *)
Theorem get_requests_bounded url w :
  (∃ new, trace (snd (Lisp.get ow url w)) = new ++ trace w
     ∧ count_sleeps new ≤ count_requests new ∧ count_requests new ≤ 6)
  ∧ (∃ new, trace (snd (HF.get ow url w)) = new ++ trace w
       ∧ count_sleeps new ≤ count_requests new ∧ count_requests new ≤ 6).
Proof.
  split.
  - destruct (lisp_get_run ow url w) as (new & ? & ? & ? & _). by exists new.
  - destruct (hf_get_run ow url w) as (new & ? & ? & ? & _). by exists new.
Qed.

(** X11: a response that either GET returns is one the session gave for
    that URL, and its status is not an error status: it is below 400 or
    at least 600. *)
Theorem get_returns_success url w resp :
  fst (Lisp.get ow url w) = Ok resp ∨ fst (HF.get ow url w) = Ok resp →
  (status_code resp < 400 ∨ 600 ≤ status_code resp)%Z
  ∧ ∃ t, session_get ow t url = Ok resp.
Proof.
  intros [H|H].
  - destruct (lisp_get_run ow url w) as (new & _ & _ & _ & Hres).
    rewrite H in Hres. destruct Hres as (_ & Hs & Ht).
    split; [by apply raise_for_status_Ok|done].
  - destruct (hf_get_run ow url w) as (new & _ & _ & _ & Hres).
    rewrite H in Hres. destruct Hres as (_ & Hs & Ht).
    split; [by apply raise_for_status_Ok|done].
Qed.


Lemma get_loop_always_continued tb url :
  (∀ a w, ∃ w', tb a (session_get ow (trace w) url) (emit (SessionGet url) w)
                = Continued w') →
  ∀ rem a last w,
    fst (get_loop ow tb rem a last url w) = Raise (RuntimeError_GetFailed last).
Proof.
  intros Htb rem. induction rem as [|rem IH]; intros a last w; [done|].
  cbn [get_loop]. destruct (Htb a w) as [w' ->]. apply IH.
Qed.

(** X13: against a server that answers every request with 502, 503 or
    504, both GETs end with "GET failed after retries" whose recorded
    cause is None: the attempts that end in [continue] leave [last_exc]
    unset. *)
Theorem get_gateway_errors_lose_cause url w :
  (∀ t, ∃ resp, session_get ow t url = Ok resp
                ∧ status_code resp ∈ [502; 503; 504]%Z) →
  fst (Lisp.get ow url w) = Raise (RuntimeError_GetFailed None)
  ∧ fst (HF.get ow url w) = Raise (RuntimeError_GetFailed None).
Proof.
  intros Hgw. split; apply get_loop_always_continued; intros a w0;
    destruct (Hgw (trace w0)) as (resp & -> & Hs);
    [unfold Lisp.try_body|unfold HF.try_body];
    rewrite !elem_of_cons, elem_of_nil in Hs;
    destruct Hs as [->|[->|[->|[]]]]; by eexists.
Qed.
End get_properties.

Lemma get_returns_success_witness :
  let U := sample_unicode in
  let R := sample_runtime in
  (status_code (status_response 200) < 400
   ∨ 600 ≤ status_code (status_response 200))%Z
  ∧ ∃ t, session_get (always 200) t api_url = Ok (status_response 200).
Proof.
  intros U R.
  apply (get_returns_success (always 200) api_url fresh_world). by left.
Defined.


Lemma get_gateway_errors_lose_cause_witness :
  let U := sample_unicode in
  let R := sample_runtime in
  fst (Lisp.get (always 503) api_url fresh_world)
    = Raise (RuntimeError_GetFailed None)
  ∧ fst (HF.get (always 503) api_url fresh_world)
    = Raise (RuntimeError_GetFailed None).
Proof.
  intros U R. apply get_gateway_errors_lose_cause.
  intros t. exists (status_response 503). split; [done|].
  apply list_elem_of_further, list_elem_of_here.
Defined.

(** ** The owner and author caches *)

Section owner_properties.
Context {U : Unicode} {R : Runtime}.

(** X14: [fetch_owner] only ever adds the entry of the login it was
    asked for: the owner cache before the call is contained in the cache
    after it and other logins are untouched; on an exception the cache is
    unchanged; a returned profile of a non-empty login is the cache entry
    of that login; the call sends at most six requests, and none for an
    empty or cached login. *)
Theorem fetch_owner_effect ow login c w :
  let '(r, c1, w1) := fetch_owner ow login c w in
  c ⊆ c1
  ∧ (∀ k, k ≠ login → c1 !! k = c !! k)
  ∧ (∀ e, r = Raise e → c1 = c)
  ∧ (∀ d, r = Ok d → login ≠ [] → c1 !! login = Some d)
  ∧ ∃ new, trace w1 = new ++ trace w
      ∧ count_requests new ≤ 6
      ∧ (is_Some (c !! login) ∨ login = [] → new = []).
Proof.
  unfold fetch_owner. destruct login as [|l0 l1] eqn:Hl.
  { cbn [nonempty negb]. split; [done|]. split; [done|]. split; [done|].
    split; [by intros d _ []|]. exists []. split; [done|]. split; [|done].
    change (count_requests []) with 0. lia. }
  cbn [nonempty negb]. rewrite <- Hl.
  assert (login ≠ []) as Hne by (by rewrite Hl). clear Hl.
  destruct (c !! login) as [cached|] eqn:Hc.
  { split; [done|]. split; [done|]. split; [done|].
    split; [by intros d [= <-] _|]. exists []. split; [done|]. split; [|done].
    change (count_requests []) with 0. lia. }
  assert (¬ (is_Some (None : option pyval) ∨ login = [])) as Hno.
  { by intros [[? [=]]|?]. }
  destruct (lisp_get_run ow (GITHUB_API ++ py "/users/" ++ login) w)
    as (new & Ht & Hn & _ & _).
  destruct (Lisp.get ow _ w) as [[resp|e] w1]; cbn [snd] in Ht.
  2:{ split; [done|]. split; [done|]. split; [done|]. split; [done|].
      by exists new. }
  destruct (json resp) as [data|e].
  2:{ split; [done|]. split; [done|]. split; [done|]. split; [done|].
      by exists new. }
  split; [by apply insert_subseteq|].
  split; [by intros k Hk; apply lookup_insert_ne|].
  split; [done|].
  split; [by intros d [= <-] _; apply lookup_insert_eq|].
  by exists new.
Qed.

(** X15: [fetch_owner] repeated after it returned gives the same
    profile and changes nothing: no request is sent, whatever the server
    would answer. *)
Theorem fetch_owner_again ow ow2 login c w d c1 w1 :
  fetch_owner ow login c w = (Ok d, c1, w1) →
  fetch_owner ow2 login c1 w1 = (Ok d, c1, w1).
Proof.
  unfold fetch_owner. destruct login as [|l0 l1] eqn:Hl.
  { cbn [nonempty negb]. by intros [= <- <- <-]. }
  cbn [nonempty negb]. rewrite <- Hl. clear Hl.
  destruct (c !! login) as [cached|] eqn:Hc.
  { intros [= <- <- <-]. by rewrite Hc. }
  destruct (Lisp.get ow _ w) as [[resp|e] w']; [|done].
  destruct (json resp) as [data|e]; [|done].
  intros [= <- <- <-]. by rewrite lookup_insert_eq.
Qed.
End owner_properties.

Lemma fetch_owner_again_witness :
  let U := sample_unicode in
  let R := sample_runtime in
  let ow := constant_outside
              (Ok (Response 200 ∅ [0x7B%N]
                     (Ok (VDict [(py "name", VStr (py "The Octocat"))]))))
              (Ok None) in
  let run := fetch_owner ow (py "octocat") ∅ fresh_world in
  ∃ d, run.1.1 = Ok d
    ∧ fetch_owner offline (py "octocat") run.1.2 run.2 = (Ok d, run.1.2, run.2).
Proof.
  intros U R ow run. eexists. split; [vm_compute; reflexivity|].
  apply (fetch_owner_again ow offline (py "octocat") ∅ fresh_world _
           run.1.2 run.2).
  vm_compute. reflexivity.
Defined.

Section author_properties.
Context {L : Urllib}.
Variable ow : outside.

Lemma _fetch_no_retry_run url w :
  ∃ new, trace (snd (_fetch_no_retry ow url w)) = new ++ trace w
    ∧ 1 ≤ count_requests new ≤ 7
    ∧ (refused (session_get ow (trace w) url) →
       _fetch_no_retry ow url w = (VDict [], emit (SessionGet url) w)).
Proof.
  unfold _fetch_no_retry, _fetch_no_retry_try.
  set (w0 := emit (SessionGet url) w).
  assert (∀ (d : pyval) (P : Prop), P →
    ∃ new, trace (snd (d, w0)) = new ++ trace w
      ∧ 1 ≤ count_requests new ≤ 7 ∧ P) as Hone.
  { intros d P HP. exists [SessionGet url]. split; [done|].
    change (count_requests [SessionGet url]) with 1. split; [lia|done]. }
  destruct (session_get ow (trace w) url) as [resp|e]; [|by apply Hone].
  cbn [refused].
  destruct (status_code resp =? 404)%Z eqn:E404; [by apply Hone|].
  destruct (status_code resp =? 401)%Z eqn:E401; [by apply Hone|].
  assert (¬ (status_code resp = 401%Z ∨ status_code resp = 404%Z)) as Hno by lia.
  destruct (_ || _).
  - destruct (hf_get_run ow url w0) as (new & Ht & Hn & _ & _).
    destruct (HF.get ow url w0) as [[resp'|e] w1]; cbn [snd] in Ht.
    + exists (new ++ [SessionGet url]). split.
      { destruct (_ ≫= _); cbn [snd]; by rewrite Ht, <- app_assoc. }
      unfold count_requests in *. rewrite filter_app, length_app.
      change (length (filter _ [SessionGet url])) with 1. split; [lia|done].
    + exists (new ++ [SessionGet url]). split.
      { cbn [snd]. by rewrite Ht, <- app_assoc. }
      unfold count_requests in *. rewrite filter_app, length_app.
      change (length (filter _ [SessionGet url])) with 1. split; [lia|done].
  - destruct (_ ≫= _); by apply Hone.
Qed.

(** A lookup that misses the cache: what it stores and what it sends. *)
Lemma hf_fetch_author_fresh ns a w q :
  ns ≠ [] → _AUTHOR_CACHE a !! ns = None → quote_plus ns = Ok q →
  let user_url := HF_BASE ++ py "/api/users/" ++ q in
  let org_url := HF_BASE ++ py "/api/organizations/" ++ q in
  ∃ d t w1 new,
    hf_fetch_author ow ns a w
    = (Ok d, Authors (<[ns := d]> (_AUTHOR_CACHE a))
                     (<[ns := t]> (_AUTHOR_TYPE_CACHE a)), w1)
    ∧ ((truthy d = true ∧ (t = py "user" ∨ t = py "org"))
       ∨ (d = VDict [] ∧ t = py "unknown"))
    ∧ trace w1 = new ++ trace w
    ∧ 1 ≤ count_requests new ≤ 14
    ∧ (refused (session_get ow (trace w) user_url) →
       refused (session_get ow (SessionGet user_url :: trace w) org_url) →
       d = VDict [] ∧ t = py "unknown"
       ∧ new = [SessionGet org_url; SessionGet user_url]).
Proof.
  intros Hne Hc Hq user_url org_url. unfold hf_fetch_author.
  destruct ns as [|n0 n1] eqn:Hns; [done|]. cbn [nonempty negb].
  rewrite <- Hns in *. clear Hns. rewrite Hc, Hq. fold user_url org_url.
  destruct (_fetch_no_retry_run user_url w) as (new1 & Ht1 & Hn1 & Hr1).
  destruct (_fetch_no_retry ow user_url w) as [data1 w1] eqn:E1.
  cbn [snd] in Ht1.
  destruct (truthy data1) eqn:Hd1.
  { exists data1, (py "user"), w1, new1. unfold py_or. rewrite Hd1.
    split; [done|]. split; [left; split; [done|by left]|].
    split; [done|]. split; [lia|].
    intros Hu _. apply Hr1 in Hu. injection Hu as -> _. done. }
  destruct (_fetch_no_retry_run org_url w1) as (new2 & Ht2 & Hn2 & Hr2).
  destruct (_fetch_no_retry ow org_url w1) as [data2 w2] eqn:E2.
  cbn [snd] in Ht2.
  exists (py_or data2 (VDict [])),
         (if truthy data2 then py "org" else py "unknown"), w2, (new2 ++ new1).
  split; [done|]. split; [|split; [|split]].
  - unfold py_or. destruct (truthy data2) eqn:Hd2.
    + left. split; [done|by right].
    + by right.
  - by rewrite Ht2, Ht1, <- app_assoc.
  - unfold count_requests in *. rewrite filter_app, length_app. lia.
  - intros Hu Ho. apply Hr1 in Hu. injection Hu as -> ->.
    cbn [emit trace] in Hr2. apply Hr2 in Ho. injection Ho as -> ->.
    change ([SessionGet user_url] ++ trace w = new1 ++ trace w) in Ht1.
    apply app_inv_tail in Ht1 as <-.
    change ([SessionGet org_url] ++ trace (emit (SessionGet user_url) w)
            = new2 ++ trace (emit (SessionGet user_url) w)) in Ht2.
    apply app_inv_tail in Ht2 as <-. done.
Qed.

(** The four ways [hf_fetch_author] ends. *)
Lemma hf_fetch_author_cases ns a w :
  (ns = [] ∧ hf_fetch_author ow ns a w = (Ok (VDict []), a, w))
  ∨ (ns ≠ [] ∧ ∃ d, _AUTHOR_CACHE a !! ns = Some d
                    ∧ hf_fetch_author ow ns a w = (Ok d, a, w))
  ∨ (ns ≠ [] ∧ _AUTHOR_CACHE a !! ns = None
     ∧ ∃ e, quote_plus ns = Raise e
            ∧ hf_fetch_author ow ns a w = (Raise e, a, w))
  ∨ (ns ≠ [] ∧ _AUTHOR_CACHE a !! ns = None
     ∧ ∃ d t w1 new,
         hf_fetch_author ow ns a w
         = (Ok d, Authors (<[ns := d]> (_AUTHOR_CACHE a))
                          (<[ns := t]> (_AUTHOR_TYPE_CACHE a)), w1)
         ∧ ((truthy d = true ∧ (t = py "user" ∨ t = py "org"))
            ∨ (d = VDict [] ∧ t = py "unknown"))
         ∧ trace w1 = new ++ trace w
         ∧ 1 ≤ count_requests new ≤ 14).
Proof.
  destruct (decide (ns = [])) as [->|Hne]; [by left|]. right.
  destruct (_AUTHOR_CACHE a !! ns) as [d|] eqn:Hc.
  { left. split; [done|]. exists d. split; [done|].
    unfold hf_fetch_author. rewrite Hc. by destruct ns. }
  right. destruct (quote_plus ns) as [q|e] eqn:Hq.
  - right. split; [done|]. split; [done|].
    destruct (hf_fetch_author_fresh ns a w q Hne Hc Hq)
      as (d & t & w1 & new & E & Hd & Ht & Hn & _).
    by exists d, t, w1, new.
  - left. split; [done|]. split; [done|]. exists e. split; [done|].
    unfold hf_fetch_author. rewrite Hc, Hq. by destruct ns.
Qed.

(** X16: [hf_fetch_author] repeated after it returned gives the same
    profile and changes nothing: no request is sent and neither cache is
    written. *)
Theorem hf_fetch_author_again ow2 ns a w d a1 w1 :
  hf_fetch_author ow ns a w = (Ok d, a1, w1) →
  hf_fetch_author ow2 ns a1 w1 = (Ok d, a1, w1).
Proof.
  destruct (hf_fetch_author_cases ns a w)
    as [[-> E]|[(Hne & d' & Hc & E)|[(Hne & Hc & e & _ & E)
       |(Hne & Hc & d' & t & w' & new & E & _)]]];
    rewrite E; intros [= <- <- <-]; try done.
  - unfold hf_fetch_author. rewrite Hc. by destruct ns.
  - unfold hf_fetch_author. cbn [_AUTHOR_CACHE].
    rewrite lookup_insert_eq. by destruct ns.
Qed.

(** X17: [hf_fetch_author] keeps its two caches in step: if before the
    call a namespace has a type exactly when it has a profile, with type
    "unknown" for the empty profile and "user" or "org" for a non-empty
    one, the same holds after the call; and when [is_org] then answers
    True, the namespace is cached with type "org" and a non-empty
    profile. *)
Theorem hf_fetch_author_consistent ns a w :
  authors_consistent a →
  authors_consistent (snd (fst (hf_fetch_author ow ns a w)))
  ∧ ∀ a1 w1, is_org ow ns a w = (Ok true, a1, w1) →
      _AUTHOR_TYPE_CACHE a1 !! ns = Some (py "org")
      ∧ ∃ d, _AUTHOR_CACHE a1 !! ns = Some d ∧ truthy d = true.
Proof.
  intros Ha.
  assert (authors_consistent (snd (fst (hf_fetch_author ow ns a w)))) as Ha1.
  { destruct (hf_fetch_author_cases ns a w)
      as [[-> E]|[(Hne & d' & Hc & E)|[(Hne & Hc & e & _ & E)
         |(Hne & Hc & d' & t & w' & new & E & Hd & _)]]];
      rewrite E; try done.
    intros k. cbn [fst snd _AUTHOR_CACHE _AUTHOR_TYPE_CACHE].
    destruct (decide (k = ns)) as [->|Hk].
    - rewrite !lookup_insert_eq. by exists d'.
    - rewrite !lookup_insert_ne by done. apply Ha. }
  split; [done|]. intros a1 w1. unfold is_org.
  destruct (hf_fetch_author ow ns a w) as [[[d|e] a'] w']; [|done].
  cbn [fst snd] in Ha1. intros [= Ht <- <-].
  apply bool_decide_eq_true in Ht. specialize (Ha1 ns).
  destruct (_AUTHOR_TYPE_CACHE a' !! ns) as [t|]; [|done].
  change (t = py "org") in Ht. subst t. split; [done|].
  destruct Ha1 as (d0 & Hd0 & [[Htr _]|[_ [=]]]). by exists d0.
Qed.

(** X18: [hf_fetch_author] sends at most fourteen requests; it sends
    none and leaves both caches as they are for an empty namespace, a
    cached one, or when it raises; and it never touches the entries of
    another namespace. *)
Theorem hf_fetch_author_effect ns a w :
  let '(r, a1, w1) := hf_fetch_author ow ns a w in
  ∃ new, trace w1 = new ++ trace w
    ∧ count_requests new ≤ 14
    ∧ (ns = [] ∨ is_Some (_AUTHOR_CACHE a !! ns) ∨ (∃ e, r = Raise e) →
       new = [] ∧ a1 = a)
    ∧ (∀ k, k ≠ ns →
         _AUTHOR_CACHE a1 !! k = _AUTHOR_CACHE a !! k
         ∧ _AUTHOR_TYPE_CACHE a1 !! k = _AUTHOR_TYPE_CACHE a !! k).
Proof.
  assert (count_requests [] ≤ 14) as H0.
  { change (count_requests []) with 0. lia. }
  destruct (hf_fetch_author_cases ns a w)
    as [[-> E]|[(Hne & d' & Hc & E)|[(Hne & Hc & e & _ & E)
       |(Hne & Hc & d' & t & w' & new & E & _ & Ht & Hn)]]];
    rewrite E; try (by exists []).
  exists new. split; [done|]. split; [lia|]. split.
  - intros [?|[[? Hs]|[? [=]]]]; [done|]. by rewrite Hc in Hs.
  - intros k Hk. cbn [_AUTHOR_CACHE _AUTHOR_TYPE_CACHE].
    by rewrite !lookup_insert_ne.
Qed.

(** X19: [hf_fetch_author] swallows refusals: when the request to the
    user endpoint and then the request to the organization endpoint each
    fail with an exception or are answered 401 or 404, the call returns
    the empty profile after exactly these two requests, without retry and
    without raising, and caches the namespace as "unknown". *)
Theorem hf_fetch_author_swallows_refusals ns a w q :
  ns ≠ [] → _AUTHOR_CACHE a !! ns = None → quote_plus ns = Ok q →
  let user_url := HF_BASE ++ py "/api/users/" ++ q in
  let org_url := HF_BASE ++ py "/api/organizations/" ++ q in
  refused (session_get ow (trace w) user_url) →
  refused (session_get ow (SessionGet user_url :: trace w) org_url) →
  ∃ w1, hf_fetch_author ow ns a w
        = (Ok (VDict []),
           Authors (<[ns := VDict []]> (_AUTHOR_CACHE a))
                   (<[ns := py "unknown"]> (_AUTHOR_TYPE_CACHE a)), w1)
    ∧ trace w1 = SessionGet org_url :: SessionGet user_url :: trace w.
Proof.
  intros Hne Hc Hq user_url org_url Hu Ho.
  destruct (hf_fetch_author_fresh ns a w q Hne Hc Hq)
    as (d & t & w1 & new & E & _ & Ht & _ & Hr).
  destruct (Hr Hu Ho) as (-> & -> & ->). by exists w1.
Qed.
End author_properties.

Lemma hf_fetch_author_again_witness :
  let L := sample_urllib in
  let run := hf_fetch_author (always 404) (py "octocat") no_authors
               fresh_world in
  ∃ d, run.1.1 = Ok d
    ∧ hf_fetch_author offline (py "octocat") run.1.2 run.2
      = (Ok d, run.1.2, run.2).
Proof.
  intros L run. eexists. split; [vm_compute; reflexivity|].
  apply (hf_fetch_author_again (always 404) offline (py "octocat")
           no_authors fresh_world _ run.1.2 run.2).
  vm_compute. reflexivity.
Defined.

Lemma hf_fetch_author_consistent_witness :
  let L := sample_urllib in
  authors_consistent
    (snd (fst (hf_fetch_author (always 404) (py "octocat") no_authors
                 fresh_world)))
  ∧ ∀ a1 w1,
      is_org (always 404) (py "octocat") no_authors fresh_world
        = (Ok true, a1, w1) →
      _AUTHOR_TYPE_CACHE a1 !! py "octocat" = Some (py "org")
      ∧ ∃ d, _AUTHOR_CACHE a1 !! py "octocat" = Some d ∧ truthy d = true.
Proof.
  intros L. apply hf_fetch_author_consistent. intros ns.
  cbn [no_authors _AUTHOR_TYPE_CACHE _AUTHOR_CACHE].
  by rewrite !lookup_empty.
Defined.

Lemma hf_fetch_author_swallows_refusals_witness :
  let L := sample_urllib in
  let user_url := py "https://huggingface.co/api/users/octocat" in
  let org_url := py "https://huggingface.co/api/organizations/octocat" in
  ∃ w1, hf_fetch_author (always 401) (py "octocat") no_authors fresh_world
        = (Ok (VDict []),
           Authors (<[py "octocat" := VDict []]> ∅)
                   (<[py "octocat" := py "unknown"]> ∅), w1)
    ∧ trace w1 = [SessionGet org_url; SessionGet user_url].
Proof.
  intros L user_url org_url.
  apply (hf_fetch_author_swallows_refusals (always 401) (py "octocat")
           no_authors fresh_world (py "octocat")).
  - done.
  - done.
  - done.
  - by left.
  - by left.
Defined.

(** ** The table and the cache *)

Section table_and_cache.
Context {U : Unicode} {UL : UnicodeLaws U} {R : Runtime}.
Variable cfg : config.
Variable ow : outside.

(** A call on a stripped text that the loop does not skip ends with its
    result in the cache. *)
Lemma geocode_and_normalize_cached loc w :
  caching_provider cfg →
  py_strip loc = loc → loc ≠ [] → is_sentinel loc = false →
  ∃ d w1, geocode_and_normalize geocode_postprocess_py cfg ow (Some loc) w
          = (Ok d, w1)
    ∧ _GEO_CACHE w ⊆ _GEO_CACHE w1
    ∧ _GEO_CACHE w1 !! cache_key_of (selected_provider cfg) (py_lower loc)
      = Some d.
Proof.
  intros Hp Hs Hne Hsent.
  assert (py_lower loc ∉ _BAD_LOCATIONS geocode_postprocess_py) as Hbad.
  { apply bool_decide_eq_false in Hsent.
    by rewrite (py_lower_strip_fixed loc Hs) in Hsent. }
  assert (∀ provider d w1,
    provider = selected_provider cfg →
    provider_outcome geocode_postprocess_py cfg provider
      (py_strip (default [] (Some loc))) (emit (GeocodeCall (Some loc)) w)
      d w1 →
    _GEO_CACHE w ⊆ _GEO_CACHE w1
    ∧ _GEO_CACHE w1 !! cache_key_of (selected_provider cfg) (py_lower loc)
      = Some d) as Hout.
  { intros provider d w1 -> O.
    change (default [] (Some loc)) with loc in O. rewrite Hs in O.
    split; [exact (proj1 (provider_outcome_cache _ _ _ _ _ _ _ O))|].
    destruct O as [[?|?]|_ _ Hg Hk|d _ _ _ Hc|d evs _ _ _ Hc _ _]; try done.
    - destruct Hp as [Hn|[_ Hkey]]; [|done]. by rewrite Hn in Hg.
    - cbn [_GEO_CACHE]. apply lookup_insert_eq. }
  unfold geocode_and_normalize.
  destruct Hp as [Hn|[Hg Hkey]].
  - rewrite Hn. rewrite bool_decide_eq_false_2 by done.
    rewrite bool_decide_eq_true_2 by done.
    destruct (geocode_nominatim_outcome geocode_postprocess_py cfg ow
                (Some loc) (emit (GeocodeCall (Some loc)) w))
      as (d & w1 & E & O).
    exists d, w1. split; [done|]. rewrite <- Hn. by apply (Hout _ _ _ (eq_sym Hn)) in O.
  - rewrite Hg. rewrite bool_decide_eq_true_2 by done.
    destruct (geocode_google_outcome geocode_postprocess_py cfg ow
                (Some loc) (emit (GeocodeCall (Some loc)) w))
      as (d & w1 & E & O).
    exists d, w1. split; [done|]. rewrite <- Hg. by apply (Hout _ _ _ (eq_sym Hg)) in O.
Qed.

(** The loop keeps what it has geocoded in step with the cache. *)
Lemma geocode_uniques_cached uniques gm n w gm' w' :
  caching_provider cfg →
  Forall (λ c, py_strip c = c ∧ c ≠ []) uniques →
  (∀ loc d, is_sentinel loc = false → gm !! loc = Some d →
     _GEO_CACHE w !! cache_key_of (selected_provider cfg) (py_lower loc)
     = Some d) →
  geocode_uniques cfg ow uniques gm n w = (Ok gm', w') →
  ∀ loc d, is_sentinel loc = false → gm' !! loc = Some d →
    _GEO_CACHE w' !! cache_key_of (selected_provider cfg) (py_lower loc)
    = Some d.
Proof.
  intros Hp Hu. revert gm n w.
  induction Hu as [|l rest [Hs Hne] _ IH]; intros gm n w Hinv E.
  { injection E as <- <-. exact Hinv. }
  cbn [geocode_uniques] in E. fold (is_sentinel l) in E.
  destruct (is_sentinel l) eqn:Hl.
  - eapply IH; [|exact E]. intros loc d Hloc Hd.
    apply Hinv; [done|]. rewrite lookup_insert_ne in Hd; [done|].
    intros ->. congruence.
  - destruct (geocode_and_normalize_cached l w Hp Hs Hne Hl)
      as (geo & w1 & E1 & Hsub & Hgeo).
    rewrite E1 in E.
    destruct (checkpoint_trace ow (S n) w1) as (_ & _ & _ & _ & Hcache).
    cbn zeta in Hcache.
    eapply IH; [|exact E]. intros loc d Hloc Hd. rewrite Hcache.
    destruct (decide (loc = l)) as [->|Hll].
    + rewrite lookup_insert_eq in Hd. by injection Hd as <-.
    + rewrite lookup_insert_ne in Hd by done.
      eapply lookup_weaken; [|exact Hsub]. by apply Hinv.
Qed.

Lemma broadcast_columns gm c :
  py_strip c = c → c ≠ [] →
  broadcast cfg gm c = columns_of cfg (default VNone (gm !! c)).
Proof. intros Hs Hne. unfold broadcast. rewrite Hs. by destruct c. Qed.

(** X21: with a provider that stores its results (Nominatim, or Google
    with an API key), every row of the output of [postprocess_file] whose
    cleaned text is neither empty nor a sentinel shows the columns of the
    entry the cache holds for that text when the run ends: the cache key
    is the provider's name, ':', and the lower-cased cleaned text. *)
Theorem postprocess_file_rows_match_cache cells w rows w' :
  caching_provider cfg →
  postprocess_file cfg ow (Ok (Some cells)) w = (Ok rows, w') →
  ∀ r, r ∈ rows →
    owner_location_clean r ≠ [] →
    is_sentinel (owner_location_clean r) = false →
    ∃ d, _GEO_CACHE w' !! cache_key_of (selected_provider cfg)
                             (py_lower (owner_location_clean r)) = Some d
      ∧ columns_of cfg d = Ok (geo_values r).
Proof.
  intros Hp H r Hr Hne Hsent.
  set (uniques := uniques_of (fst <$> (normalize_location_text <$> cells))).
  destruct (geocode_uniques_run cfg ow uniques ∅ 0 (load_geo_cache w))
    as (gm & w1 & new & E & _ & _ & _ & _ & Hsome & _).
  assert (Forall (λ c, py_strip c = c ∧ c ≠ []) uniques) as Hu.
  { apply Forall_forall. intros c Hc.
    apply uniques_of_elem in Hc as [Hc Hcne]. split; [|done].
    apply list_elem_of_fmap in Hc as ([c0 h0] & -> & Hc).
    apply list_elem_of_fmap in Hc as (cell & Hcell & _).
    pose proof (outcome_tidy _ _ (normalize_outcome cell)) as [Ht _].
    by rewrite <- Hcell in Ht. }
  pose proof (geocode_uniques_cached _ _ _ _ _ _ Hp Hu
                ltac:(by intros ? ? _ ?%lookup_empty_Some) E) as Hinv.
  unfold postprocess_file in H. fold uniques in H. rewrite E in H.
  destruct (mapM _ _) as [rows'|e] eqn:Hrows; [|done].
  destruct (write_any ow (trace w1)); [|done].
  injection H as <- <-.
  apply mapM_Ok in Hrows. apply list_elem_of_lookup in Hr as [i Hi].
  destruct (Forall2_lookup_r _ _ _ _ _ Hrows Hi) as ([c h] & Hch & Hrow).
  apply list_elem_of_lookup_2 in Hch.
  apply bind_Ok in Hrow as (geo & Hgeo & Hrow). apply Ok_inj in Hrow as <-.
  cbn [owner_location_clean geo_values fst snd] in *.
  assert (py_strip c = c) as Hs.
  { apply list_elem_of_fmap in Hch as (cell & Hcell & _).
    pose proof (outcome_tidy _ _ (normalize_outcome cell)) as [Ht _].
    by rewrite <- Hcell in Ht. }
  assert (c ∈ uniques) as Hcu.
  { unfold uniques, uniques_of. rewrite sorted_set_elem, list_elem_of_filter.
    split; [rewrite Hs; by destruct c|].
    apply list_elem_of_fmap. by exists (c, h). }
  destruct (Hsome c Hcu) as [d Hd]. exists d. split.
  - destruct (save_geo_cache_effect ow (emit TableWrite w1)) as (ok & _ & ->).
    by apply Hinv.
  - rewrite broadcast_columns in Hgeo by done. by rewrite Hd in Hgeo.
Qed.
End table_and_cache.

Lemma postprocess_file_rows_match_cache_witness :
  let U := sample_unicode in
  let R := sample_runtime in
  let cfg := Config (py "") (py "k") in
  let cells := VStr <$> strs ["Paris"; "Remote"; ""] in
  let run := postprocess_file cfg zero_results (Ok (Some cells)) fresh_world in
  ∃ rows, fst run = Ok rows ∧
  ∀ r, r ∈ rows →
    owner_location_clean r ≠ [] →
    is_sentinel (owner_location_clean r) = false →
    ∃ d, _GEO_CACHE (snd run) !! cache_key_of (selected_provider cfg)
                             (py_lower (owner_location_clean r)) = Some d
      ∧ columns_of cfg d = Ok (geo_values r).
Proof.
  intros U R cfg cells run. eexists. split; [vm_compute; reflexivity|].
  apply (postprocess_file_rows_match_cache (UL := sample_unicode_laws) cfg
           zero_results cells fresh_world _ (snd run)).
  - right. done.
  - vm_compute. reflexivity.
Defined.

(** ** Links *)

Section link_lemmas.
Context {U : Unicode} {L : Urllib}.

Lemma lower_from_latin1 before c (s : str) :
  (c <? 256)%N = true →
  lower_from before (c :: s) = lower_latin1 c :: lower_from (before ++ [c]) s.
Proof. intros Hc. cbn [lower_from]. unfold lower_char. by rewrite Hc. Qed.

Lemma startswith_app (prefix s : str) : startswith prefix (prefix ++ s) = true.
Proof. apply bool_decide_eq_true_2. by exists s. Qed.

Lemma https_scheme_seen (s : str) :
  startswith (py "https://") (py_lower (py "https://" ++ s)) = true.
Proof.
  unfold py_lower. change (py "https://" ++ s)
    with (104 :: 116 :: 116 :: 112 :: 115 :: 58 :: 47 :: 47 :: s)%N.
  rewrite !lower_from_latin1 by reflexivity.
  apply bool_decide_eq_true_2. by eexists.
Qed.

Lemma https_prefix_stripped (s : str) :
  s ≠ [] → py_strip s = s → py_strip (py "https://" ++ s) = py "https://" ++ s.
Proof.
  intros Hne Hs. apply strip_by_fixed.
  - by intros c [= <-].
  - intros c Hc. rewrite last_app in Hc.
    destruct (last s) as [c'|] eqn:Hl.
    + injection Hc as <-. rewrite <- Hs in Hl. by apply strip_by_last in Hl.
    + by apply last_None in Hl.
Qed.

(** The two ways [normalize_url] answers: the empty string, or a stripped
    URL with a scheme and a host. *)
Lemma normalize_url_cases url :
  normalize_url url = []
  ∨ (normalize_url url ≠ []
     ∧ py_strip (normalize_url url) = normalize_url url
     ∧ startswith (py "http://") (py_lower (normalize_url url))
       || startswith (py "https://") (py_lower (normalize_url url)) = true
     ∧ ∃ netloc, urlparse_netloc (normalize_url url) = Ok netloc
                 ∧ netloc ≠ []).
Proof.
  unfold normalize_url. destruct url as [|u0 u1]; [by left|].
  cbn [nonempty negb]. set (url := u0 :: u1).
  destruct (py_strip url) as [|s0 s1] eqn:Hs; [by left|].
  cbn [nonempty negb]. rewrite <- Hs.
  assert (py_strip url ≠ []) as Hne by (by rewrite Hs).
  assert (py_strip (py_strip url) = py_strip url) as Hidem
    by apply strip_by_idemp.
  clear Hs. set (s := py_strip url) in *.
  destruct (startswith (py "http://") (py_lower s)
            || startswith (py "https://") (py_lower s)) eqn:Hscheme;
    cbn [negb].
  - destruct (urlparse_netloc s) as [[|n0 n1]|e] eqn:Hn; [by left| |by left].
    right. cbn [nonempty]. split; [done|]. split; [done|]. split; [done|].
    by eexists.
  - destruct (urlparse_netloc (py "https://" ++ s)) as [[|n0 n1]|e] eqn:Hn;
      [by left| |by left].
    right. cbn [nonempty]. split; [done|].
    split; [by apply https_prefix_stripped|].
    split; [by rewrite https_scheme_seen, orb_true_r|]. by eexists.
Qed.

Lemma normalize_url_fixed url : normalize_url (normalize_url url) = normalize_url url.
Proof.
  destruct (normalize_url_cases url) as [->|(Hne & Hs & Hscheme & n & Hn & Hnn)];
    [done|].
  set (r := normalize_url url) in *. unfold normalize_url at 1.
  destruct r as [|r0 r1] eqn:Hr; [done|]. cbn [nonempty negb].
  rewrite <- Hr in *. rewrite Hs. rewrite Hr at 1. cbn [nonempty negb].
  rewrite Hscheme. cbn [negb]. rewrite Hn. by destruct n.
Qed.
End link_lemmas.

Section link_properties.
Context {U : Unicode} {L : Urllib}.

(** X22: [normalize_url] answers either the empty string or a link
    without white space at its ends, whose lower-cased form starts with
    "http://" or "https://" and in which [urlparse] finds a non-empty
    host; and it is idempotent: a link it returned is returned
    unchanged. *)
Theorem normalize_url_idempotent url :
  normalize_url (normalize_url url) = normalize_url url
  ∧ (normalize_url url ≠ [] →
     py_strip (normalize_url url) = normalize_url url
     ∧ startswith (py "http://") (py_lower (normalize_url url))
       || startswith (py "https://") (py_lower (normalize_url url)) = true
     ∧ ∃ netloc, urlparse_netloc (normalize_url url) = Ok netloc
                 ∧ netloc ≠ []).
Proof.
  split; [apply normalize_url_fixed|]. intros Hne.
  by destruct (normalize_url_cases url) as [?|(_ & ?)].
Qed.

(** What the loop of [urls_from_text] keeps true of [out]. *)
Lemma urls_loop_invariant (found out : list str) :
  NoDup out →
  Forall (λ u, u ≠ [] ∧ normalize_url u = u) out →
  let out' :=
    foldl (λ out u,
             let nu := normalize_url (py_rstrip_chars url_trailing u) in
             if nonempty nu && negb (bool_decide (nu ∈ out))
             then out ++ [nu] else out)
          out found in
  NoDup out' ∧ Forall (λ u, u ≠ [] ∧ normalize_url u = u) out'.
Proof.
  revert out. induction found as [|u found IH]; intros out Hnd Hall; [done|].
  cbn [foldl]. apply IH.
  - destruct (nonempty _) eqn:Hne; [|done]. case_bool_decide; [done|].
    cbn [negb andb]. apply NoDup_app. split; [done|].
    split; [|apply NoDup_singleton].
    intros x Hx ->%list_elem_of_singleton. done.
  - destruct (nonempty _) eqn:Hne; [|done]. case_bool_decide; [done|].
    cbn [negb andb]. apply Forall_app. split; [done|].
    apply Forall_singleton. split; [|apply normalize_url_fixed].
    intros E. by rewrite E in Hne.
Qed.

Lemma urls_from_text_normal text :
  NoDup (urls_from_text text)
  ∧ Forall (λ u, u ≠ [] ∧ normalize_url u = u) (urls_from_text text).
Proof.
  unfold urls_from_text. destruct (negb (nonempty text)).
  - split; [apply NoDup_nil_2|done].
  - by apply urls_loop_invariant; [apply NoDup_nil_2|].
Qed.

(** X23: [urls_from_text] returns no link twice, and every link it
    returns is non-empty and in normal form ([normalize_url] leaves it as
    it is). *)
Theorem urls_from_text_distinct text :
  NoDup (urls_from_text text)
  ∧ ∀ u, u ∈ urls_from_text text → u ≠ [] ∧ normalize_url u = u.
Proof.
  destruct (urls_from_text_normal text) as [Hnd Hall]. split; [done|].
  by apply Forall_forall.
Qed.

Lemma extract_first_linkedin_normal fields r :
  extract_first_linkedin fields = Ok r → normalize_url r = r.
Proof.
  induction fields as [|field rest IH]; cbn [extract_first_linkedin].
  { by intros [= <-]. }
  destruct (negb (nonempty field)); [done|].
  destruct (filter _ (urls_from_text field)) as [|u us] eqn:Hf; cbn [head].
  - destruct (str_find _ _) as [idx|]; [|done].
    intros H. apply bind_Ok in H as (candidate & _ & H).
    apply Ok_inj in H as <-. apply normalize_url_fixed.
  - intros [= <-].
    assert (u ∈ filter (λ u, is_Some (str_find (py "linkedin.com") (py_lower u)))
                       (urls_from_text field)) as Hin
      by (rewrite Hf; apply list_elem_of_here).
    apply list_elem_of_filter in Hin as [_ Hin].
    destruct (urls_from_text_normal field) as [_ Hall].
    rewrite Forall_forall in Hall. by apply Hall.
Qed.




End link_properties.


Section linkedin.
Context {U : Unicode} {L : Urllib}.

(** X25: whenever [extract_first_linkedin] returns, the link it returns
    is empty or in normal form ([normalize_url] leaves it as it is),
    whether it was found among the links of a field or cut out of its
    text; and fields that are empty are passed over. *)
Theorem extract_first_linkedin_result fields r :
  extract_first_linkedin fields = Ok r →
  normalize_url r = r
  ∧ extract_first_linkedin (filter (λ f, f ≠ []) fields) = Ok r.
Proof.
  intros H. split; [by apply extract_first_linkedin_normal in H|].
  rewrite <- H. clear H.
  induction fields as [|field rest IH]; [done|].
  destruct field as [|f0 f1].
  - rewrite filter_cons_False by (by intros ?). exact IH.
  - rewrite filter_cons_True by done.
    cbn [extract_first_linkedin nonempty negb]. by rewrite IH.
Qed.
End linkedin.

Lemma extract_first_linkedin_result_witness :
  let U := sample_unicode in
  let L := sample_urllib in
  let fields := [py ""; py "see linkedin.com/in/ada)."] in
  let r := py "https://linkedin.com/in/ada" in
  normalize_url r = r
  ∧ extract_first_linkedin (filter (λ f, f ≠ []) fields) = Ok r.
Proof.
  intros U L fields r. apply extract_first_linkedin_result.
  vm_compute. reflexivity.
Defined.

(** ** The statuses of a result *)

Section statuses.
Context {U : Unicode} {R : Runtime}.
Variable sc : script.
Variable cfg : config.
Variable ow : outside.

Lemma labelled_empty provider statuses other s :
  s ∈ statuses →
  labelled provider statuses other (set_status s (_geo_empty provider)).
Proof. intros Hs. split; [reflexivity|]. exists s. by split; [|left]. Qed.

Lemma labelled_not_found provider statuses other :
  py "NO_MATCH" ∈ statuses →
  labelled provider statuses other (_geo_no_match provider).
Proof. apply labelled_empty. Qed.

Lemma labelled_no_match provider statuses other s :
  s ∈ statuses →
  labelled provider statuses other (set_status s (_geo_no_match provider)).
Proof. intros Hs. split; [reflexivity|]. exists s. by split; [|left]. Qed.

Lemma labelled_record provider statuses other a b c d e f g :
  py "OK" ∈ statuses →
  labelled provider statuses other (geo_record provider a b c d e f g).
Proof. intros Hs. split; [reflexivity|]. exists (py "OK"). by split; [|left]. Qed.

Ltac in_list :=
  repeat first [apply list_elem_of_here | apply list_elem_of_further].

Lemma google_try_labelled r d :
  google_try (py "google") (_geo_no_match (py "google")) r = Ok d →
  labelled (py "google") google_statuses (λ s, ∃ t, s = py_upper t) d.
Proof.
  unfold google_try. intros H.
  apply bind_Ok in H as (resp & _ & H).
  apply bind_Ok in H as (data & _ & H).
  apply bind_Ok in H as (st & _ & H).
  apply bind_Ok in H as (status & Hup & H).
  destruct (bool_decide _).
  { apply Ok_inj in H as <-. split; [reflexivity|].
    destruct status as [|c0 c1] eqn:Hst.
    - exists (py "ERROR"). split; [reflexivity|]. left. unfold google_statuses. in_list.
    - exists (c0 :: c1). split; [reflexivity|]. right.
      unfold upper_method in Hup. destruct (py_or st _); try done.
      apply Ok_inj in Hup. by eexists. }
  apply bind_Ok in H as (? & _ & H).
  destruct (negb _).
  { apply Ok_inj in H as <-.
    apply labelled_not_found. unfold google_statuses. in_list. }
  repeat apply bind_Ok in H as (? & _ & H).
  apply Ok_inj in H as <-. apply labelled_record. unfold google_statuses. in_list.
Qed.

Lemma nominatim_record_labelled loc d :
  nominatim_record (py "nominatim") loc = Ok d →
  labelled (py "nominatim") nominatim_statuses (λ _, False) d.
Proof.
  unfold nominatim_record. intros H.
  repeat apply bind_Ok in H as (? & _ & H).
  apply Ok_inj in H as <-. apply labelled_record. unfold nominatim_statuses. in_list.
Qed.

Lemma fresh_result_labelled raw w :
  let key := py_lower (py_strip (default [] raw)) in
  (_GEO_CACHE w !! cache_key_of (py "nominatim") key = None →
   labelled (py "nominatim") nominatim_statuses (λ _, False)
     match fst (geocode_nominatim sc ow raw w) with
     | Ok d => d
     | Raise _ => VNone
     end)
  ∧ (_GEO_CACHE w !! cache_key_of (py "google") key = None →
     labelled (py "google") google_statuses (λ s, ∃ t, s = py_upper t)
       match fst (geocode_google sc cfg ow raw w) with
       | Ok d => d
       | Raise _ => VNone
       end).
Proof.
  intros key. subst key. split; intros Hc.
  - unfold geocode_nominatim.
    set (r := py_strip (default [] raw)) in *.
    destruct (negb (nonempty r) || bool_decide _).
    { cbn [fst]. apply labelled_empty. unfold guard_status, nominatim_statuses.
      destruct sc; [|destruct (nonempty r)]; in_list. }
    rewrite Hc.
    destruct (geopy_import ow (trace w)).
    2:{ cbn [fst]. apply labelled_no_match. unfold nominatim_statuses. in_list. }
    cbv zeta.
    destruct (RateLimiter _ 2 0) as [[loc|]|e].
    + destruct (nominatim_record _ loc) eqn:Hrec; cbn [fst].
      * by apply (nominatim_record_labelled loc).
      * apply labelled_no_match. unfold nominatim_statuses. in_list.
    + cbn [fst]. apply labelled_not_found.
      unfold nominatim_statuses. in_list.
    + set (st := match e with
                 | GeocoderInsufficientPrivileges => py "OSM_403_BLOCKED"
                 | _ => py "ERROR"
                 end).
      match goal with |- labelled _ _ _ ?t =>
        assert (t = set_status st (_geo_no_match (py "nominatim"))) as ->
          by (by destruct e)
      end.
      apply labelled_no_match. unfold nominatim_statuses.
      destruct e; in_list.
  - unfold geocode_google.
    set (r := py_strip (default [] raw)) in *.
    destruct (negb (nonempty r) || bool_decide _).
    { cbn [fst]. apply labelled_empty. unfold guard_status, google_statuses.
      destruct sc; [|destruct (nonempty r)]; in_list. }
    destruct (negb (nonempty (GOOGLE_MAPS_API_KEY cfg))).
    { cbn [fst]. apply labelled_empty. unfold google_statuses. in_list. }
    rewrite Hc.
    destruct (google_try _ _ _) eqn:Htry; cbn [fst].
    + by apply google_try_labelled in Htry.
    + apply labelled_no_match. unfold google_statuses. in_list.
Qed.

(** X26: a result that a provider does not take from the cache names the
    provider in [owner_geocode_provider], and its status is one of a
    fixed list: EMPTY, SKIPPED, NO_MATCH, ERROR, OSM_403_BLOCKED or OK for
    [geocode_nominatim]; EMPTY, SKIPPED, NO_API_KEY, NO_MATCH, ERROR or OK
    for [geocode_google], or else the upper-cased status the Google
    service sent. *)
Theorem provider_status_vocabulary raw w :
  let key := py_lower (py_strip (default [] raw)) in
  (_GEO_CACHE w !! cache_key_of (py "nominatim") key = None →
   ∃ d w', geocode_nominatim sc ow raw w = (Ok d, w')
     ∧ labelled (py "nominatim") nominatim_statuses (λ _, False) d)
  ∧ (_GEO_CACHE w !! cache_key_of (py "google") key = None →
     ∃ d w', geocode_google sc cfg ow raw w = (Ok d, w')
       ∧ labelled (py "google") google_statuses (λ s, ∃ t, s = py_upper t) d).
Proof.
  intros key. destruct (fresh_result_labelled raw w) as [Hn Hg]. split; intros Hc.
  - destruct (geocode_nominatim_total sc ow raw w) as (d & w' & E).
    exists d, w'. split; [done|]. specialize (Hn Hc). by rewrite E in Hn.
  - destruct (geocode_google_total sc cfg ow raw w) as (d & w' & E).
    exists d, w'. split; [done|]. specialize (Hg Hc). by rewrite E in Hg.
Qed.
End statuses.

(** A refused request, and a request that finds nothing. *)
Lemma provider_status_vocabulary_witness :
  let U := sample_unicode in
  let R := sample_runtime in
  let cfg := Config (py "") (py "k") in
  (∃ d w', geocode_nominatim geocode_postprocess_py blocked_outside
             (Some (py "Paris")) fresh_world = (Ok d, w')
     ∧ labelled (py "nominatim") nominatim_statuses (λ _, False) d)
  ∧ (∃ d w', geocode_google geocode_postprocess_py cfg zero_results
               (Some (py "Paris")) fresh_world = (Ok d, w')
       ∧ labelled (py "google") google_statuses (λ s, ∃ t, s = py_upper t) d).
Proof.
  intros U R cfg.
  split.
  - destruct (provider_status_vocabulary geocode_postprocess_py cfg
                blocked_outside (Some (py "Paris")) fresh_world) as [H _].
    apply H. reflexivity.
  - destruct (provider_status_vocabulary geocode_postprocess_py cfg
                zero_results (Some (py "Paris")) fresh_world) as [_ H].
    apply H. reflexivity.
Defined.

(** ** The address components of a Google result *)

Section components.

Lemma comp_setdefault_raised c e tys :
  foldl (comp_setdefault c) (Raise e) tys = Raise e.
Proof. induction tys as [|ty tys IH]; [done|]. exact IH. Qed.

Lemma comp_add_raised e comps : foldl comp_add (Raise e) comps = Raise e.
Proof. induction comps as [|c comps IH]; [done|]. exact IH. Qed.

Lemma comp_setdefault_lookup c tys m m' t :
  foldl (comp_setdefault c) (Ok m) tys = Ok m' →
  m' !! t =
    match m !! t with
    | Some x => Some x
    | None =>
      if existsb (λ ty, match ty with
                        | VStr t' => bool_decide (t' = t)
                        | _ => false
                        end) tys
      then Some c else None
    end.
Proof.
  revert m. induction tys as [|ty tys IH]; intros m H.
  { apply Ok_inj in H as <-. by destruct (m !! t). }
  cbn [foldl] in H. cbn [existsb].
  destruct ty as [| | | |t'| |]; cbn in H;
    try (by rewrite comp_setdefault_raised in H);
    try (by rewrite (IH _ H)).
  destruct (m !! t') as [x|] eqn:Ht'.
  - rewrite (IH _ H). destruct (m !! t) as [y|] eqn:Ht; [done|].
    case_bool_decide as E; [|done]. subst t'. congruence.
  - rewrite (IH _ H). case_bool_decide as E.
    + subst t'. by rewrite lookup_insert_eq, Ht'.
    + by rewrite lookup_insert_ne.
Qed.

Lemma comp_add_lookup comps m m' t :
  foldl comp_add (Ok m) comps = Ok m' →
  m' !! t =
    match m !! t with
    | Some x => Some x
    | None => head (filter (λ c, has_type t c = true) comps)
    end.
Proof.
  revert m. induction comps as [|c comps IH]; intros m H.
  { apply Ok_inj in H as <-. by destruct (m !! t). }
  cbn [foldl] in H.
  destruct (comp_add (Ok m) c) as [m1|e] eqn:H1.
  2:{ by rewrite comp_add_raised in H. }
  rewrite (IH _ H). unfold comp_add in H1. cbn in H1.
  apply bind_Ok in H1 as (tys & Htys & H1).
  apply bind_Ok in H1 as (l & Hl & H1).
  rewrite (comp_setdefault_lookup _ _ _ _ t H1).
  destruct (m !! t) as [x|]; [done|].
  assert (has_type t c
          = existsb (λ ty, match ty with
                           | VStr t' => bool_decide (t' = t)
                           | _ => false
                           end) l) as Hty.
  { unfold has_type. by rewrite Htys, Hl. }
  destruct (existsb _ l).
  - by rewrite filter_cons_True.
  - rewrite filter_cons_False; [done|]. by rewrite Hty.
Qed.

(** X27: in [geocode_google] the component used for an address type is
    the first one, in the order of ["address_components"], that lists this
    type: whenever the loop over the components ends without an exception,
    [comp_map] holds for each type exactly that component, and no entry
    for a type that no component lists. *)
Theorem google_first_component_wins comps comp_map t :
  foldl comp_add (Ok ∅) comps = Ok comp_map →
  comp_map !! t = head (filter (λ c, has_type t c = true) comps).
Proof. intros H. by rewrite (comp_add_lookup _ _ _ t H), lookup_empty. Qed.
End components.

(** Two components typed "political": the first is kept. *)
Lemma google_first_component_wins_witness :
  let ile := VDict [ (py "long_name", VStr (py "Île-de-France"));
                     (py "types", VList [VStr (py "administrative_area_level_1");
                                         VStr (py "political")]) ] in
  let france := VDict [ (py "long_name", VStr (py "France"));
                        (py "types", VList [VStr (py "country");
                                            VStr (py "political")]) ] in
  let comp_map : gmap str pyval :=
    <[py "country" := france]>
      (<[py "political" := ile]>
         (<[py "administrative_area_level_1" := ile]> ∅)) in
  comp_map !! py "political"
  = head (filter (λ c, has_type (py "political") c = true) [ile; france]).
Proof.
  intros ile france comp_map. apply google_first_component_wins.
  reflexivity.
Defined.
